(** * mm-backend: the staged case-generation pipeline of
    [src/routes/generate-impostor-case.ts]

  A shallow embedding of the impostor-case route: the JSON repair engine
  ([fixUnterminatedStrings], [parseAndRepairJSON]), the batch validator
  inside [generatePlayersBatch], the photo reconciler ([scoreMatch] and the
  matching loop) and the route handler that sequences them.

  Conventions of the model.
  - A JavaScript string is a [string]: every [ascii] is one UTF-16 code
    unit in the range 0..255.  Strings with larger code units are outside
    the model.
  - A JavaScript index is a [Z]; [-1] is "not found", as in the source.
  - A JavaScript number is a double ([Double]): a parsed number keeps
    its decimal text and is rounded to the nearest double wherever the
    route computes with it, tests it or prints it.
  - The conversion of a parsed value to text ([Value.toText]) can throw:
    an object that holds a member named [toString] has no callable
    conversion.
  - The records of the catalog and the items of [playerNames] and
    [playerGenders] are typed as the route's interfaces declare them; the
    request counts are integers.
  - The text-generation service, the catalog and [Math.random] are inputs
    of the handler (a [World]); every call to one of them is logged in a
    trace, so that "no call was made" is a statement about that trace. *)

From Stdlib Require Import ZArith List String Ascii Bool Lia Sorted.
Import ListNotations.

#[local] Set Warnings "-register-all".
#[local] Open Scope string_scope.
#[local] Open Scope list_scope.
#[local] Open Scope Z_scope.

(* ================================================================== *)
(** ** JavaScript string primitives used by the route *)

Module JS.

(** The double-quote character, code unit 34. *)
Definition DQUOTE : ascii := "034"%char.
Definition BACKSLASH : ascii := "\"%char.

Definition chars (s : string) : list ascii := list_ascii_of_string s.
Definition text (l : list ascii) : string := string_of_list_ascii l.

(** [s.length] *)
Definition len (s : string) : Z := Z.of_nat (String.length s).

(** [s.substring(0, n)] and [s.slice(0, n)] for [n >= 0]; a negative
    [n] is clamped to 0 as [substring] does (no call site of the route
    passes a negative one). *)
Definition prefix (s : string) (n : Z) : string :=
  String.substring 0 (Z.to_nat n) s.

(** [s.slice(n)] for [n >= 0]. *)
Definition suffix (s : string) (n : Z) : string :=
  String.substring (Z.to_nat n) (String.length s - Z.to_nat n) s.

(** [s.slice(a, b)] for [0 <= a]. *)
Definition slice (s : string) (a b : Z) : string :=
  String.substring (Z.to_nat a) (Z.to_nat (b - a)) s.

(** [s.lastIndexOf(c)] for a one-character needle. *)
Fixpoint lastIndexFrom (s : string) (c : ascii) (i : Z) (found : Z) : Z :=
  match s with
  | EmptyString => found
  | String x rest =>
      lastIndexFrom rest c (i + 1) (if Ascii.eqb x c then i else found)
  end.

Definition lastIndexOf (s : string) (c : ascii) : Z :=
  lastIndexFrom s c 0 (-1).

(** [s.endsWith(c)] for a one-character needle. *)
Definition endsWith (s : string) (c : ascii) : bool :=
  match rev (chars s) with
  | x :: _ => Ascii.eqb x c
  | [] => false
  end.

(** [(s.match(/c/g) || []).length] *)
Fixpoint countChar (s : string) (c : ascii) : Z :=
  match s with
  | EmptyString => 0
  | String x rest => (if Ascii.eqb x c then 1 else 0) + countChar rest c
  end.

(** [c.repeat(n)]; the route only calls it with [n > 0]. *)
Definition repeatChar (c : ascii) (n : Z) : string :=
  text (repeat c (Z.to_nat n)).

(** White space and line terminators that [trim] removes, among the code
    units below 256: TAB, LF, VT, FF, CR, SP and NBSP. *)
Definition isWhiteSpace (c : ascii) : bool :=
  let n := N_of_ascii c in
  ((9 <=? n) && (n <=? 13) || (n =? 32) || (n =? 160))%N.

Fixpoint trimStartChars (l : list ascii) : list ascii :=
  match l with
  | c :: rest => if isWhiteSpace c then trimStartChars rest else l
  | [] => []
  end.

Definition trimEndChars (l : list ascii) : list ascii :=
  rev (trimStartChars (rev l)).

(** [s.trim()] *)
Definition trim (s : string) : string :=
  text (trimEndChars (trimStartChars (chars s))).

(** [s.toLowerCase()] on code units below 256: A-Z and the Latin-1
    capitals 0xC0-0xDE (0xD7, the multiplication sign, apart). *)
Definition lowerChar (c : ascii) : ascii :=
  let n := N_of_ascii c in
  if ((65 <=? n) && (n <=? 90)
      || (192 <=? n) && (n <=? 222) && negb (n =? 215))%N
  then ascii_of_N (n + 32) else c.

Fixpoint toLowerCase (s : string) : string :=
  match s with
  | EmptyString => EmptyString
  | String c rest => String (lowerChar c) (toLowerCase rest)
  end.

(** [hay.includes(needle)] *)
Fixpoint includes (hay needle : string) : bool :=
  String.prefix needle hay
  || match hay with
     | EmptyString => false
     | String _ rest => includes rest needle
     end.

(** Decimal text of an integer, as a template literal prints it. *)
Fixpoint digitsOfPos (fuel : nat) (n : Z) (acc : string) : string :=
  match fuel with
  | O => acc
  | S fuel' =>
      let d := ascii_of_N (48 + Z.to_N (n mod 10)) in
      if n <? 10 then String d acc
      else digitsOfPos fuel' (n / 10) (String d acc)
  end.

Definition showInt (n : Z) : string :=
  if n <? 0 then String "-" (digitsOfPos (S (Z.to_nat (Z.log2 (- n)))) (- n) "")
  else digitsOfPos (S (Z.to_nat (Z.log2 n))) n "".

(** A way to write JSON in this file: [dq] turns every apostrophe of
    its argument into a double quote. *)
Definition dq (s : string) : string :=
  text (map (fun c => if Ascii.eqb c "'" then DQUOTE else c) (chars s)).

End JS.

(* ================================================================== *)
(** ** Doubles *)

Module Double.

(** A Number that is not NaN: [mantissa * 2^exponent] in the one form
    that a double has, or an infinity.  The mantissa is below [2^53] in
    absolute value and the exponent lies between -1074 and 971; a
    mantissa below [2^52] goes with the exponent -1074 only (the
    subnormal numbers, and zero).  The two zeros are both [Finite 0
    (-1074)], which nothing in the route tells apart. *)
Inductive Double : Type :=
| Finite (mantissa exponent : Z)
| Infinite (negative : bool).

(** [p / q] rounded to the nearest integer, ties to even, for [0 <= p]
    and [0 < q]. *)
Definition nearest (p q : Z) : Z :=
  let d := p / q in
  let r := p mod q in
  if (2 * r >? q) || ((2 * r =? q) && Z.odd d) then d + 1 else d.

(** [floor(log2(p / q))] for [0 < p] and [0 < q]. *)
Definition binaryExponent (p q : Z) : Z :=
  let b := Z.log2 p - Z.log2 q in
  if (if 0 <=? b then q * 2 ^ b <=? p else q <=? p * 2 ^ (- b)) then b
  else b - 1.

(** The double nearest to [p / q], ties to even, with its sign: 53
    significant bits, fewer below [2^-1022], an infinity when the
    rounded value is [2^1024] or more. *)
Definition make (negative : bool) (p q : Z) : Double :=
  if p =? 0 then Finite 0 (-1074)
  else
    let e := Z.max (binaryExponent p q - 52) (-1074) in
    let m := if 0 <=? e then nearest p (q * 2 ^ e) else nearest (p * 2 ^ (- e)) q in
    let e' := if m =? 2 ^ 53 then e + 1 else e in
    let m' := if m =? 2 ^ 53 then 2 ^ 52 else m in
    if 971 <? e' then Infinite negative
    else Finite (if negative then - m' else m') e'.

(** The Number that [JSON.parse] gives for the decimal [m * 10^e]. *)
Definition ofDecimal (m e : Z) : Double :=
  if 0 <=? e then make (m <? 0) (Z.abs m * 10 ^ e) 1
  else make (m <? 0) (Z.abs m) (10 ^ (- e)).

Definition isZero (d : Double) : bool :=
  match d with
  | Finite m _ => m =? 0
  | Infinite _ => false
  end.

(** [Math.abs(d - n)] for an integer [n] that a double holds. *)
Definition distance (d : Double) (n : Z) : Double :=
  match d with
  | Finite m e =>
      if 0 <=? e then make false (Z.abs (m * 2 ^ e - n)) 1
      else make false (Z.abs (m - n * 2 ^ (- e))) (2 ^ (- e))
  | Infinite _ => Infinite false
  end.

(** [d <= n] for an integer [n]. *)
Definition atMost (d : Double) (n : Z) : bool :=
  match d with
  | Finite m e => if 0 <=? e then m * 2 ^ e <=? n else m <=? n * 2 ^ (- e)
  | Infinite negative => negative
  end.

(** *** [Number.prototype.toString] *)

(** [x / 10^t] as a fraction, for [x = m * 2^e]. *)
Definition scaled (m e t : Z) : Z * Z :=
  (m * 2 ^ Z.max e 0 * 10 ^ Z.max (- t) 0, 2 ^ Z.max (- e) 0 * 10 ^ Z.max t 0).

(** [x < 10^j] *)
Definition below (m e j : Z) : bool :=
  let '(p, q) := scaled m e j in p <? q.

(** The [n] for which [10^(n-1) <= x < 10^n], looked for around the
    estimate that the binary exponent gives. *)
Definition magnitude (m e : Z) : Z :=
  let n := ((Z.log2 m + e) * 1233) / 4096 in
  if below m e (n - 1) then n - 1
  else if below m e n then n
  else if below m e (n + 1) then n + 1
  else n + 2.

(** The decimal [s * 10^t] reads back as [m * 2^e]. *)
Definition readsAs (m e s t : Z) : bool :=
  match (if 0 <=? t then make false (s * 10 ^ t) 1 else make false s (10 ^ (- t))) with
  | Finite m' e' => (m' =? m) && (e' =? e)
  | Infinite _ => false
  end.

(** [floor(x / 10^t)] *)
Definition floorScaled (m e t : Z) : Z :=
  let '(p, q) := scaled m e t in p / q.

(** Of [lo * 10^t] and [(lo + 1) * 10^t], which enclose [x], the one
    nearer to [x]; the even one when they are as near. *)
Definition nearer (m e t lo : Z) : Z :=
  let '(p, q) := scaled m e t in
  if 2 * p <? (2 * lo + 1) * q then lo
  else if (2 * lo + 1) * q <? 2 * p then lo + 1
  else if Z.even lo then lo else lo + 1.

(** The shortest digits that read back as [x]: [(s, t)] with [k] digits
    in [s], for the least [k] that has such an [s]; 17 digits always
    do. *)
Fixpoint shortest (fuel : nat) (m e n k : Z) : Z * Z :=
  let t := n - k in
  let lo := floorScaled m e t in
  match fuel with
  | O => (lo, t)
  | S fuel' =>
      match readsAs m e lo t, readsAs m e (lo + 1) t with
      | true, true => (nearer m e t lo, t)
      | true, false => (lo, t)
      | false, true => (lo + 1, t)
      | false, false => shortest fuel' m e n (k + 1)
      end
  end.

(** [s * 10^t] without the zeros that end [s]. *)
Fixpoint stripZeros (fuel : nat) (s t : Z) : Z * Z :=
  match fuel with
  | O => (s, t)
  | S fuel' => if s mod 10 =? 0 then stripZeros fuel' (s / 10) (t + 1) else (s, t)
  end.

(** [d.toString()] and the text of [d] in a template literal. *)
Definition toString (d : Double) : string :=
  match d with
  | Infinite negative => if negative then "-Infinity" else "Infinity"
  | Finite m e =>
      if m =? 0 then "0"
      else
        let a := Z.abs m in
        let '(s0, t0) := shortest 17 a e (magnitude a e) 1 in
        let '(s, t) := stripZeros 20 s0 t0 in
        let digits := JS.showInt s in
        let k := JS.len digits in
        let n := t + k in
        let sign := if m <? 0 then "-" else "" in
        let body :=
          if (k <=? n) && (n <=? 21) then (digits ++ JS.repeatChar "0" (n - k))%string
          else if (0 <? n) && (n <=? 21)
          then (JS.prefix digits n ++ "." ++ JS.suffix digits n)%string
          else if (-6 <? n) && (n <=? 0)
          then ("0." ++ JS.repeatChar "0" (- n) ++ digits)%string
          else
            let x := n - 1 in
            let xsign := if x <? 0 then "-" else "+" in
            let exponent := (xsign ++ JS.showInt (Z.abs x))%string in
            if k =? 1 then (digits ++ "e" ++ exponent)%string
            else (JS.prefix digits 1 ++ "." ++ JS.suffix digits 1 ++ "e" ++ exponent)%string in
        (sign ++ body)%string
  end.

End Double.

(* ================================================================== *)
(** ** JSON values and the built-in [JSON.parse] *)

Module Json.

(** A parsed value.  A number keeps the decimal of its text,
    [mantissa * 10 ^ exponent], of which [Double.ofDecimal] is the
    Number; an object keeps its members in textual order, duplicates
    included. *)
Inductive JSON : Type :=
| JNull
| JBool (b : bool)
| JNumber (mantissa exponent : Z)
| JString (s : string)
| JArray (elems : list JSON)
| JObject (members : list (string * JSON)).

(** *** Number literals *)

Definition digitVal (c : ascii) : option Z :=
  let n := N_of_ascii c in
  if ((48 <=? n) && (n <=? 57))%N then Some (Z.of_N n - 48) else None.

Definition isDigit (c : ascii) : bool :=
  match digitVal c with Some _ => true | None => false end.

(** Reads a run of digits: the value read after [acc], how many digits,
    and what follows. *)
Fixpoint takeDigits (l : list ascii) (acc : Z) (count : Z)
  : Z * Z * list ascii :=
  match l with
  | c :: rest =>
      match digitVal c with
      | Some d => takeDigits rest (10 * acc + d) (count + 1)
      | None => (acc, count, l)
      end
  | [] => (acc, count, [])
  end.

Definition readSign (l : list ascii) : bool * list ascii :=
  match l with
  | "-"%char :: rest => (true, rest)
  | _ => (false, l)
  end.

(** int: [0] alone, or a digit 1-9 followed by digits. *)
Definition readInt (l : list ascii) : option (Z * list ascii) :=
  match l with
  | "0"%char :: rest => Some (0, rest)
  | c :: _ =>
      if isDigit c
      then let '(v, _, rest) := takeDigits l 0 0 in Some (v, rest)
      else None
  | [] => None
  end.

(** frac: nothing, or [.] and at least one digit.  Returns the mantissa
    extended by the fraction digits and their number. *)
Definition readFrac (int : Z) (l : list ascii) : option (Z * Z * list ascii) :=
  match l with
  | "."%char :: rest =>
      let '(v, n, rest') := takeDigits rest int 0 in
      if n =? 0 then None else Some (v, n, rest')
  | _ => Some (int, 0, l)
  end.

(** exp: nothing, or [e]/[E], an optional sign and at least one digit. *)
Definition readExp (l : list ascii) : option (Z * list ascii) :=
  let digits (neg : bool) (r : list ascii) :=
    let '(v, n, rest) := takeDigits r 0 0 in
    if n =? 0 then None else Some (if neg then - v else v, rest) in
  let signed (r : list ascii) :=
    match r with
    | "+"%char :: r' => digits false r'
    | "-"%char :: r' => digits true r'
    | _ => digits false r
    end in
  match l with
  | "e"%char :: r => signed r
  | "E"%char :: r => signed r
  | _ => Some (0, l)
  end.

(** A complete number lexeme, or [None] when it is not one. *)
Definition numberOfLexeme (l : list ascii) : option JSON :=
  let '(neg, l1) := readSign l in
  match readInt l1 with
  | None => None
  | Some (int, l2) =>
      match readFrac int l2 with
      | None => None
      | Some (m, nfrac, l3) =>
          match readExp l3 with
          | Some (e, []) => Some (JNumber (if neg then - m else m) (e - nfrac))
          | _ => None
          end
      end
  end.

Definition isNumberChar (c : ascii) : bool :=
  isDigit c
  || Ascii.eqb c "+" || Ascii.eqb c "-" || Ascii.eqb c "."
  || Ascii.eqb c "e" || Ascii.eqb c "E".

(** *** String literals *)

Definition hexVal (c : ascii) : option N :=
  let n := N_of_ascii c in
  (if (48 <=? n) && (n <=? 57) then Some (n - 48)
   else if (65 <=? n) && (n <=? 70) then Some (n - 55)
   else if (97 <=? n) && (n <=? 102) then Some (n - 87)
   else None)%N.

Inductive Escape : Type :=
| EscNone
| EscSlash
| EscHex (digits : list N).

(** What a one-letter escape stands for. *)
Definition simpleEscape (c : ascii) : option ascii :=
  if Ascii.eqb c JS.DQUOTE then Some JS.DQUOTE
  else if Ascii.eqb c "\" then Some "\"%char
  else if Ascii.eqb c "/" then Some "/"%char
  else if Ascii.eqb c "b" then Some "008"%char
  else if Ascii.eqb c "f" then Some "012"%char
  else if Ascii.eqb c "n" then Some "010"%char
  else if Ascii.eqb c "r" then Some "013"%char
  else if Ascii.eqb c "t" then Some "009"%char
  else None.

(** *** The grammar, as a pushdown automaton over the code units *)

(** An array or object under construction; elements and members are kept
    in reverse.  [FObject ms key] waits for the value of [key]. *)
Inductive Frame : Type :=
| FArray (done : list JSON)
| FObject (done : list (string * JSON)) (key : string).

(** The three literals [true], [false] and [null]. *)
Inductive Literal : Type := LTrue | LFalse | LNull.

Definition literalText (which : Literal) : list ascii :=
  match which with
  | LTrue => ["t"; "r"; "u"; "e"]%char
  | LFalse => ["f"; "a"; "l"; "s"; "e"]%char
  | LNull => ["n"; "u"; "l"; "l"]%char
  end.

Definition literalValue (which : Literal) : JSON :=
  match which with
  | LTrue => JBool true
  | LFalse => JBool false
  | LNull => JNull
  end.

Inductive Mode : Type :=
| MValue                       (* a value must start *)
| MArrayStart                  (* after [: a value or ] *)
| MObjectStart                 (* after {: a key or } *)
| MKey                         (* after , in an object: a key *)
| MColon                       (* after a key: a colon *)
| MAfter (v : JSON)            (* a value is complete *)
| MString (isKey : bool) (acc : list ascii) (e : Escape)
| MNumber (acc : list ascii)
| MLiteral (which : Literal) (pos : nat) (* [pos] letters of it are read *)
| MFail.

Definition PState : Type := Mode * list Frame.

Definition failed : PState := (MFail, []).

(** JSON white space: TAB, LF, CR and SP only. *)
Definition isJsonWs (c : ascii) : bool :=
  let n := N_of_ascii c in
  ((n =? 9) || (n =? 10) || (n =? 13) || (n =? 32))%N.

Definition startValue (c : ascii) (stk : list Frame) : PState :=
  if Ascii.eqb c "{" then (MObjectStart, FObject [] "" :: stk)
  else if Ascii.eqb c "[" then (MArrayStart, FArray [] :: stk)
  else if Ascii.eqb c JS.DQUOTE then (MString false [] EscNone, stk)
  else if Ascii.eqb c "-" || isDigit c then (MNumber [c], stk)
  else if Ascii.eqb c "t" then (MLiteral LTrue 1, stk)
  else if Ascii.eqb c "f" then (MLiteral LFalse 1, stk)
  else if Ascii.eqb c "n" then (MLiteral LNull 1, stk)
  else failed.

(** After the complete value [v], the code unit [c] is not white space. *)
Definition closeValue (v : JSON) (stk : list Frame) (c : ascii) : PState :=
  match stk with
  | [] => failed
  | FArray el :: stk' =>
      if Ascii.eqb c "," then (MValue, FArray (v :: el) :: stk')
      else if Ascii.eqb c "]" then (MAfter (JArray (rev (v :: el))), stk')
      else failed
  | FObject ms k :: stk' =>
      if Ascii.eqb c "," then (MKey, FObject ((k, v) :: ms) "" :: stk')
      else if Ascii.eqb c "}" then (MAfter (JObject (rev ((k, v) :: ms))), stk')
      else failed
  end.

Definition afterValue (v : JSON) (stk : list Frame) (c : ascii) : PState :=
  if isJsonWs c then (MAfter v, stk) else closeValue v stk c.

Definition endString (isKey : bool) (s : string) (stk : list Frame) : PState :=
  if isKey then
    match stk with
    | FObject ms _ :: stk' => (MColon, FObject ms s :: stk')
    | _ => failed
    end
  else (MAfter (JString s), stk).

(** Inside a string literal.  An escape [\uXXXX] that denotes a code unit
    above 255 leaves the alphabet of the model and is not accepted. *)
Definition stringStep (isKey : bool) (acc : list ascii) (e : Escape)
           (stk : list Frame) (c : ascii) : PState :=
  match e with
  | EscNone =>
      if Ascii.eqb c JS.DQUOTE then endString isKey (JS.text (rev acc)) stk
      else if Ascii.eqb c "\" then (MString isKey acc EscSlash, stk)
      else if (N_of_ascii c <? 32)%N then failed
      else (MString isKey (c :: acc) EscNone, stk)
  | EscSlash =>
      if Ascii.eqb c "u" then (MString isKey acc (EscHex []), stk)
      else match simpleEscape c with
           | Some x => (MString isKey (x :: acc) EscNone, stk)
           | None => failed
           end
  | EscHex ds =>
      match hexVal c with
      | None => failed
      | Some d =>
          match ds with
          | [d1; d2; d3] =>
              let code := (((d1 * 16 + d2) * 16 + d3) * 16 + d)%N in
              if (code <? 256)%N
              then (MString isKey (ascii_of_N code :: acc) EscNone, stk)
              else failed
          | _ => (MString isKey acc (EscHex (ds ++ [d])), stk)
          end
      end
  end.

Definition step (st : PState) (c : ascii) : PState :=
  let '(m, stk) := st in
  match m with
  | MFail => st
  | MValue => if isJsonWs c then st else startValue c stk
  | MArrayStart =>
      if isJsonWs c then st
      else if Ascii.eqb c "]" then
        match stk with
        | FArray _ :: stk' => (MAfter (JArray []), stk')
        | _ => failed
        end
      else startValue c stk
  | MObjectStart =>
      if isJsonWs c then st
      else if Ascii.eqb c "}" then
        match stk with
        | FObject _ _ :: stk' => (MAfter (JObject []), stk')
        | _ => failed
        end
      else if Ascii.eqb c JS.DQUOTE then (MString true [] EscNone, stk)
      else failed
  | MKey =>
      if isJsonWs c then st
      else if Ascii.eqb c JS.DQUOTE then (MString true [] EscNone, stk)
      else failed
  | MColon =>
      if isJsonWs c then st
      else if Ascii.eqb c ":" then (MValue, stk)
      else failed
  | MAfter v => afterValue v stk c
  | MString isKey acc e => stringStep isKey acc e stk c
  | MNumber acc =>
      if isNumberChar c then (MNumber (c :: acc), stk)
      else match numberOfLexeme (rev acc) with
           | Some v => afterValue v stk c
           | None => failed
           end
  | MLiteral which pos =>
      match nth_error (literalText which) pos with
      | Some x =>
          if Ascii.eqb c x
          then if (S pos =? List.length (literalText which))%nat
               then (MAfter (literalValue which), stk)
               else (MLiteral which (S pos), stk)
          else failed
      | None => failed
      end
  end.

Definition run (st : PState) (l : list ascii) : PState :=
  fold_left step l st.

(** The value at the end of the text, when the text is one. *)
Definition finish (st : PState) : option JSON :=
  match st with
  | (MAfter v, []) => Some v
  | (MNumber acc, []) => numberOfLexeme (rev acc)
  | _ => None
  end.

(** [JSON.parse(s)]: [None] stands for the [SyntaxError] it throws. *)
Definition parse (s : string) : option JSON :=
  finish (run (MValue, []) (JS.chars s)).

(** *** Reading parsed values *)

(** Own property [key] of an object: the last member of that name, as
    [JSON.parse] lets a later duplicate overwrite an earlier one. *)
Fixpoint lookup (key : string) (ms : list (string * JSON)) : option JSON :=
  match ms with
  | [] => None
  | (k, v) :: rest =>
      match lookup key rest with
      | Some v' => Some v'
      | None => if String.eqb k key then Some v else None
      end
  end.

(** [obj[key] = v] on the members of an object: an existing member keeps
    its place, a new one goes last. *)
Fixpoint assign (key : string) (v : JSON) (ms : list (string * JSON))
  : list (string * JSON) :=
  match ms with
  | [] => [(key, v)]
  | (k, x) :: rest =>
      if existsb (fun kv => String.eqb (fst kv) key) rest
      then (k, x) :: assign key v rest
      else if String.eqb k key then (k, v) :: rest
      else (k, x) :: assign key v rest
  end.

(** JavaScript truthiness of a parsed value: of the numbers, the one
    that [JSON.parse] rounds to zero is falsy. *)
Definition truthy (v : JSON) : bool :=
  match v with
  | JNull => false
  | JBool b => b
  | JNumber m e => negb (Double.isZero (Double.ofDecimal m e))
  | JString s => negb (String.eqb s "")
  | JArray _ | JObject _ => true
  end.

End Json.

(* ================================================================== *)
(** ** Exceptions *)

(** What the route throws, one constructor per [throw] site, plus the
  [TypeError] of the language and the rejection of an awaited call. *)
Inductive Exception : Type :=
| IncompleteJSON                       (* parseAndRepairJSON, not closed *)
| UnbalancedQuotes                     (* parseAndRepairJSON, quotes *)
| InvalidJSON                          (* parseAndRepairJSON, after the retry *)
| MissingApiKey                        (* getOpenAIClient *)
| NoResponse                           (* empty completion *)
| MissingPlayersArray                  (* generatePlayersBatch *)
| BatchCountMismatch (got requested : Z) (* generatePlayersBatch *)
| TotalCountMismatch (got expected : Z)  (* the handler, after the batches *)
| TypeError                            (* property access or write refused *)
| Rejected (message : string).         (* a collaborator's promise rejected *)

Inductive Result (A : Type) : Type :=
| Ok (a : A)
| Throw (e : Exception).

Arguments Ok {A} a.
Arguments Throw {A} e.

(** [error.message], where the route words it.  The text of a
    [TypeError] is the engine's own, and so is the text that [InvalidJSON]
    appends after "Original:"; they are [None] here. *)
Definition message (e : Exception) : option string :=
  match e with
  | IncompleteJSON =>
      Some "Model returned incomplete JSON (not closed, could not repair)"
  | UnbalancedQuotes =>
      Some "Model returned malformed JSON (unbalanced quotes, could not fix)"
  | InvalidJSON => None
  | MissingApiKey => Some "OPENAI_API_KEY is not defined"
  | NoResponse => Some "No response from OpenAI"
  | MissingPlayersArray => Some "Invalid response structure: missing players array"
  | BatchCountMismatch got requested =>
      Some ("AI generated " ++ JS.showInt got ++ " players but "
              ++ JS.showInt requested ++ " were requested for this batch")%string
  | TotalCountMismatch got expected =>
      Some ("AI generated " ++ JS.showInt got ++ " players instead of "
              ++ JS.showInt expected)%string
  | TypeError => None
  | Rejected m => Some m
  end.

(* ================================================================== *)
(** ** The JSON repair engine *)

Module Repair.
Import Json.

(** *** [fixUnterminatedStrings] *)

(** The variables of the scanning loop.  [stack] has its top first. *)
Record Scan : Type := mkScan {
  inString : bool;
  escapeNext : bool;
  stringStart : Z;
  stack : list Z
}.

Definition scanInit : Scan := mkScan false false (-1) [].

(** One turn of the [for] loop at index [i]. *)
Definition scanStep (st : Scan) (i : Z) (char : ascii) : Scan :=
  if escapeNext st then
    mkScan (inString st) false (stringStart st) (stack st)
  else if Ascii.eqb char JS.BACKSLASH then
    mkScan (inString st) true (stringStart st) (stack st)
  else if Ascii.eqb char JS.DQUOTE then
    if inString st
    then mkScan false false (stringStart st) (tl (stack st))
    else mkScan true false i (i :: stack st)
  else st.

Fixpoint scanFrom (s : string) (i : Z) (st : Scan) : Scan :=
  match s with
  | EmptyString => st
  | String char rest => scanFrom rest (i + 1) (scanStep st i char)
  end.

Definition isStructural (char : ascii) : bool :=
  Ascii.eqb char "," || Ascii.eqb char "}" || Ascii.eqb char "]".

(** The inner [while]: the backslashes that end at [insertPos - 1],
    counted down to [stringStart]. *)
Fixpoint leadingBackslashes (l : list ascii) : Z :=
  match l with
  | c :: rest =>
      if Ascii.eqb c JS.BACKSLASH then 1 + leadingBackslashes rest else 0
  | [] => 0
  end.

Definition isEscapedAt (result : string) (stringStart insertPos : Z) : bool :=
  let backslashCount :=
    leadingBackslashes (rev (JS.chars (JS.slice result stringStart insertPos))) in
  backslashCount mod 2 =? 1.

(** The outer [while]: [rest] is [result.slice(insertPos)], so that it is
    empty exactly when [insertPos < result.length] fails.  [Some p] is the
    position at which the loop breaks. *)
Fixpoint searchInsertPos (result : string) (stringStart lastValidPos : Z)
         (rest : string) (insertPos : Z) : option Z :=
  match rest with
  | EmptyString => None
  | String char rest' =>
      if insertPos <=? lastValidPos then
        if isStructural char && negb (isEscapedAt result stringStart insertPos)
        then Some insertPos
        else searchInsertPos result stringStart lastValidPos rest' (insertPos + 1)
      else None
  end.

Definition insertQuote (result : string) (pos : Z) : string :=
  (JS.prefix result pos ++ String JS.DQUOTE (JS.suffix result pos))%string.

Definition fixUnterminatedStrings (jsonString : string) : string :=
  let result := jsonString in
  let st := scanFrom result 0 scanInit in
  if inString st && (0 <=? stringStart st) then
    let lastBrace := JS.lastIndexOf result "}" in
    let lastBracket := JS.lastIndexOf result "]" in
    let lastValidPos := Z.max (Z.max lastBrace lastBracket) 0 in
    if stringStart st <? lastValidPos then
      match searchInsertPos result (stringStart st) lastValidPos
              (JS.suffix result (stringStart st + 1)) (stringStart st + 1) with
      | Some insertPos => insertQuote result insertPos
      | None =>
          if lastValidPos >? stringStart st
          then insertQuote result lastValidPos
          else result
      end
    else (result ++ String JS.DQUOTE "")%string
  else result.

(** *** [parseAndRepairJSON] *)

(** The backward [for] loop of the bracket-balance branch, on the code
    units in reverse, [i] being the index of the head. *)
Fixpoint scanBack (l : list ascii) (i : Z) (openBraces openBrackets : Z)
         (lastValidPos : Z) : Z * Z * Z :=
  match l with
  | [] => (openBraces, openBrackets, lastValidPos)
  | char :: rest =>
      let '(openBraces', openBrackets') :=
        if Ascii.eqb char "}" then (openBraces + 1, openBrackets)
        else if Ascii.eqb char "{" then (openBraces - 1, openBrackets)
        else if Ascii.eqb char "]" then (openBraces, openBrackets + 1)
        else if Ascii.eqb char "[" then (openBraces, openBrackets - 1)
        else (openBraces, openBrackets) in
      if (openBraces' <? 0) || (openBrackets' <? 0)
      then (openBraces', openBrackets', i + 1)
      else scanBack rest (i - 1) openBraces' openBrackets' lastValidPos
  end.

Definition balanceBrackets (trimmed : string) : string :=
  let '(openBraces, openBrackets, lastValidPos) :=
    scanBack (rev (JS.chars trimmed)) (JS.len trimmed - 1) 0 0 (JS.len trimmed) in
  let closing :=
    ((if openBraces >? 0 then JS.repeatChar "}" openBraces else "")
       ++ (if openBrackets >? 0 then JS.repeatChar "]" openBrackets else ""))%string in
  (JS.prefix trimmed lastValidPos ++ closing)%string.

Definition evenQuotes (s : string) : bool :=
  JS.countChar s JS.DQUOTE mod 2 =? 0.

(** The first [if]: what [trimmed] is when the text does not end with a
    closing brace. *)
Definition closeObject (trimmed : string) : Result string :=
  if JS.endsWith trimmed "}" then Ok trimmed
  else
    let lastBrace := JS.lastIndexOf trimmed "}" in
    let trimmed' :=
      if lastBrace >? 0 then
        let beforeLastBrace := JS.prefix trimmed (lastBrace + 1) in
        if evenQuotes beforeLastBrace then beforeLastBrace
        else fixUnterminatedStrings beforeLastBrace
      else balanceBrackets trimmed in
    if JS.endsWith trimmed' "}" then Ok trimmed' else Throw IncompleteJSON.

(** The second [if]: an odd number of quote characters. *)
Definition balanceQuotes (trimmed : string) : Result string :=
  if evenQuotes trimmed then Ok trimmed
  else
    let fixed := fixUnterminatedStrings trimmed in
    if evenQuotes fixed then Ok fixed else Throw UnbalancedQuotes.

(** The final [try]: parse, and on failure repair the strings and parse
    once more. *)
Definition parseWithRetry (trimmed : string) : Result JSON :=
  match parse trimmed with
  | Some v => Ok v
  | None =>
      match parse (fixUnterminatedStrings trimmed) with
      | Some v => Ok v
      | None => Throw InvalidJSON
      end
  end.

Definition parseAndRepairJSON (response : string) : Result JSON :=
  match closeObject (JS.trim response) with
  | Throw e => Throw e
  | Ok trimmed =>
      match balanceQuotes trimmed with
      | Throw e => Throw e
      | Ok trimmed' => parseWithRetry trimmed'
      end
  end.

End Repair.

(* ================================================================== *)
(** ** Property access on parsed values *)

Module Value.
Import Json.

(** [v.key] for a value that is not [null]; [None] is [undefined].  The
    keys the route reads are own properties of objects only. *)
Definition prop (v : JSON) (key : string) : option JSON :=
  match v with
  | JObject ms => lookup key ms
  | _ => None
  end.

(** [v.key]: reading a property of [null] throws. *)
Definition get (v : JSON) (key : string) : Result (option JSON) :=
  match v with
  | JNull => Throw TypeError
  | _ => Ok (prop v key)
  end.

(** [v.key = x] in strict mode (the route is an ES module): refused on
    [null] and on primitives; on an array the write creates a property
    that neither JSON serialisation nor the route reads back. *)
Definition set (v : JSON) (key : string) (x : JSON) : Result JSON :=
  match v with
  | JObject ms => Ok (JObject (assign key x ms))
  | JArray _ => Ok v
  | _ => Throw TypeError
  end.

Definition isNull (v : JSON) : bool :=
  match v with JNull => true | _ => false end.

Definition joinComma (l : list string) : string :=
  match l with
  | [] => ""
  | x :: rest => fold_left (fun acc y => (acc ++ "," ++ y)%string) rest x
  end.

(** The conversion of a value to text: [v.toString()] for a [v] that is
    not [null], and [v] in a template literal.  An object converts by
    the [toString] it finds: a member of that name that it holds itself
    is a parsed value, never a function, and the conversion throws;
    without one the inherited method gives ["[object Object]"].  An array
    joins the texts of its elements, [null] giving the empty text, and
    throws where one of them does. *)
Fixpoint toText (v : JSON) : Result string :=
  match v with
  | JNull => Ok "null"
  | JBool b => Ok (if b then "true" else "false")
  | JNumber m e => Ok (Double.toString (Double.ofDecimal m e))
  | JString s => Ok s
  | JArray l =>
      let texts :=
        (fix join (l : list JSON) : Result (list string) :=
           match l with
           | [] => Ok []
           | x :: rest =>
               match (if isNull x then Ok "" else toText x) with
               | Throw e => Throw e
               | Ok t =>
                   match join rest with
                   | Throw e => Throw e
                   | Ok ts => Ok (t :: ts)
                   end
               end
           end) l in
      match texts with
      | Throw e => Throw e
      | Ok ts => Ok (joinComma ts)
      end
  | JObject ms =>
      match lookup "toString" ms with
      | Some _ => Throw TypeError
      | None => Ok "[object Object]"
      end
  end.

(** A property in a template literal: [undefined] prints as such. *)
Definition textOf (v : option JSON) : Result string :=
  match v with
  | Some x => toText x
  | None => Ok "undefined"
  end.

Definition printable (v : option JSON) : bool :=
  match textOf v with
  | Ok _ => true
  | Throw _ => false
  end.

End Value.

(* ================================================================== *)
(** ** The catalog records *)

Module Catalog.

(** [orig.occupation]: absent, a plain string, or the object with the
    two display locales ([""] for a locale that is missing or empty). *)
Inductive Occupation : Type :=
| OccMissing
| OccText (s : string)
| OccLocales (es en : string).

(** The fields of [Suspect] that the route reads outside its prompts.
    [approx_age] is [None] when it is not a number, and an integer that
    a double holds when it is one. *)
Record Suspect : Type := mkSuspect {
  id : string;
  image_url : string;
  gender : string;
  approx_age : option Z;
  occupation : Occupation
}.

Record Weapon : Type := mkWeapon {
  weapon_image_url : string
}.

End Catalog.

(* ================================================================== *)
(** ** The reconciler: photo matching *)

Module Reconciler.
Import Json Value Catalog.

(** [(gen.role || '').toString().toLowerCase().trim()] *)
Definition genRoleOf (gen : JSON) : Result string :=
  let role :=
    match prop gen "role" with
    | Some v => if truthy v then toText v else Ok ""
    | None => Ok ""
    end in
  match role with
  | Throw e => Throw e
  | Ok text => Ok (JS.trim (JS.toLowerCase text))
  end.

(** [(orig.occupation?.es || orig.occupation || '').toString()...] *)
Definition origOccEsOf (orig : Suspect) : string :=
  let occ :=
    match occupation orig with
    | OccMissing => ""
    | OccText s => s
    | OccLocales es _ => if String.eqb es "" then "[object Object]" else es
    end in
  JS.trim (JS.toLowerCase occ).

(** [(orig.occupation?.en || '').toString()...] *)
Definition origOccEnOf (orig : Suspect) : string :=
  let occ :=
    match occupation orig with
    | OccLocales _ en => en
    | _ => ""
    end in
  JS.trim (JS.toLowerCase occ).

Definition nonEmpty (s : string) : bool := negb (String.eqb s "").

(** [gen.gender && orig.gender && gen.gender === orig.gender] *)
Definition sameGender (gen : JSON) (orig : Suspect) : bool :=
  match prop gen "gender" with
  | Some (JString g) => nonEmpty g && nonEmpty (gender orig) && String.eqb g (gender orig)
  | _ => false
  end.

(** [Math.abs(gen.age - orig.approx_age) <= k], for the age that
    [JSON.parse] read from the decimal [m * 10^e]: the difference of two
    doubles. *)
Definition ageWithin (m e : Z) (age : Z) (k : Z) : bool :=
  Double.atMost (Double.distance (Double.ofDecimal m e) age) k.

(** The body of [scoreMatch] for a [gen] that is not [null]. *)
Definition score (gen : JSON) (orig : Suspect) : Result Z :=
  match genRoleOf gen with
  | Throw e => Throw e
  | Ok genRole =>
      let origOccEs := origOccEsOf orig in
      let origOccEn := origOccEnOf orig in
      let s0 := 0 in
      let s1 :=
        if nonEmpty genRole
           && (String.eqb genRole origOccEs || String.eqb genRole origOccEn)
        then s0 + 5
        else if nonEmpty genRole
                && (JS.includes origOccEs genRole || JS.includes genRole origOccEs)
        then s0 + 3
        else s0 in
      let s2 := if sameGender gen orig then s1 + 2 else s1 in
      Ok match prop gen "age", approx_age orig with
         | Some (JNumber m e), Some age =>
             if ageWithin m e age 1 then s2 + 2
             else if ageWithin m e age 3 then s2 + 1
             else s2
         | _, _ => s2
         end
  end.

Definition scoreMatch (gen : JSON) (orig : Suspect) : Result Z :=
  if isNull gen then Throw TypeError else score gen orig.

(** [usedIds], a [Set<string>]. *)
Definition has (usedIds : list string) (x : string) : bool :=
  existsb (String.eqb x) usedIds.

Definition add (usedIds : list string) (x : string) : list string :=
  if has usedIds x then usedIds else x :: usedIds.

(** The inner [remaining.forEach]: [best] and [bestScore] after it. *)
Fixpoint pickBest (gen : JSON) (usedIds : list string) (remaining : list Suspect)
         (best : option Suspect) (bestScore : Z) : Result (option Suspect) :=
  match remaining with
  | [] => Ok best
  | orig :: rest =>
      if has usedIds (id orig) then pickBest gen usedIds rest best bestScore
      else
        match scoreMatch gen orig with
        | Throw e => Throw e
        | Ok s =>
            if s >? bestScore
            then pickBest gen usedIds rest (Some orig) s
            else pickBest gen usedIds rest best bestScore
        end
  end.

(** One turn of [allPlayers.forEach]: the player with its photo and the
    ids now used.  The line logged before the photo is written prints
    [gen.name]. *)
Definition matchOne (remaining : list Suspect) (gen : JSON) (usedIds : list string)
  : Result (JSON * list string) :=
  match pickBest gen usedIds remaining None (-1) with
  | Throw e => Throw e
  | Ok best0 =>
      let best :=
        match best0 with
        | Some b => Some b
        | None => find (fun o => negb (has usedIds (id o))) remaining
        end in
      match best with
      | None => Ok (gen, usedIds)
      | Some b =>
          let usedIds' := if nonEmpty (id b) then add usedIds (id b) else usedIds in
          if nonEmpty (image_url b) then
            match get gen "name" with
            | Throw e => Throw e
            | Ok name =>
                match textOf name with
                | Throw e => Throw e
                | Ok _ =>
                    match set gen "photo" (JString (image_url b)) with
                    | Throw e => Throw e
                    | Ok gen' => Ok (gen', usedIds')
                    end
                end
            end
          else Ok (gen, usedIds')
      end
  end.

Fixpoint matchAll (remaining : list Suspect) (allPlayers : list JSON)
         (usedIds : list string) : Result (list JSON) :=
  match allPlayers with
  | [] => Ok []
  | gen :: rest =>
      match matchOne remaining gen usedIds with
      | Throw e => Throw e
      | Ok (gen', usedIds') =>
          match matchAll remaining rest usedIds' with
          | Throw e => Throw e
          | Ok rest' => Ok (gen' :: rest')
          end
      end
  end.

(** The matching block of the handler: [remaining] is a copy of
    [selectedSuspects] and [usedIds] starts empty. *)
Definition matchPhotos (allPlayers : list JSON) (selectedSuspects : list Suspect)
  : Result (list JSON) :=
  matchAll selectedSuspects allPlayers [].

End Reconciler.

(* ================================================================== *)
(** ** The route [POST /api/generate-impostor-case] *)

Module Pipeline.
Import Json Value Catalog.

(** *** The request *)

Record CustomScenario : Type := mkCustomScenario {
  place : string;
  themeOrSituation : string
}.

(** One item of [playerNames]: a string, or an object with a name and a
    gender, both strings. *)
Inductive NameItem : Type :=
| PlainName (name : string)
| NamedPlayer (name gender : string).

(** [req.body].  A string field that is absent is the empty string and
    a number that is absent is 0: the route tests these fields for
    truthiness only, so it cannot tell the two apart; [customScenario] is
    [None] when it is absent or falsy.  [suspects] and [clues] are
    integers that a double holds exactly.

    [rawPlayerNames] is [body.playerNames]: its items when it is an
    array, no items when it is absent (the default is the empty array),
    and [None] for any other value, [null] included, which has no [map].
    [rawPlayerGenders] is [body.playerGenders]: its items when it is an
    array; no items when it is absent or a value whose [length] is not
    above 0 (a number, a boolean, the empty string, an object without
    such a length); [None] when it is [null], whose [length] cannot be
    read, or a value of positive length without [map] (a string that is
    not empty). *)
Record Request : Type := mkRequest {
  caseType : string;
  suspects : Z;
  clues : Z;
  scenario : string;
  customScenario : option CustomScenario;
  difficulty : string;
  style : string;
  language : string;
  rawPlayerNames : option (list NameItem);
  rawPlayerGenders : option (list string)
}.

(** The items of [body.playerNames] and of [body.playerGenders]. *)
Definition playerNames (body : Request) : list NameItem :=
  match rawPlayerNames body with
  | Some items => items
  | None => []
  end.

Definition playerGenders (body : Request) : list string :=
  match rawPlayerGenders body with
  | Some items => items
  | None => []
  end.

Definition buildCustomScenarioText (c : CustomScenario) : string :=
  if String.eqb (themeOrSituation c) "" then place c
  else (place c ++ ". " ++ themeOrSituation c)%string.

(** *** The collaborators *)

(** What one chat completion gives: a content, no content, or a
    rejected call. *)
Inductive Completion : Type :=
| Content (s : string)
| NoContent
| CallFails (reason : string).

(** Everything the handler reads from outside during one run.
    [random n] is the numerator over [2^53] of the [n]-th value of
    [Math.random()]; [completion n] is the outcome of the [n]-th chat
    completion. *)
Record World : Type := mkWorld {
  hasApiKey : bool;
  random : nat -> Z;
  suspectsForScene : Result (list Suspect);
  selectedWeapon : Result (option Weapon);
  completion : nat -> Completion
}.

(** What a generation call is told about roles and identifiers. *)
Inductive Stage : Type :=
| Core (discoveredBy : Z)
| Players (batchSize : Z) (batchIndices : list Z) (killer discoveredBy : Z)
| HiddenContext (killer : Z).

Inductive Event : Type :=
| QuerySuspects (count : Z) (scene style : string) (preferredGenders : list string)
| QueryWeapon (scene style : string) (preferSpecific : bool)
| Generate (stage : Stage) (answer : Completion).

(** *** The monad of the handler: state, exceptions and a trace *)

Record State : Type := mkState {
  nextRandom : nat;
  nextCompletion : nat;
  trace : list Event
}.

Definition M (A : Type) : Type := State -> Result A * State.

Definition ret {A} (a : A) : M A := fun st => (Ok a, st).

Definition throw {A} (e : Exception) : M A := fun st => (Throw e, st).

Definition bind {A B} (m : M A) (k : A -> M B) : M B :=
  fun st =>
    match m st with
    | (Ok a, st') => k a st'
    | (Throw e, st') => (Throw e, st')
    end.

Definition lift {A} (r : Result A) : M A := fun st => (r, st).

Declare Scope pipeline_scope.
Delimit Scope pipeline_scope with pipeline.
Notation "x <- m ;; k" := (bind m (fun x => k))
  (at level 61, m at next level, right associativity) : pipeline_scope.
Notation "m ;;; k" := (bind m (fun _ => k))
  (at level 61, right associativity) : pipeline_scope.
#[local] Open Scope pipeline_scope.

Definition emit (ev : Event) : M unit :=
  fun st => (Ok tt, mkState (nextRandom st) (nextCompletion st) (trace st ++ [ev])).

(** *** [Math.random] *)

Definition mathRandom (w : World) : M Z :=
  fun st => (Ok (random w (nextRandom st)),
             mkState (S (nextRandom st)) (nextCompletion st) (trace st)).

(** A positive integer rounded to 53 significant bits, ties to even. *)
Definition round53 (x : Z) : Z :=
  let bits := Z.log2 x + 1 in
  if bits <=? 53 then x
  else
    let sh := bits - 53 in
    let q := Z.shiftr x sh in
    let r := x mod 2 ^ sh in
    let half := 2 ^ (sh - 1) in
    let q' := if (r >? half) || ((r =? half) && Z.odd q) then q + 1 else q in
    Z.shiftl q' sh.

(** [Math.floor(r * n)] for [r = m / 2^53] and an integer [n]: the
    product is rounded as the double multiplication rounds it. *)
Definition floorTimes (m n : Z) : Z :=
  let x := m * n in
  if x =? 0 then 0
  else if 0 <? x then round53 x / 2 ^ 53
  else (- round53 (- x)) / 2 ^ 53.

(** [r < 0.3]: the double nearest to 0.3 is [5404319552844595 / 2^54]. *)
Definition below03 (m : Z) : bool := 2 * m <? 5404319552844595.

(** The role assignment of the handler: [randomKillerIndex] and
    [discoveredByPlayerIndex]. *)
Definition assignRoles (w : World) (suspects : Z) : M (Z * Z) :=
  r1 <- mathRandom w ;;
  let randomKillerIndex := floorTimes r1 suspects + 1 in
  r2 <- mathRandom w ;;
  let discoveredByIsKiller := below03 r2 in
  if discoveredByIsKiller then ret (randomKillerIndex, randomKillerIndex)
  else
    r3 <- mathRandom w ;;
    ret (randomKillerIndex, floorTimes r3 suspects + 1).

(** *** The generation stages *)

Definition getOpenAIClient (w : World) : M unit :=
  if hasApiKey w then ret tt else throw MissingApiKey.

(** [openai.chat.completions.create] followed by the test of the
    content: the call is logged with its outcome. *)
Definition complete (w : World) (stage : Stage) : M string :=
  fun st =>
    let answer := completion w (nextCompletion st) in
    let st' := mkState (nextRandom st) (S (nextCompletion st))
                       (trace st ++ [Generate stage answer]) in
    match answer with
    | CallFails reason => (Throw (Rejected reason), st')
    | NoContent => (Throw NoResponse, st')
    | Content s => if String.eqb s "" then (Throw NoResponse, st') else (Ok s, st')
    end.

(** A prompt that prints the properties [keys] of every player reads
    each of them and converts what it reads to text: a [null] among the
    players throws, and so does a property that does not convert. *)
Definition prints (keys : list string) (p : JSON) : bool :=
  negb (isNull p) && forallb (fun key => printable (prop p key)) keys.

Definition readable (keys : list string) (players : list JSON) : M unit :=
  if forallb (prints keys) players then ret tt else throw TypeError.

Definition generateImpostorCaseCore (w : World) (discoveredByPlayerIndex : Z)
  : M JSON :=
  getOpenAIClient w ;;;
  response <- complete w (Core discoveredByPlayerIndex) ;;
  lift (Repair.parseAndRepairJSON response).

(** [Array.from({ length: n }, (_, i) => batchStart + i + 1)] *)
Definition batchIndicesOf (batchStart batchEnd : Z) : list Z :=
  map (fun i => batchStart + Z.of_nat i + 1) (seq 0 (Z.to_nat (batchEnd - batchStart))).

(** [parsed.players], when it is truthy and an array. *)
Definition playersArray (parsed : JSON) : option (list JSON) :=
  match prop parsed "players" with
  | Some (JArray l) => Some l
  | _ => None
  end.

Definition generatePlayersBatch (w : World) (suspects : Z)
           (randomKillerIndex discoveredByPlayerIndex : Z)
           (existingPlayers : list JSON) (batchStart batchSize : Z)
  : M (list JSON) :=
  getOpenAIClient w ;;;
  let batchEnd := Z.min (batchStart + batchSize) suspects in
  let batchIndices := batchIndicesOf batchStart batchEnd in
  readable ["name"; "role"; "description"] existingPlayers ;;;
  response <- complete w (Players batchSize batchIndices randomKillerIndex
                                  discoveredByPlayerIndex) ;;
  parsed <- lift (Repair.parseAndRepairJSON response) ;;
  match playersArray parsed with
  | None => throw MissingPlayersArray
  | Some players =>
      if negb (Z.of_nat (List.length players) =? batchSize)
      then throw (BatchCountMismatch (Z.of_nat (List.length players)) batchSize)
      else ret players
  end.

Definition generateImpostorHiddenContext (w : World) (randomKillerIndex : Z)
           (allPlayers : list JSON) : M (option JSON) :=
  getOpenAIClient w ;;;
  readable ["name"; "id"; "role"] allPlayers ;;;
  response <- complete w (HiddenContext randomKillerIndex) ;;
  parsed <- lift (Repair.parseAndRepairJSON response) ;;
  lift (get parsed "hiddenContext").

(** *** The handler *)

Definition BATCH_SIZE : Z := 3.

(** The values that [batchStart] takes in
    [for (batchStart = 0; batchStart < suspects; batchStart += BATCH_SIZE)]. *)
Definition batchStarts (suspects : Z) : list Z :=
  map (fun k => BATCH_SIZE * Z.of_nat k)
      (seq 0 (Z.to_nat ((suspects + BATCH_SIZE - 1) / BATCH_SIZE))).

(** The batch loop, [allPlayers] growing by [push(...batch)]. *)
Fixpoint generateAllPlayers (w : World) (suspects : Z)
         (randomKillerIndex discoveredByPlayerIndex : Z)
         (starts : list Z) (allPlayers : list JSON) : M (list JSON) :=
  match starts with
  | [] => ret allPlayers
  | batchStart :: rest =>
      batch <- generatePlayersBatch w suspects randomKillerIndex
                 discoveredByPlayerIndex allPlayers batchStart
                 (Z.min BATCH_SIZE (suspects - batchStart)) ;;
      generateAllPlayers w suspects randomKillerIndex discoveredByPlayerIndex
                         rest (allPlayers ++ batch)
  end.

(** The normalisation of [playerNames]: an object without a name prints
    as an object does. *)
Definition normaliseName (item : NameItem) : string :=
  match item with
  | PlainName name => name
  | NamedPlayer name _ => if String.eqb name "" then "[object Object]" else name
  end.

Definition genderOfItem (item : NameItem) : string :=
  match item with
  | PlainName _ => ""
  | NamedPlayer _ gender => gender
  end.

Definition normaliseGenders (body : Request) : list string :=
  match playerGenders body with
  | [] => filter Reconciler.nonEmpty (map genderOfItem (playerNames body))
  | genders => genders
  end.

(** [field.map(...)] and [field.length] on a field of the body: a
    [TypeError] when the field is not an array. *)
Definition usable {A} (field : option (list A)) : M unit :=
  match field with
  | Some _ => ret tt
  | None => throw TypeError
  end.

(** [allPlayers.forEach((p, i) => { if (playerNames[i]) p.name = playerNames[i] })] *)
Fixpoint applyNames (allPlayers : list JSON) (names : list string)
  : Result (list JSON) :=
  match allPlayers with
  | [] => Ok []
  | p :: rest =>
      let name := hd "" names in
      match (if Reconciler.nonEmpty name then set p "name" (JString name) else Ok p) with
      | Throw e => Throw e
      | Ok p' =>
          match applyNames rest (tl names) with
          | Throw e => Throw e
          | Ok rest' => Ok (p' :: rest')
          end
      end
  end.

Definition playerId (index : Z) : string :=
  ("player-" ++ JS.showInt index)%string.

(** [hiddenContext.killerId = id] followed by
    [{ ...hiddenContext, killerId: id }]: the members of the object in
    the response.  An array spreads into its indices and the property
    just written. *)
Definition stampKillerId (hiddenContext : option JSON) (id : string)
  : Result (list (string * JSON)) :=
  match hiddenContext with
  | Some (JObject ms) => Ok (assign "killerId" (JString id) ms)
  | Some (JArray l) =>
      Ok (combine (map (fun i => JS.showInt (Z.of_nat i)) (seq 0 (List.length l))) l
            ++ [("killerId", JString id)])
  | _ => Throw TypeError
  end.

(** [if (selectedWeapon && caseCore.weapon) caseCore.weapon.photo = ...],
    giving [caseCore.weapon] as the response has it. *)
Definition keepWeaponPhoto (selected : option Weapon) (caseCore : JSON)
  : Result (option JSON) :=
  match get caseCore "weapon" with
  | Throw e => Throw e
  | Ok coreWeapon =>
      match selected, coreWeapon with
      | Some sel, Some cw =>
          if truthy cw then
            match set cw "photo" (JString (weapon_image_url sel)) with
            | Throw e => Throw e
            | Ok cw' => Ok (Some cw')
            end
          else Ok coreWeapon
      | _, _ => Ok coreWeapon
      end
  end.

Record Config : Type := mkConfig {
  configCaseType : string;
  totalClues : Z;
  configScenario : string;
  configCustomScenario : option CustomScenario;
  configDifficulty : string
}.

(** [ImpostorCaseResponse]; [None] is [undefined]. *)
Record CaseDocument : Type := mkCaseDocument {
  caseTitle : option JSON;
  caseDescription : option JSON;
  victim : option JSON;
  players : list JSON;
  weapon : option JSON;
  hiddenContext : list (string * JSON);
  config : Config
}.

Definition configOf (body : Request) : Config :=
  mkConfig (caseType body) (clues body)
           (match customScenario body with
            | Some c => buildCustomScenarioText c
            | None => if String.eqb (scenario body) "" then "aleatorio" else scenario body
            end)
           (customScenario body) (difficulty body).

(** The body of the [try] block after the validation of the request. *)
Definition generateCase (w : World) (body : Request) : M CaseDocument :=
  usable (rawPlayerNames body) ;;;
  let names := map normaliseName (playerNames body) in
  usable (rawPlayerGenders body) ;;;
  let genders := normaliseGenders body in
  let sceneForService :=
    match customScenario body with Some _ => "" | None => scenario body end in
  emit (QuerySuspects (suspects body) sceneForService (style body) genders) ;;;
  selectedSuspects <- lift (suspectsForScene w) ;;
  weapon <- (if String.eqb (caseType body) "asesinato" then
               emit (QueryWeapon sceneForService (style body)
                                 (match customScenario body with Some _ => false | None => true end)) ;;;
               lift (selectedWeapon w)
             else ret None) ;;
  roles <- assignRoles w (suspects body) ;;
  let '(randomKillerIndex, discoveredByPlayerIndex) := roles in
  caseCore <- generateImpostorCaseCore w discoveredByPlayerIndex ;;
  generated <- generateAllPlayers w (suspects body) randomKillerIndex
                 discoveredByPlayerIndex (batchStarts (suspects body)) [] ;;
  (if negb (Z.of_nat (List.length generated) =? suspects body)
   then throw (TotalCountMismatch (Z.of_nat (List.length generated)) (suspects body))
   else ret tt) ;;;
  named <- lift (applyNames generated names) ;;
  allPlayers <- lift (Reconciler.matchPhotos named selectedSuspects) ;;
  hidden <- generateImpostorHiddenContext w randomKillerIndex allPlayers ;;
  hiddenMembers <- lift (stampKillerId hidden (playerId randomKillerIndex)) ;;
  coreWeapon <- lift (keepWeaponPhoto weapon caseCore) ;;
  title <- lift (get caseCore "caseTitle") ;;
  description <- lift (get caseCore "caseDescription") ;;
  vict <- lift (get caseCore "victim") ;;
  ret (mkCaseDocument title description vict allPlayers coreWeapon
                      hiddenMembers (configOf body)).

(** The JSON sent: the error envelope, whose [details] is the message of
    the exception caught, or the document. *)
Inductive Body : Type :=
| ErrorBody (error : string) (details : option Exception)
| CaseBody (doc : CaseDocument).

Record HttpResponse : Type := mkResponse {
  status : Z;
  body : Body
}.

Definition badRequest (error : string) : HttpResponse :=
  mkResponse 400 (ErrorBody error None).

Definition initial : State := mkState 0 0 [].

(** The handler: the response sent and the state of the run, whose
    trace lists the calls made to the collaborators. *)
Definition handler (w : World) (req : Request) : HttpResponse * State :=
  if String.eqb (caseType req) "" || (suspects req =? 0) || (clues req =? 0)
     || String.eqb (difficulty req) ""
  then (badRequest "Missing required fields: caseType, suspects, clues, difficulty", initial)
  else if Reconciler.nonEmpty (scenario req)
          && match customScenario req with Some _ => true | None => false end
  then (badRequest "Cannot provide both scenario and customScenario. Provide only one.", initial)
  else if String.eqb (scenario req) ""
          && match customScenario req with Some _ => false | None => true end
  then (badRequest "Must provide either scenario or customScenario", initial)
  else
    match generateCase w req initial with
    | (Ok doc, st) => (mkResponse 200 (CaseBody doc), st)
    | (Throw e, st) =>
        (mkResponse 500 (ErrorBody "Failed to generate impostor case" (Some e)), st)
    end.

End Pipeline.

(* ================================================================== *)
(** ** The catalog service: [src/services/suspect-service.ts] *)

Module SuspectService.
Import Catalog.

(** [Math.floor(totalCount * 0.3)] for an integer [totalCount > 0] that a
    double holds exactly.  The double nearest to 0.3 is
    [5404319552844595 / 2^54]; the product is rounded to 53 significant
    bits as the double multiplication rounds it. *)
Definition floorThreeTenths (totalCount : Z) : Z :=
  Pipeline.round53 (totalCount * 5404319552844595) / 2 ^ 54.

Definition calculateExtrasCount (totalCount : Z) : Z :=
  if totalCount <=? 3 then 0
  else if totalCount <=? 5 then 1
  else if totalCount <=? 7 then 2
  else floorThreeTenths totalCount.

(** [self.findIndex(f)]: the first index at which [f] holds, or -1. *)
Fixpoint findIndex {A} (f : A -> bool) (self : list A) : Z :=
  match self with
  | [] => -1
  | x :: rest =>
      if f x then 0
      else let i := findIndex f rest in if i <? 0 then -1 else i + 1
  end.

(** [l.filter((x, index) => f(x, index))], [index] being the index of
    the head of [l]. *)
Fixpoint filterFrom {A} (f : A -> Z -> bool) (l : list A) (index : Z) : list A :=
  match l with
  | [] => []
  | x :: rest =>
      if f x index then x :: filterFrom f rest (index + 1)
      else filterFrom f rest (index + 1)
  end.

(** The last step of [getSuspectsForScene]:
    [result.filter((suspect, index, self) =>
       index === self.findIndex((s) => s.id === suspect.id))]. *)
Definition uniqueResult (result : list Suspect) : list Suspect :=
  filterFrom
    (fun suspect index =>
       index =? findIndex (fun s => String.eqb (id s) (id suspect)) result)
    result 0.

End SuspectService.

(* ================================================================== *)
(** ** Vocabulary of the properties *)

Module Spec.
Import Json Value Catalog Pipeline.

(** *** Reading a finished document *)

(** [isKiller == true] *)
Definition isKiller (p : JSON) : bool :=
  match prop p "isKiller" with
  | Some (JBool true) => true
  | _ => false
  end.

Definition idOf (p : JSON) : option JSON := prop p "id".
Definition isKillerOf (p : JSON) : option JSON := prop p "isKiller".
Definition photoOf (p : JSON) : option JSON := prop p "photo".

Definition killerIdOf (doc : CaseDocument) : option JSON :=
  lookup "killerId" (hiddenContext doc).

(** Exactly one player is the killer, and its identifier is
    [hiddenContext.killerId]. *)
Definition singleCulprit (doc : CaseDocument) : Prop :=
  exists p, filter isKiller (players doc) = [p] /\ idOf p = killerIdOf doc.

(** The indices [1 .. n] and the identifiers [player-1 .. player-n]. *)
Definition indices (n : Z) : list Z :=
  map Z.of_nat (seq 1 (Z.to_nat n)).

Definition expectedIds (n : Z) : list (option JSON) :=
  map (fun i => Some (JString (playerId i))) (indices n).

(** The culprit index of a run: the first draw, scaled to the number of
    players. *)
Definition culpritIndex (w : World) (req : Request) : Z :=
  floorTimes (random w 0) (suspects req) + 1.

(** *** Reading the trace of a run *)

(** The players array that an answer of the generation service holds,
    as [generatePlayersBatch] reads it. *)
Definition playersOfAnswer (answer : Completion) : list JSON :=
  match answer with
  | Content s =>
      match Repair.parseAndRepairJSON s with
      | Ok parsed =>
          match playersArray parsed with
          | Some l => l
          | None => []
          end
      | Throw _ => []
      end
  | _ => []
  end.

Definition generatedBy (ev : Event) : list JSON :=
  match ev with
  | Generate (Players _ _ _ _) answer => playersOfAnswer answer
  | _ => []
  end.

(** All the players that the generation service returned, batch after
    batch. *)
Definition generatedPlayers (tr : list Event) : list JSON :=
  flat_map generatedBy tr.

Definition announcedBy (ev : Event) : list Z :=
  match ev with
  | Generate (Players _ batchIndices _ _) _ => batchIndices
  | _ => []
  end.

(** All the player indices that the batch calls listed, in order. *)
Definition announcedIndices (tr : list Event) : list Z :=
  flat_map announcedBy tr.

(** The killer index that a generation call is told, if any. *)
Definition killerTold (ev : Event) : option Z :=
  match ev with
  | Generate (Players _ _ killer _) _ => Some killer
  | Generate (HiddenContext killer) _ => Some killer
  | _ => None
  end.

(** The count mismatch that a batch call runs into, if it does: its
    answer holds a players array whose length is not the size asked. *)
Definition mismatchOf (ev : Event) : option Exception :=
  match ev with
  | Generate (Players batchSize _ _ _) (Content s) =>
      match Repair.parseAndRepairJSON s with
      | Ok parsed =>
          match playersArray parsed with
          | Some l =>
              if Z.of_nat (List.length l) =? batchSize then None
              else Some (BatchCountMismatch (Z.of_nat (List.length l)) batchSize)
          | None => None
          end
      | Throw _ => None
      end
  | _ => None
  end.

(** A computation of the handler keeps the batch discipline when a
    batch call that runs into a count mismatch is the last call it makes
    and the mismatch is what it throws. *)
Definition orderly {A} (r : Result A) (evs : list Event) : Prop :=
  forall p ev e,
    nth_error evs p = Some ev -> mismatchOf ev = Some e ->
    S p = List.length evs /\ r = Throw e.

Definition Disciplined {A} (m : M A) : Prop :=
  forall st r st',
    m st = (r, st') -> exists evs, trace st' = trace st ++ evs /\ orderly r evs.

(** The response of a failed run. *)
Definition failure (e : Exception) : HttpResponse :=
  mkResponse 500 (ErrorBody "Failed to generate impostor case" (Some e)).

(** The players of a response; none when it is an error. *)
Definition playersOfResponse (r : HttpResponse) : list JSON :=
  match body r with
  | CaseBody doc => players doc
  | ErrorBody _ _ => []
  end.

(** *** The quote scan and the parser *)

(** The quote scan of [fixUnterminatedStrings] and the automaton of
    [JSON.parse] agree on whether they are inside a string, as long as the
    text has not failed to parse. *)
Definition agree (sc : Repair.Scan) (p : PState) : Prop :=
  match fst p with
  | MFail => True
  | MString _ _ EscSlash => Repair.inString sc = true /\ Repair.escapeNext sc = true
  | MString _ _ _ => Repair.inString sc = true /\ Repair.escapeNext sc = false
  | _ => Repair.inString sc = false /\ Repair.escapeNext sc = false
  end.

(** *** Doubles that are whole numbers *)

(** The double [d] is the integer [a]. *)
Definition holds (d : Double.Double) (a : Z) : Prop :=
  match d with
  | Double.Finite m e => if 0 <=? e then a = m * 2 ^ e else m = a * 2 ^ (- e)
  | Double.Infinite _ => False
  end.

(** *** The texts that the score compares *)

(** A text lower-cased and trimmed. *)
Definition folded (s : string) : string := JS.trim (JS.toLowerCase s).

(** [role] is the text of [gen.role || '']: the empty text for a role
    that is absent or falsy, and what a truthy role converts to. *)
Definition roleIs (gen : JSON) (role : string) : Prop :=
  match prop gen "role" with
  | Some v => if truthy v then toText v = Ok role else role = ""
  | None => role = ""
  end.

(** The Spanish occupation text of a record: [occupation.es] or, for a
    record without one, the occupation itself as a text. *)
Definition spanishText (orig : Suspect) : string :=
  match occupation orig with
  | OccLocales es _ => if String.eqb es "" then "[object Object]" else es
  | OccText s => s
  | OccMissing => ""
  end.

(** The English occupation text: [occupation.en], when there is one. *)
Definition englishText (orig : Suspect) : string :=
  match occupation orig with
  | OccLocales _ en => en
  | _ => ""
  end.

(** *** The score as the specification words it *)

(** Follows the specification's sentence, with the larger bonus of each
    pair: 10 for an occupation equal in either locale, else 3 for a
    substring either way; 2 for the gender; 2 for ages within a year,
    else 1 for ages within three. *)
Definition claimedScore (gen : JSON) (orig : Suspect) : Z :=
  let role :=
    match prop gen "role" with
    | Some (JString s) => folded s
    | _ => ""
    end in
  let es := folded (spanishText orig) in
  let en := folded (englishText orig) in
  (if String.eqb role "" then 0
   else if String.eqb role es || String.eqb role en then 10
   else if JS.includes es role || JS.includes role es
           || JS.includes en role || JS.includes role en
   then 3 else 0)
  + match prop gen "gender" with
    | Some (JString g) => if String.eqb g (gender orig) then 2 else 0
    | _ => 0
    end
  + match prop gen "age", approx_age orig with
    | Some (JNumber m e), Some age =>
        let diff := Double.distance (Double.ofDecimal m e) age in
        if Double.atMost diff 1 then 2
        else if Double.atMost diff 3 then 1 else 0
    | _, _ => 0
    end.

(** *** The score of the source, bonus by bonus *)

(** For folded texts: 5 for a role that is not empty and equals the
    occupation in either locale, else 3 when it is not empty and it and
    the Spanish occupation contain one another. *)
Definition roleBonus (role es en : string) : Z :=
  if String.eqb role "" then 0
  else if String.eqb role es || String.eqb role en then 5
  else if JS.includes es role || JS.includes role es then 3
  else 0.

(** 2 for a gender that is a string, not empty, and the record's. *)
Definition genderBonus (gender : option JSON) (recorded : string) : Z :=
  match gender with
  | Some (JString g) =>
      if negb (String.eqb g "") && String.eqb g recorded then 2 else 0
  | _ => 0
  end.

(** When both ages are numbers: 2 when their difference, as the doubles
    give it, is at most 1, else 1 when it is at most 3. *)
Definition ageBonus (age : option JSON) (recorded : option Z) : Z :=
  match age, recorded with
  | Some (JNumber m e), Some years =>
      let diff := Double.distance (Double.ofDecimal m e) years in
      if Double.atMost diff 1 then 2
      else if Double.atMost diff 3 then 1 else 0
  | _, _ => 0
  end.

(** A player whose role and name the matching can print: an object
    on which both properties, when it has them, convert to text. *)
Definition legible (p : JSON) : Prop :=
  exists ms,
    p = JObject ms
    /\ printable (lookup "role" ms) = true
    /\ printable (lookup "name" ms) = true.

(** *** The shape of a successful run *)

(** [count] consecutive indices from [a]. *)
Definition indicesFrom (a : Z) (count : nat) : list Z :=
  map (fun i => a + Z.of_nat i) (seq 0 count).


(** The indices that the batch starting at [batchStart] lists. *)
Definition listed (n : Z) (batchStart : Z) : list Z :=
  batchIndicesOf batchStart
    (Z.min (batchStart + Z.min BATCH_SIZE (n - batchStart)) n).

(** What a successful run consists of: the catalog answered, the trace
    is made of the calls before the batches, the batch calls and the
    hidden-context call, and the players of the document are the
    generated ones once named and matched. *)
Definition Successful (w : World) (req : Request) (doc : CaseDocument)
           (st : State) : Prop :=
  exists (selected : list Suspect) (named : list JSON)
         (before batches : list Event) (hiddenAnswer : Completion),
    suspectsForScene w = Ok selected
    /\ trace st = before ++ batches
                    ++ [Generate (HiddenContext (culpritIndex w req)) hiddenAnswer]
    /\ generatedPlayers before = []
    /\ announcedIndices before = []
    /\ Forall (fun ev => killerTold ev = None) before
    /\ announcedIndices batches = indices (suspects req)
    /\ Forall (fun ev => killerTold ev = Some (culpritIndex w req)) batches
    /\ Z.of_nat (List.length (generatedPlayers batches)) = suspects req
    /\ applyNames (generatedPlayers batches) (map normaliseName (playerNames req))
       = Ok named
    /\ Reconciler.matchPhotos named selected = Ok (players doc)
    /\ lookup "killerId" (hiddenContext doc)
       = Some (JString (playerId (culpritIndex w req))).

(** *** Relating two players that differ by their name only *)

Definition sameButName (p q : JSON) : Prop :=
  match p, q with
  | JObject ms, JObject ms' =>
      forall key, key <> "name" -> lookup key ms = lookup key ms'
  | _, _ => p = q
  end.

End Spec.

(* ================================================================== *)
(** ** Concrete runs *)

Module Scenario.
Import Json Catalog Pipeline.

Definition chef : Suspect :=
  mkSuspect "s-1" "https://img/chef.png" "male" (Some 40) (OccLocales "Chef" "Cook").

Definition doctor : Suspect :=
  mkSuspect "s-2" "https://img/doctor.png" "female" (Some 30)
            (OccLocales "Doctora" "Doctor").

(** Two players asked for in a mansion. *)
Definition twoPlayers : Request :=
  mkRequest "robo" 2 3 "mansion" None "facil" "" "" (Some []) (Some []).

(** Both a scenario and a custom scenario. *)
Definition bothScenarios : Request :=
  mkRequest "robo" 2 3 "mansion" (Some (mkCustomScenario "jet privado" ""))
            "facil" "" "" (Some []) (Some []).

(** A scenario that is the empty string, and a custom scenario. *)
Definition emptyScenario : Request :=
  mkRequest "robo" 2 3 "" (Some (mkCustomScenario "jet privado" ""))
            "facil" "" "" (Some []) (Some []).

Definition coreAnswer : string :=
  JS.dq "{'caseTitle':'T','caseDescription':'D','victim':{'name':'V'}}".

Definition hiddenAnswer : string :=
  JS.dq "{'hiddenContext':{'killerId':'player-9','killerReason':'r'}}".

(** A generation service that ignores the identifiers it is given and
    marks nobody as the killer. *)
Definition driftingAnswer : string :=
  JS.dq "{'players':[{'id':'player-7','isKiller':false,'role':'doctor'},{'id':'player-7','isKiller':false}]}".

Definition answers (core batch hidden : string) (n : nat) : Completion :=
  match n with
  | 0%nat => Content core
  | 1%nat => Content batch
  | _ => Content hidden
  end.

Definition driftingWorld : World :=
  mkWorld true (fun _ => 0) (Ok [chef; doctor]) (Ok None)
          (answers coreAnswer driftingAnswer hiddenAnswer).

(** The same players and catalog in a run whose draws and whose other
    answers differ. *)
Definition otherWorld : World :=
  mkWorld true (fun _ => 2 ^ 52) (Ok [chef; doctor]) (Ok None)
          (answers (JS.dq "{'caseTitle':'Other'}") driftingAnswer
                   (JS.dq "{'hiddenContext':{}}")).

(** A batch of two is asked for and one player comes back. *)
Definition shortAnswer : string :=
  JS.dq "{'players':[{'id':'player-1','isKiller':true}]}".

Definition shortWorld : World :=
  mkWorld true (fun _ => 0) (Ok [chef; doctor]) (Ok None)
          (answers coreAnswer shortAnswer hiddenAnswer).

(** The object truncated inside a string value, and the array left
    open. *)
Definition truncatedString : string := JS.dq "{'a':'b','c':'d".
Definition unbalanced : string := JS.dq "{'a':[1,2,3".

(** A source of randomness that gives 0, then 0.5, then 0. *)
Definition draws (n : nat) : Z :=
  match n with
  | 1%nat => 2 ^ 52
  | _ => 0
  end.

Definition drawsWorld : World :=
  mkWorld true draws (Ok []) (Ok None) (fun _ => NoContent).

(** A player whose role is the Spanish occupation of [chef], and
    nothing else. *)
Definition cook : JSON := JObject [("role", JString "chef")].

End Scenario.

(* ================================================================== *)
(** ** Vocabulary of the protocol between the handler and its collaborators *)

Module Protocol.
Import Json Value Catalog Pipeline Spec.

#[local] Open Scope pipeline_scope.

(** *** The order of the calls *)

(** The place of a call in the pipeline: the suspects of the catalog,
    the weapon, the core, the batches of players, the hidden context. *)
Definition phase (ev : Event) : Z :=
  match ev with
  | QuerySuspects _ _ _ _ => 0
  | QueryWeapon _ _ _ => 1
  | Generate (Core _) _ => 2
  | Generate (Players _ _ _ _) _ => 3
  | Generate (HiddenContext _) _ => 4
  end.

(** [a] may come before [b] in a trace: [b] belongs to a later phase,
    or both are batch calls. *)
Definition before (a b : Event) : Prop :=
  phase a < phase b \/ (phase a = 3 /\ phase b = 3).

(** *** What makes a generation call fail *)

(** The exception that the stage throws on the answer of its call, if
    it throws one: the call is rejected, the content is missing or empty,
    the engine cannot repair it, or the value parsed has not the shape
    that the stage reads. *)
Definition faultOf (ev : Event) : option Exception :=
  match ev with
  | Generate stage answer =>
      match answer with
      | CallFails reason => Some (Rejected reason)
      | NoContent => Some NoResponse
      | Content s =>
          if String.eqb s "" then Some NoResponse
          else
            match Repair.parseAndRepairJSON s with
            | Throw e => Some e
            | Ok parsed =>
                match stage with
                | Core _ => None
                | Players batchSize _ _ _ =>
                    match playersArray parsed with
                    | None => Some MissingPlayersArray
                    | Some l =>
                        if Z.of_nat (List.length l) =? batchSize then None
                        else Some (BatchCountMismatch (Z.of_nat (List.length l)) batchSize)
                    end
                | HiddenContext _ =>
                    match get parsed "hiddenContext" with
                    | Throw e => Some e
                    | Ok _ => None
                    end
                end
            end
      end
  | _ => None
  end.

(** A computation halts on faults when a call whose answer is a fault
    is the last call it makes and the fault is what it throws. *)
Definition terminal {A} (r : Result A) (evs : list Event) : Prop :=
  forall p ev e,
    nth_error evs p = Some ev -> faultOf ev = Some e ->
    S p = List.length evs /\ r = Throw e.

Definition Halting {A} (m : M A) : Prop :=
  forall st r st',
    m st = (r, st') -> exists evs, trace st' = trace st ++ evs /\ terminal r evs.

(** A computation that calls no collaborator. *)
Definition Quiet {A} (m : M A) : Prop :=
  forall st, trace (snd (m st)) = trace st.

(** A computation keeps to the phases [lo .. hi] when the calls it adds
    to the trace belong to them and come in order. *)
Definition Ordered {A} (lo hi : Z) (m : M A) : Prop :=
  forall st r st',
    m st = (r, st') ->
    exists evs,
      trace st' = trace st ++ evs
      /\ StronglySorted before evs
      /\ Forall (fun ev => lo <= phase ev <= hi) evs.

(** Every call that a computation adds to the trace satisfies [P]. *)
Definition Emits {A} (P : Event -> Prop) (m : M A) : Prop :=
  forall st r st',
    m st = (r, st') -> exists evs, trace st' = trace st ++ evs /\ Forall P evs.

(** *** What the calls are told *)

(** The index of the player who found the body: the culprit when the
    second draw is below 0.3, the third draw scaled otherwise. *)
Definition discovererIndex (w : World) (req : Request) : Z :=
  if below03 (random w 1) then culpritIndex w req
  else floorTimes (random w 2) (suspects req) + 1.

(** The role indices that a generation call is told are those drawn. *)
Definition rolesTold (w : World) (req : Request) (ev : Event) : Prop :=
  match ev with
  | Generate (Core discoveredBy) _ => discoveredBy = discovererIndex w req
  | Generate (Players _ _ killer discoveredBy) _ =>
      killer = culpritIndex w req /\ discoveredBy = discovererIndex w req
  | Generate (HiddenContext killer) _ => killer = culpritIndex w req
  | _ => True
  end.

(** A batch call asks for one to three players and lists as many
    indices, all of them indices of players of the case. *)
Definition batchShape (req : Request) (ev : Event) : Prop :=
  match ev with
  | Generate (Players batchSize batchIndices _ _) _ =>
      1 <= batchSize <= BATCH_SIZE
      /\ Z.of_nat (List.length batchIndices) = batchSize
      /\ Forall (fun i => 1 <= i <= suspects req) batchIndices
  | _ => True
  end.

(** The catalog queries follow the request: the weapon is asked for in
    a murder case only, and a custom scenario asks both catalogs for no
    scene and for no scene-specific weapon. *)
Definition catalogAsked (req : Request) (ev : Event) : Prop :=
  match ev with
  | QuerySuspects count scene style' genders =>
      count = suspects req /\ style' = style req /\ genders = normaliseGenders req
      /\ scene = match customScenario req with Some _ => "" | None => scenario req end
  | QueryWeapon scene style' preferSpecific =>
      caseType req = "asesinato" /\ style' = style req
      /\ scene = match customScenario req with Some _ => "" | None => scenario req end
      /\ preferSpecific = match customScenario req with Some _ => false | None => true end
  | Generate _ _ => True
  end.

(** What a run tells its calls. *)
Definition informed (w : World) (req : Request) (ev : Event) : Prop :=
  rolesTold w req ev /\ batchShape req ev /\ catalogAsked req ev.

(** *** The stages after the role assignment *)

(** What [generateCase] does once the catalogs have answered and the
    roles are drawn. *)
Definition stages (w : World) (body : Request) (selectedSuspects : list Suspect)
           (weapon : option Weapon) (randomKillerIndex discoveredByPlayerIndex : Z)
  : M CaseDocument :=
  let names := map normaliseName (playerNames body) in
  caseCore <- generateImpostorCaseCore w discoveredByPlayerIndex ;;
  generated <- generateAllPlayers w (suspects body) randomKillerIndex
                 discoveredByPlayerIndex (batchStarts (suspects body)) [] ;;
  (if negb (Z.of_nat (List.length generated) =? suspects body)
   then throw (TotalCountMismatch (Z.of_nat (List.length generated)) (suspects body))
   else ret tt) ;;;
  named <- lift (applyNames generated names) ;;
  allPlayers <- lift (Reconciler.matchPhotos named selectedSuspects) ;;
  hidden <- generateImpostorHiddenContext w randomKillerIndex allPlayers ;;
  hiddenMembers <- lift (stampKillerId hidden (playerId randomKillerIndex)) ;;
  coreWeapon <- lift (keepWeaponPhoto weapon caseCore) ;;
  title <- lift (get caseCore "caseTitle") ;;
  description <- lift (get caseCore "caseDescription") ;;
  vict <- lift (get caseCore "victim") ;;
  ret (mkCaseDocument title description vict allPlayers coreWeapon
                      hiddenMembers (configOf body)).

(** The catalog queries that come before the stages. *)
Definition queries (req : Request) : list Event :=
  let scene := match customScenario req with Some _ => "" | None => scenario req end in
  QuerySuspects (suspects req) scene (style req) (normaliseGenders req)
  :: (if String.eqb (caseType req) "asesinato"
      then [QueryWeapon scene (style req)
                        (match customScenario req with Some _ => false | None => true end)]
      else []).

End Protocol.

(* ================================================================== *)
(** ** More concrete runs *)

Module Cases.
Import Json Catalog Pipeline Scenario.

(** A generation service that answers in prose. *)
Definition refusingWorld : World :=
  mkWorld true (fun _ => 0) (Ok [chef; doctor]) (Ok None)
          (fun _ => Content "Lo siento, no puedo ayudar con eso.").

(** No API key in the environment. *)
Definition keylessWorld : World :=
  mkWorld false (fun _ => 0) (Ok [chef; doctor]) (Ok None)
          (answers coreAnswer driftingAnswer hiddenAnswer).

(** A murder case for two players whose names are given. *)
Definition murder : Request :=
  mkRequest "asesinato" 2 3 "mansion" None "facil" "" ""
            (Some [PlainName "Ana"; NamedPlayer "Luis" "male"]) (Some []).

Definition knife : Weapon := mkWeapon "https://img/knife.png".

Definition murderCore : string :=
  JS.dq "{'caseTitle':'T','weapon':{'name':'Cuchillo','photo':'made-up.png'}}".

Definition murderPlayers : string :=
  JS.dq "{'players':[{'id':'player-1','name':'X','role':'chef'},{'id':'player-2','name':'Y'}]}".

Definition murderWorld : World :=
  mkWorld true (fun _ => 0) (Ok [chef; doctor]) (Ok (Some knife))
          (answers murderCore murderPlayers hiddenAnswer).

(** A generation service whose first player has a role that does not
    convert to text. *)
Definition illegiblePlayers : string :=
  JS.dq "{'players':[{'id':'player-1','role':{'toString':1}},{'id':'player-2'}]}".

Definition illegibleWorld : World :=
  mkWorld true (fun _ => 0) (Ok [chef; doctor]) (Ok None)
          (answers coreAnswer illegiblePlayers hiddenAnswer).

End Cases.

(* ================================================================== *)
(** ** [JSON.parse] and [trim] *)

Module JsonFacts.
Import Json.

(** The seven code units below 256 that [trim] removes. *)
Lemma isWhiteSpace_cases (c : ascii) :
  JS.isWhiteSpace c = true ->
  c = "009"%char \/ c = "010"%char \/ c = "011"%char \/ c = "012"%char
  \/ c = "013"%char \/ c = " "%char \/ c = "160"%char.
Proof.
  destruct c as [[] [] [] [] [] [] [] []]; vm_compute; intros H;
    try discriminate H; auto 8.
Qed.

Lemma isJsonWs_isWhiteSpace (c : ascii) :
  isJsonWs c = true -> JS.isWhiteSpace c = true.
Proof.
  destruct c as [[] [] [] [] [] [] [] []]; vm_compute; intros H;
    try discriminate H; reflexivity.
Qed.

Lemma run_app (st : PState) (a b : list ascii) :
  run st (a ++ b) = run (run st a) b.
Proof. apply fold_left_app. Qed.

Lemma run_cons (st : PState) (c : ascii) (l : list ascii) :
  run st (c :: l) = run (step st c) l.
Proof. reflexivity. Qed.

(** Failure is absorbing. *)
Lemma run_failed (stk : list Frame) (l : list ascii) :
  run (MFail, stk) l = (MFail, stk).
Proof. induction l as [|c l IH]; [reflexivity | exact IH]. Qed.

Lemma finish_run_failed (stk : list Frame) (l : list ascii) :
  finish (run (MFail, stk) l) = None.
Proof. rewrite run_failed. reflexivity. Qed.

(** A number lexeme stands for a number. *)
Lemma numberOfLexeme_number (l : list ascii) (v : JSON) :
  numberOfLexeme l = Some v -> exists m e, v = JNumber m e.
Proof.
  unfold numberOfLexeme.
  destruct (readSign l) as [neg l1].
  destruct (readInt l1) as [[int l2]|]; [|discriminate].
  destruct (readFrac int l2) as [[[m nfrac] l3]|]; [|discriminate].
  destruct (readExp l3) as [[e [|x r]]|]; try discriminate.
  intros H. injection H as <-. eauto.
Qed.

(** A white-space code unit after a complete text leaves it complete,
    with the same value; after anything else it completes nothing. *)
Lemma finish_step_whitespace (st : PState) (c : ascii) (v : JSON) :
  JS.isWhiteSpace c = true ->
  finish (step st c) = Some v -> finish st = Some v.
Proof.
  intros Hws.
  destruct st as [m stk].
  destruct (isWhiteSpace_cases c Hws) as [->|[->|[->|[->|[->|[->| ->]]]]]];
    destruct m as [| | | | |v0|isKey acc e|acc|which pos|];
    cbn [step]; try (cbn; intros H; exact H || discriminate H).
  all: try (destruct stk as [|[el|ms k] stk']; cbn; intros H; exact H || discriminate H).
  all: try (destruct e as [| |ds]; cbn;
            try (destruct ds as [|d1 [|d2 [|d3 [|d4 ds]]]]; cbn);
            intros H; discriminate H).
  all: try (change (isNumberChar _) with false; cbv iota;
            destruct (numberOfLexeme (rev acc)) as [v1|] eqn:E;
            [|cbn; intros H; discriminate H];
            destruct stk as [|[el|ms k] stk']; cbn;
            intros H; solve [exact H | discriminate H | congruence]).
  all: destruct which; do 6 (try destruct pos as [|pos]); cbn;
       intros H; discriminate H.
Qed.

(** White space that ends a text can be dropped. *)
Lemma finish_trimEnd (st : PState) (l : list ascii) (v : JSON) :
  finish (run st l) = Some v ->
  finish (run st (JS.trimEndChars l)) = Some v.
Proof.
  unfold JS.trimEndChars.
  induction l as [|c l IH] using rev_ind; [intros H; exact H|].
  rewrite rev_app_distr. cbn [rev app JS.trimStartChars].
  destruct (JS.isWhiteSpace c) eqn:Hws.
  - rewrite run_app. cbn [run fold_left].
    intros H. apply IH. eapply finish_step_whitespace; eassumption.
  - change (c :: rev l) with ([c] ++ rev l).
    rewrite rev_app_distr, rev_involutive. cbn [rev app]. intros H; exact H.
Qed.

(** White space that starts a text can be dropped. *)
Lemma finish_trimStart (l : list ascii) (v : JSON) :
  finish (run (MValue, []) l) = Some v ->
  finish (run (MValue, []) (JS.trimStartChars l)) = Some v.
Proof.
  induction l as [|c l IH]; [intros H; exact H|].
  cbn [JS.trimStartChars].
  destruct (JS.isWhiteSpace c) eqn:Hws; [|intros H; exact H].
  intros H. apply IH. revert H.
  rewrite run_cons.
  destruct (isWhiteSpace_cases c Hws) as [->|[->|[->|[->|[->|[->| ->]]]]]];
    match goal with
    | |- context [step ?st ?x] =>
        let y := eval vm_compute in (step st x) in change (step st x) with y
    end;
    try (intros H; exact H);
    unfold failed; rewrite finish_run_failed; intros H; discriminate H.
Qed.

Lemma chars_text (l : list ascii) : JS.chars (JS.text l) = l.
Proof. apply list_ascii_of_string_of_list_ascii. Qed.

Lemma text_chars (s : string) : JS.text (JS.chars s) = s.
Proof. apply string_of_list_ascii_of_string. Qed.

(** [JSON.parse] ignores what [trim] removes: a valid text stays
    valid, with the same value, once trimmed. *)
Lemma parse_trim (s : string) (v : JSON) :
  parse s = Some v -> parse (JS.trim s) = Some v.
Proof.
  unfold parse, JS.trim. rewrite chars_text. intros H.
  apply finish_trimEnd, finish_trimStart, H.
Qed.

(** *** A text that denotes an object ends with a closing brace *)

Lemma not_whitespace_not_jsonWs (c : ascii) :
  JS.isWhiteSpace c = false -> isJsonWs c = false.
Proof.
  intros H. destruct (isJsonWs c) eqn:E; [|reflexivity].
  apply isJsonWs_isWhiteSpace in E. congruence.
Qed.

Lemma closeValue_object (v : JSON) (stk : list Frame) (c : ascii)
      (ms : list (string * JSON)) :
  finish (closeValue v stk c) = Some (JObject ms) -> c = "}"%char.
Proof.
  unfold closeValue, failed.
  destruct stk as [|[el|done k] stk']; cbn; [discriminate| |].
  - destruct (Ascii.eqb c ","); [cbn; discriminate|].
    destruct (Ascii.eqb c "]"); cbn; [|discriminate].
    destruct stk'; cbn; discriminate.
  - destruct (Ascii.eqb c ","); [cbn; discriminate|].
    destruct (Ascii.eqb_spec c "}"); [intros _; assumption|cbn; discriminate].
Qed.

Lemma afterValue_object (v : JSON) (stk : list Frame) (c : ascii)
      (ms : list (string * JSON)) :
  isJsonWs c = false ->
  finish (afterValue v stk c) = Some (JObject ms) -> c = "}"%char.
Proof.
  unfold afterValue. intros ->. apply closeValue_object.
Qed.

Lemma finish_number_not_object (acc : list ascii) (stk : list Frame)
      (ms : list (string * JSON)) :
  finish (MNumber acc, stk) <> Some (JObject ms).
Proof.
  destruct stk; cbn; [|discriminate].
  intros H. apply numberOfLexeme_number in H as (m & e & H). discriminate H.
Qed.

Lemma startValue_not_object (c : ascii) (stk : list Frame)
      (ms : list (string * JSON)) :
  finish (startValue c stk) <> Some (JObject ms).
Proof.
  unfold startValue, failed.
  repeat match goal with
    | |- context [if ?b then _ else _] => destruct b
    end; try (cbn; discriminate).
  apply finish_number_not_object.
Qed.

Lemma stringStep_not_object (isKey : bool) (acc : list ascii) (e : Escape)
      (stk : list Frame) (c : ascii) (ms : list (string * JSON)) :
  finish (stringStep isKey acc e stk c) <> Some (JObject ms).
Proof.
  unfold stringStep, endString, failed.
  destruct e as [| |ds].
  - destruct (Ascii.eqb c JS.DQUOTE).
    + destruct isKey; [destruct stk as [|[|] ?]|destruct stk]; cbn; discriminate.
    + destruct (Ascii.eqb c "\"); [cbn; discriminate|].
      destruct (N_of_ascii c <? 32)%N; cbn; discriminate.
  - destruct (Ascii.eqb c "u"); [cbn; discriminate|].
    destruct (simpleEscape c); cbn; discriminate.
  - destruct (hexVal c); [|cbn; discriminate].
    destruct ds as [|d1 [|d2 [|d3 [|d4 ds]]]]; try (cbn; discriminate).
    match goal with |- context [if ?b then _ else _] => destruct b end;
      cbn; discriminate.
Qed.

(** The code unit that completes an object is its closing brace. *)
Lemma finish_step_object (st : PState) (c : ascii) (ms : list (string * JSON)) :
  JS.isWhiteSpace c = false ->
  finish (step st c) = Some (JObject ms) -> c = "}"%char.
Proof.
  intros Hws. apply not_whitespace_not_jsonWs in Hws.
  destruct st as [m stk].
  destruct m as [| | | | |v0|isKey acc e|acc|which pos|]; cbn [step]; rewrite ?Hws.
  - intros H; elim (startValue_not_object _ _ _ H).
  - destruct (Ascii.eqb c "]").
    + destruct stk as [|[|] [|]]; cbn; discriminate.
    + intros H; elim (startValue_not_object _ _ _ H).
  - destruct (Ascii.eqb_spec c "}"); [intros _; assumption|].
    destruct (Ascii.eqb c JS.DQUOTE); cbn; discriminate.
  - destruct (Ascii.eqb c JS.DQUOTE); cbn; discriminate.
  - destruct (Ascii.eqb c ":"); cbn; discriminate.
  - apply afterValue_object, Hws.
  - intros H; elim (stringStep_not_object _ _ _ _ _ _ H).
  - destruct (isNumberChar c).
    + intros H; elim (finish_number_not_object _ _ _ H).
    + destruct (numberOfLexeme (rev acc)); [|cbn; discriminate].
      apply afterValue_object, Hws.
  - destruct (nth_error (literalText which) pos); [|cbn; discriminate].
    destruct (Ascii.eqb c a); [|cbn; discriminate].
    destruct (S pos =? Datatypes.length (literalText which))%nat.
    + destruct which, stk; cbn; discriminate.
    + cbn; discriminate.
  - cbn; discriminate.
Qed.

Lemma trimStart_head (l : list ascii) (c : ascii) (rest : list ascii) :
  JS.trimStartChars l = c :: rest -> JS.isWhiteSpace c = false.
Proof.
  induction l as [|x l IH]; cbn; [discriminate|].
  destruct (JS.isWhiteSpace x) eqn:E; [exact IH|].
  intros H. injection H as <- _. exact E.
Qed.

Lemma trimEnd_last (l front : list ascii) (c : ascii) :
  JS.trimEndChars l = front ++ [c] -> JS.isWhiteSpace c = false.
Proof.
  unfold JS.trimEndChars. intros H.
  apply (f_equal (@rev ascii)) in H.
  rewrite rev_involutive, rev_app_distr in H. cbn in H.
  eapply trimStart_head, H.
Qed.

Lemma parse_object_endsWith (s : string) (ms : list (string * JSON)) :
  parse s = Some (JObject ms) -> JS.endsWith (JS.trim s) "}" = true.
Proof.
  intros H. apply parse_trim in H. revert H.
  unfold parse, JS.endsWith, JS.trim. rewrite chars_text.
  destruct (JS.trimEndChars (JS.trimStartChars (JS.chars s)))
    as [|c front] eqn:E using rev_ind; [cbn; discriminate|].
  clear IHfront. rewrite run_app, rev_app_distr. cbn [run fold_left rev app].
  intros H. apply finish_step_object in H.
  - subst c. reflexivity.
  - eapply trimEnd_last, E.
Qed.

(** *** [trim] removes no quote character *)

Lemma countChar_app (a b : list ascii) (c : ascii) :
  JS.countChar (JS.text (a ++ b)) c
  = JS.countChar (JS.text a) c + JS.countChar (JS.text b) c.
Proof.
  induction a as [|x a IH]; cbn; [reflexivity|].
  fold (JS.text (a ++ b)) (JS.text a). rewrite IH. lia.
Qed.

Lemma countChar_rev (l : list ascii) (c : ascii) :
  JS.countChar (JS.text (rev l)) c = JS.countChar (JS.text l) c.
Proof.
  induction l as [|x l IH]; [reflexivity|].
  cbn [rev]. rewrite countChar_app, IH. cbn.
  fold (JS.text l). lia.
Qed.

Lemma countChar_trimStart (l : list ascii) :
  JS.countChar (JS.text (JS.trimStartChars l)) JS.DQUOTE
  = JS.countChar (JS.text l) JS.DQUOTE.
Proof.
  induction l as [|x l IH]; [reflexivity|].
  cbn [JS.trimStartChars].
  destruct (JS.isWhiteSpace x) eqn:E; [|reflexivity].
  rewrite IH. cbn. fold (JS.text l).
  destruct (isWhiteSpace_cases x E) as [->|[->|[->|[->|[->|[->| ->]]]]]];
    reflexivity.
Qed.

Lemma countChar_trim (s : string) :
  JS.countChar (JS.trim s) JS.DQUOTE = JS.countChar s JS.DQUOTE.
Proof.
  unfold JS.trim, JS.trimEndChars.
  rewrite countChar_rev, countChar_trimStart, countChar_rev, countChar_trimStart.
  rewrite text_chars. reflexivity.
Qed.

End JsonFacts.

(* ================================================================== *)
(** ** The quote scan on a text that parses *)

Module ScanFacts.
Import Json Repair Spec.

Ltac branches :=
  repeat (cbn;
          match goal with
          | |- context [if ?b then _ else _] => destruct b
          | |- context [match ?x with _ => _ end] => is_var x; destruct x
          | |- context [simpleEscape ?x] => destruct (simpleEscape x)
          | |- context [hexVal ?x] => destruct (hexVal x)
          | |- context [numberOfLexeme ?x] => destruct (numberOfLexeme x)
          end).

Lemma literal_not_special (which : Literal) (pos : nat) (x : ascii) :
  nth_error (literalText which) pos = Some x ->
  Ascii.eqb JS.BACKSLASH x = false /\ Ascii.eqb JS.DQUOTE x = false.
Proof.
  destruct which; do 6 (try destruct pos as [|pos]); cbn; intros H;
    try discriminate H; injection H as <-; split; reflexivity.
Qed.

Lemma agree_step (sc : Scan) (p : PState) (i : Z) (c : ascii) :
  agree sc p -> agree (scanStep sc i c) (step p c).
Proof.
  destruct p as [m stk]. unfold agree at 1. cbn [fst].
  assert (Hlit : forall which pos,
             match nth_error (literalText which) pos with
             | Some x => Ascii.eqb "\" x = false /\ Ascii.eqb JS.DQUOTE x = false
             | None => True
             end).
  { intros which pos. destruct (nth_error (literalText which) pos) eqn:E; [|exact I].
    exact (literal_not_special _ _ _ E). }
  destruct m as [| | | | |v0|isKey acc e|acc|which pos|];
    try (intros [Hin Hesc]; unfold scanStep; rewrite Hin, Hesc);
    try (destruct e as [| |ds]; intros [Hin Hesc]; unfold scanStep; rewrite Hin, Hesc);
    try (intros _; cbn; exact I);
    cbn [step]; unfold startValue, afterValue, closeValue, stringStep, endString, failed;
    try (specialize (Hlit which pos);
         destruct (nth_error (literalText which) pos) as [x|]; [|cbn; exact I];
         destruct Hlit as [Hx1 Hx2]);
    unfold JS.BACKSLASH, JS.DQUOTE in *;
    (destruct (Ascii.eqb_spec c "\") as [->|Hb];
     [|destruct (Ascii.eqb_spec c "034") as [->|Hq]]);
    rewrite ?Hx1, ?Hx2;
    unfold agree; branches; cbn; auto.
Qed.

Lemma agree_run (s : string) :
  forall (i : Z) (sc : Scan) (p : PState),
    agree sc p -> agree (scanFrom s i sc) (run p (JS.chars s)).
Proof.
  induction s as [|c s IH]; intros i sc p H; [exact H|].
  cbn [scanFrom JS.chars list_ascii_of_string].
  rewrite JsonFacts.run_cons. apply IH, agree_step, H.
Qed.

(** On a text that parses, the repair of strings changes nothing. *)
Lemma fixUnterminatedStrings_valid (t : string) (v : JSON) :
  parse t = Some v -> fixUnterminatedStrings t = t.
Proof.
  unfold parse. intros H.
  pose proof (agree_run t 0 scanInit (MValue, []) (conj eq_refl eq_refl)) as Ha.
  unfold fixUnterminatedStrings.
  destruct (run (MValue, []) (JS.chars t)) as [m stk].
  unfold agree in Ha. cbn [fst] in Ha.
  destruct m; try discriminate H; destruct Ha as [-> _]; reflexivity.
Qed.

End ScanFacts.

(* ================================================================== *)
(** ** The bracket-balance branch *)

Module BalanceFacts.
Import Json Repair.

Lemma countChar_nonneg (s : string) (c : ascii) : 0 <= JS.countChar s c.
Proof.
  induction s as [|x s IH]; cbn; [lia|].
  destruct (Ascii.eqb x c); lia.
Qed.

Lemma countChar_append (a b : string) (c : ascii) :
  JS.countChar (a ++ b)%string c = JS.countChar a c + JS.countChar b c.
Proof.
  induction a as [|x a IH]; cbn; [reflexivity|]. rewrite IH. lia.
Qed.

Lemma countChar_absent_chars (s : string) (c : ascii) :
  JS.countChar s c = 0 -> Forall (fun x => Ascii.eqb x c = false) (JS.chars s).
Proof.
  induction s as [|x s IH]; cbn; [constructor|].
  pose proof (countChar_nonneg s c) as Hpos.
  destruct (Ascii.eqb x c) eqn:E; [lia|].
  intros Hc. constructor; [assumption|]. apply IH. lia.
Qed.

Lemma countChar_prefix_absent (s : string) (c : ascii) (n : Z) :
  JS.countChar s c = 0 -> JS.countChar (JS.prefix s n) c = 0.
Proof.
  unfold JS.prefix. generalize (Z.to_nat n) as k. clear n.
  induction s as [|x s IH]; intros k; destruct k as [|k]; cbn; try reflexivity.
  pose proof (countChar_nonneg s c) as Hpos.
  destruct (Ascii.eqb x c); [lia|].
  intros Hc. rewrite IH by lia. reflexivity.
Qed.

Lemma countChar_repeat_other (c d : ascii) (n : Z) :
  Ascii.eqb c d = false -> JS.countChar (JS.repeatChar c n) d = 0.
Proof.
  intros H. unfold JS.repeatChar. generalize (Z.to_nat n) as k.
  induction k as [|k IH]; cbn; [reflexivity|].
  rewrite H. exact IH.
Qed.

Lemma endsWith_present (s : string) (c : ascii) :
  JS.endsWith s c = true -> 0 < JS.countChar s c.
Proof.
  unfold JS.endsWith.
  rewrite <- (JsonFacts.text_chars s) at 2.
  destruct (rev (JS.chars s)) as [|x l] eqn:E; [discriminate|].
  apply (f_equal (@rev ascii)) in E. rewrite rev_involutive in E. cbn in E.
  rewrite E, JsonFacts.countChar_app. cbn.
  pose proof (countChar_nonneg (JS.text (rev l)) c).
  intros ->. lia.
Qed.

Lemma lastIndexFrom_absent (s : string) (c : ascii) (i found : Z) :
  JS.countChar s c = 0 -> JS.lastIndexFrom s c i found = found.
Proof.
  revert i found. induction s as [|x s IH]; intros i found; cbn; [reflexivity|].
  pose proof (countChar_nonneg s c) as Hpos.
  destruct (Ascii.eqb x c); [lia|].
  intros Hc. apply IH. lia.
Qed.

(** Without a closing brace in the text the counter of braces never
    becomes positive. *)
Lemma scanBack_braces (l : list ascii) :
  Forall (fun x => Ascii.eqb x "}" = false) l ->
  forall i openBraces openBrackets lastValidPos,
    openBraces <= 0 ->
    fst (fst (scanBack l i openBraces openBrackets lastValidPos)) <= 0.
Proof.
  induction 1 as [|char rest Hchar _ IH]; intros i ob obr lvp Hob; cbn; [assumption|].
  rewrite Hchar.
  destruct (Ascii.eqb char "{").
  - destruct ((ob - 1 <? 0) || (obr <? 0)); [cbn; lia|apply IH; lia].
  - destruct (Ascii.eqb char "]").
    + destruct ((ob <? 0) || (obr + 1 <? 0)); [cbn; lia|apply IH; lia].
    + destruct (Ascii.eqb char "[").
      * destruct ((ob <? 0) || (obr - 1 <? 0)); [cbn; lia|apply IH; lia].
      * destruct ((ob <? 0) || (obr <? 0)); [cbn; lia|apply IH; lia].
Qed.

Lemma balanceBrackets_no_brace (t : string) :
  JS.countChar t "}" = 0 -> JS.countChar (balanceBrackets t) "}" = 0.
Proof.
  intros H. unfold balanceBrackets.
  pose proof (scanBack_braces (rev (JS.chars t))
                (Forall_rev (countChar_absent_chars t "}" H))
                (JS.len t - 1) 0 0 (JS.len t) ltac:(lia)) as Hob.
  destruct (scanBack (rev (JS.chars t)) (JS.len t - 1) 0 0 (JS.len t))
    as [[openBraces openBrackets] lastValidPos].
  cbn in Hob.
  destruct (Z.gtb_spec openBraces 0); [lia|].
  rewrite !countChar_append, countChar_prefix_absent by assumption.
  destruct (openBrackets >? 0); [|reflexivity].
  rewrite countChar_repeat_other by reflexivity. reflexivity.
Qed.

(** The bracket-balance branch cannot repair: a text that holds no
    closing brace at all is rejected, whatever it opens. *)
Lemma no_closing_brace_throws (s : string) :
  JS.countChar (JS.trim s) "}" = 0 ->
  parseAndRepairJSON s = Throw IncompleteJSON.
Proof.
  intros H. unfold parseAndRepairJSON, closeObject.
  destruct (JS.endsWith (JS.trim s) "}") eqn:E1.
  { apply endsWith_present in E1. lia. }
  unfold JS.lastIndexOf. rewrite lastIndexFrom_absent by assumption.
  change (-1 >? 0) with false. cbv iota.
  destruct (JS.endsWith (balanceBrackets (JS.trim s)) "}") eqn:E2; [|reflexivity].
  apply endsWith_present in E2.
  rewrite balanceBrackets_no_brace in E2 by assumption. lia.
Qed.

End BalanceFacts.

(* ================================================================== *)
(** ** Properties of the repair engine *)

Module RepairFacts.
Import Json Repair Scenario.

(** The bracket-balance branch cuts the text after its last unmatched
    opener and appends nothing. *)
Example balanceBrackets_truncatedString :
  balanceBrackets truncatedString = "{".
Proof. reflexivity. Qed.

(** With the dangling string closed and the brace appended, the text
    parses: the engine fails before it gets there. *)
Example closed_text_parses :
  parse (JS.dq "{'a':'b','c':'d'}")
  = Some (JObject [("a", JString "b"); ("c", JString "d")]).
Proof. reflexivity. Qed.

(** C4, at its input: on the object truncated inside a string value the
    engine does not return the object with the string closed; it throws
    "incomplete JSON (not closed, could not repair)". *)
Theorem truncated_string_throws :
  parseAndRepairJSON truncatedString = Throw IncompleteJSON.
Proof. reflexivity. Qed.

(** C5, at its input: on the text that misses both closers the
    bracket-balance branch appends no closer at all (it cuts the text
    back to its last opener), and the engine throws instead of returning
    an object. *)
Theorem unbalanced_brackets_throws :
  balanceBrackets unbalanced = JS.dq "{'a':["
  /\ parseAndRepairJSON unbalanced = Throw IncompleteJSON.
Proof.
  split; [reflexivity|].
  apply BalanceFacts.no_closing_brace_throws. reflexivity.
Qed.

(** C3 as stated fails: a JSON array is valid JSON, and the engine
    rejects it. *)
Lemma valid_array_rejected :
  parse "[1,2,3]" = Some (JArray [JNumber 1 0; JNumber 2 0; JNumber 3 0])
  /\ parseAndRepairJSON "[1,2,3]" = Throw IncompleteJSON.
Proof. split; reflexivity. Qed.

(** A valid object with an odd number of quote characters (one escaped
    quote inside a string) is rejected as well. *)
Example escaped_quote_rejected :
  parse (JS.dq "{'a':'\''}") = Some (JObject [("a", JString (JS.dq "'"))])
  /\ parseAndRepairJSON (JS.dq "{'a':'\''}") = Throw UnbalancedQuotes.
Proof. split; reflexivity. Qed.

(** X6: a valid object whose quote characters are odd in number (an
    escaped quote inside a string) is rejected: the scan finds every
    string closed, changes nothing, and the count is still odd. *)
Lemma valid_object_odd_quotes_throws (s : string) (ms : list (string * JSON)) :
  parse s = Some (JObject ms) ->
  evenQuotes s = false ->
  parseAndRepairJSON s = Throw UnbalancedQuotes.
Proof.
  intros Hparse Hodd.
  unfold parseAndRepairJSON, closeObject.
  rewrite (JsonFacts.parse_object_endsWith s ms Hparse).
  unfold balanceQuotes.
  rewrite (ScanFacts.fixUnterminatedStrings_valid _ _ (JsonFacts.parse_trim s _ Hparse)).
  unfold evenQuotes in *. rewrite JsonFacts.countChar_trim, Hodd. reflexivity.
Qed.

(** C3, amended: for every text that is valid JSON, denotes an object
    and holds an even number of double-quote characters, the engine
    succeeds and returns the value that [JSON.parse] gives for the text:
    no repair touches it. *)
Theorem valid_object_unchanged (s : string) (ms : list (string * JSON)) :
  parse s = Some (JObject ms) ->
  evenQuotes s = true ->
  parseAndRepairJSON s = Ok (JObject ms).
Proof.
  intros Hparse Heven.
  unfold parseAndRepairJSON, closeObject.
  rewrite (JsonFacts.parse_object_endsWith s ms Hparse).
  unfold balanceQuotes, evenQuotes.
  rewrite JsonFacts.countChar_trim.
  unfold evenQuotes in Heven. rewrite Heven.
  unfold parseWithRetry.
  rewrite (JsonFacts.parse_trim s _ Hparse). reflexivity.
Qed.

Lemma valid_object_unchanged_witness :
  parse (JS.dq "  {'a':[1,2,3],'b':{'c':'d'}} ")
  = Some (JObject [("a", JArray [JNumber 1 0; JNumber 2 0; JNumber 3 0]);
                   ("b", JObject [("c", JString "d")])])
  /\ evenQuotes (JS.dq "  {'a':[1,2,3],'b':{'c':'d'}} ") = true
  /\ parseAndRepairJSON (JS.dq "  {'a':[1,2,3],'b':{'c':'d'}} ")
     = Ok (JObject [("a", JArray [JNumber 1 0; JNumber 2 0; JNumber 3 0]);
                    ("b", JObject [("c", JString "d")])]).
Proof.
  split; [reflexivity|]. split; [reflexivity|].
  apply valid_object_unchanged; reflexivity.
Defined.

End RepairFacts.

(* ================================================================== *)
(** ** The scaled random draw *)

Module FloatFacts.
Import Pipeline.

(** Rounding to 53 bits never reaches [n * 2^53] from a product
    [m * n] with [m < 2^53]. *)
Lemma round53_below (m n : Z) :
  0 <= m < 2 ^ 53 -> 0 < n -> 0 < m * n ->
  0 <= round53 (m * n) < n * 2 ^ 53.
Proof.
  intros Hm Hn Hx.
  assert (Hle : m * n <= (2 ^ 53 - 1) * n)
    by (apply Z.mul_le_mono_nonneg_r; lia).
  unfold round53.
  set (x := m * n) in *.
  destruct (Z.leb_spec (Z.log2 x + 1) 53) as [Hbits|Hbits]; [lia|].
  set (sh := Z.log2 x + 1 - 53) in *.
  assert (Hsh : 0 < sh) by (subst sh; lia).
  pose proof (Z.log2_spec x Hx) as [Hlow _].
  replace (Z.log2 x) with (52 + sh) in Hlow by (subst sh; lia).
  rewrite Z.pow_add_r in Hlow by lia.
  replace sh with (1 + (sh - 1)) in Hlow at 1 by lia.
  rewrite Z.pow_add_r in Hlow by lia.
  rewrite Z.shiftr_div_pow2, Z.shiftl_mul_pow2 by lia.
  assert (HP : 2 ^ sh = 2 * 2 ^ (sh - 1)).
  { replace sh with (1 + (sh - 1)) at 1 by lia. rewrite Z.pow_add_r by lia. reflexivity. }
  assert (Hhalf : 0 < 2 ^ (sh - 1)) by (apply Z.pow_pos_nonneg; lia).
  pose proof (Z.div_mod x (2 ^ sh) ltac:(lia)) as Hdiv.
  pose proof (Z.mod_pos_bound x (2 ^ sh) ltac:(lia)) as Hmod.
  assert (Hq : 0 <= x / 2 ^ sh) by (apply Z.div_pos; lia).
  set (q := x / 2 ^ sh) in *. set (r := x mod 2 ^ sh) in *.
  set (half := 2 ^ (sh - 1)) in *.
  change (2 ^ 1) with 2 in Hlow. change (2 ^ 52) with 4503599627370496 in Hlow.
  change (2 ^ 53) with 9007199254740992 in *.
  destruct ((r >? half) || ((r =? half) && Z.odd q)) eqn:Eup.
  - assert (Hr : half <= r).
    { apply orb_true_iff in Eup as [H|H].
      - apply Z.gtb_lt in H. lia.
      - apply andb_true_iff in H as [H _]. apply Z.eqb_eq in H. lia. }
    rewrite Z.mul_add_distr_r, (Z.mul_comm q). nia.
  - rewrite (Z.mul_comm q). nia.
Qed.

(** The index drawn lies between 0 and [n - 1]. *)
Lemma floorTimes_range (m n : Z) :
  0 <= m < 2 ^ 53 -> 0 < n -> 0 <= floorTimes m n < n.
Proof.
  intros Hm Hn. unfold floorTimes.
  destruct (Z.eqb_spec (m * n) 0); [lia|].
  assert (Hx : 0 < m * n) by nia.
  destruct (Z.ltb_spec 0 (m * n)); [|lia].
  pose proof (round53_below m n Hm Hn Hx) as [H0 H1].
  split.
  - apply Z.div_pos; lia.
  - apply Z.div_lt_upper_bound; lia.
Qed.

End FloatFacts.

(* ================================================================== *)
(** ** Properties of the role assignment *)

Module RoleFacts.
Import Pipeline Scenario.

(** C6, at a failing input: with three players and the draws 0, 0.5
    and 0, the second draw is not below 0.3, so the discoverer is drawn
    apart from the killer, by a single draw that is never repeated: both
    indices are 1, after three calls of [Math.random] in all. *)
Theorem discoverer_can_be_killer :
  below03 (draws 1) = false
  /\ fst (assignRoles drawsWorld 3 initial) = Ok (1, 1)
  /\ nextRandom (snd (assignRoles drawsWorld 3 initial)) = 3%nat.
Proof. repeat split; reflexivity. Qed.

(** In the branch where the discoverer is drawn apart, the index is the
    third draw whatever the killer index is. *)
Lemma discoverer_is_third_draw (w : World) (n : Z) (st : State) :
  below03 (random w (S (nextRandom st))) = false ->
  fst (assignRoles w n st)
  = Ok (floorTimes (random w (nextRandom st)) n + 1,
        floorTimes (random w (S (S (nextRandom st)))) n + 1).
Proof.
  intros H. unfold assignRoles, bind, mathRandom, ret. cbn.
  rewrite H. reflexivity.
Qed.

End RoleFacts.

(* ================================================================== *)
(** ** Doubles on whole numbers *)

Module DoubleFacts.
Import Double Spec.

Lemma nearest_exact (p q : Z) : 0 < q -> nearest (p * q) q = p.
Proof.
  intros Hq. unfold nearest.
  rewrite Z.div_mul, Z.mod_mul by lia.
  destruct (Z.gtb_spec (2 * 0) q) as [|_]; [lia|].
  destruct (Z.eqb_spec (2 * 0) q) as [|_]; [lia|]. reflexivity.
Qed.

Lemma binaryExponent_scaled (c j : Z) :
  0 < c -> 0 <= j -> binaryExponent (c * 2 ^ j) (2 ^ j) = Z.log2 c.
Proof.
  intros Hc Hj. unfold binaryExponent.
  rewrite Z.log2_mul_pow2, Z.log2_pow2 by lia.
  replace (j + Z.log2 c - j) with (Z.log2 c) by lia.
  pose proof (Z.log2_nonneg c) as Hn.
  destruct (Z.leb_spec 0 (Z.log2 c)) as [_|]; [|lia].
  pose proof (Z.log2_spec c Hc) as [Hlo _].
  destruct (Z.leb_spec (2 ^ j * 2 ^ Z.log2 c) (c * 2 ^ j)) as [_|Habs]; [reflexivity|].
  exfalso. assert (0 < 2 ^ j) by (apply Z.pow_pos_nonneg; lia). nia.
Qed.

(** An integer below [2^53], given as a fraction over a power of two, is
    a double. *)
Lemma make_integer (negative : bool) (c j : Z) :
  0 < c < 2 ^ 53 -> 0 <= j ->
  make negative (c * 2 ^ j) (2 ^ j)
  = if Z.log2 c <? 52
    then Finite (if negative then - (c * 2 ^ (52 - Z.log2 c))
                 else c * 2 ^ (52 - Z.log2 c)) (Z.log2 c - 52)
    else Finite (if negative then - c else c) 0.
Proof.
  intros [Hc Hlt] Hj. unfold make.
  assert (Hq : 0 < 2 ^ j) by (apply Z.pow_pos_nonneg; lia).
  destruct (Z.eqb_spec (c * 2 ^ j) 0) as [E|_]; [nia|].
  rewrite binaryExponent_scaled by lia.
  pose proof (Z.log2_nonneg c) as Hn.
  assert (Hb : Z.log2 c < 53) by (apply Z.log2_lt_pow2; lia).
  pose proof (Z.log2_spec c Hc) as [Hlo Hhi].
  replace (Z.max (Z.log2 c - 52) (-1074)) with (Z.log2 c - 52) by lia.
  destruct (Z.ltb_spec (Z.log2 c) 52) as [Hsmall|Hbig].
  - destruct (Z.leb_spec 0 (Z.log2 c - 52)) as [|_]; [lia|].
    replace (- (Z.log2 c - 52)) with (52 - Z.log2 c) by lia.
    replace (c * 2 ^ j * 2 ^ (52 - Z.log2 c)) with (c * 2 ^ (52 - Z.log2 c) * 2 ^ j) by ring.
    rewrite nearest_exact by lia.
    assert (Hm : c * 2 ^ (52 - Z.log2 c) < 2 ^ 53).
    { replace (2 ^ 53) with (2 ^ Z.succ (Z.log2 c) * 2 ^ (52 - Z.log2 c)).
      - apply Z.mul_lt_mono_pos_r; [apply Z.pow_pos_nonneg; lia|exact Hhi].
      - rewrite <- Z.pow_add_r by lia. f_equal. lia. }
    destruct (Z.eqb_spec (c * 2 ^ (52 - Z.log2 c)) (2 ^ 53)) as [E|_]; [lia|].
    destruct (Z.ltb_spec 971 (Z.log2 c - 52)) as [|_]; [lia|]. reflexivity.
  - assert (Z.log2 c = 52) as E by lia. rewrite E in *.
    change (52 - 52) with 0. cbn [Z.leb Z.compare].
    change (2 ^ 0) with 1. rewrite Z.mul_1_r.
    rewrite nearest_exact by lia.
    destruct (Z.eqb_spec c (2 ^ 53)) as [E'|_]; [lia|]. reflexivity.
Qed.

Lemma make_holds (negative : bool) (c j : Z) :
  0 <= c < 2 ^ 53 -> 0 <= j ->
  holds (make negative (c * 2 ^ j) (2 ^ j)) (if negative then - c else c).
Proof.
  intros [Hc Hlt] Hj.
  assert (Hq : 0 < 2 ^ j) by (apply Z.pow_pos_nonneg; lia).
  destruct (Z.eq_dec c 0) as [->|Hnz].
  - unfold make. rewrite Z.mul_0_l. cbn [Z.eqb holds Z.leb Z.compare].
    destruct negative; reflexivity.
  - rewrite (make_integer negative c j) by lia. pose proof (Z.log2_nonneg c).
    destruct (Z.ltb_spec (Z.log2 c) 52) as [Hs|Hb]; unfold holds.
    + destruct (Z.leb_spec 0 (Z.log2 c - 52)) as [|_]; [lia|].
      replace (- (Z.log2 c - 52)) with (52 - Z.log2 c) by lia.
      destruct negative; ring.
    + cbn [Z.leb Z.compare]. change (2 ^ 0) with 1. destruct negative; ring.
Qed.

Lemma holds_distance (d : Double) (a n : Z) :
  holds d a -> Z.abs (a - n) < 2 ^ 53 -> holds (distance d n) (Z.abs (a - n)).
Proof.
  destruct d as [m e|]; [|contradiction]. unfold holds at 1, distance.
  destruct (Z.leb_spec 0 e) as [He|He]; intros Ha Hlt.
  - subst a.
    pose proof (make_holds false (Z.abs (m * 2 ^ e - n)) 0 ltac:(lia) ltac:(lia)) as H.
    change (2 ^ 0) with 1 in H. rewrite Z.mul_1_r in H. exact H.
  - subst m.
    assert (Hq : 0 < 2 ^ (- e)) by (apply Z.pow_pos_nonneg; lia).
    replace (Z.abs (a * 2 ^ (- e) - n * 2 ^ (- e))) with (Z.abs (a - n) * 2 ^ (- e)).
    + apply (make_holds false); lia.
    + rewrite <- Z.mul_sub_distr_r, Z.abs_mul. f_equal. lia.
Qed.

Lemma holds_atMost (d : Double) (a k : Z) :
  holds d a -> atMost d k = (a <=? k).
Proof.
  destruct d as [m e|]; [|contradiction]. unfold holds, atMost.
  destruct (Z.leb_spec 0 e) as [He|He]; intros ->; [reflexivity|].
  assert (Hq : 0 < 2 ^ (- e)) by (apply Z.pow_pos_nonneg; lia).
  destruct (Z.leb_spec (a * 2 ^ (- e)) (k * 2 ^ (- e))) as [H|H],
           (Z.leb_spec a k) as [H'|H']; try reflexivity; exfalso; nia.
Qed.

Lemma ofDecimal_holds (m : Z) : Z.abs m < 2 ^ 53 -> holds (ofDecimal m 0) m.
Proof.
  intros H. unfold ofDecimal. cbn [Z.leb Z.compare].
  change (10 ^ 0) with 1. rewrite Z.mul_1_r.
  pose proof (make_holds (m <? 0) (Z.abs m) 0 ltac:(lia) ltac:(lia)) as Hm.
  change (2 ^ 0) with 1 in Hm. rewrite Z.mul_1_r in Hm.
  destruct (Z.ltb_spec m 0);
    [replace (- Z.abs m) with m in Hm by lia|replace (Z.abs m) with m in Hm at 2 by lia];
    exact Hm.
Qed.

(** X27: whole ages are compared exactly.  When the age of the player
    is a whole number below [2^53] in absolute value and is less than
    [2^53] away from the age of the record, the test [diff <= k] of
    [scoreMatch], which the source computes on doubles, holds exactly
    when the two ages differ by at most [k]. *)
Theorem whole_ages_compare_exactly (m age k : Z) :
  Z.abs m < 2 ^ 53 -> Z.abs (m - age) < 2 ^ 53 ->
  Reconciler.ageWithin m 0 age k = (Z.abs (m - age) <=? k).
Proof.
  intros Hm Hd. unfold Reconciler.ageWithin.
  apply holds_atMost, holds_distance; [apply ofDecimal_holds, Hm|exact Hd].
Qed.

Lemma whole_ages_compare_exactly_witness :
  Z.abs 42 < 2 ^ 53 /\ Z.abs (42 - 40) < 2 ^ 53
  /\ Reconciler.ageWithin 42 0 40 3 = (Z.abs (42 - 40) <=? 3).
Proof.
  split; [reflexivity|]. split; [reflexivity|].
  apply (whole_ages_compare_exactly 42 40 3); reflexivity.
Defined.

End DoubleFacts.

(* ================================================================== *)
(** ** Properties of the score *)

Module ScoreFacts.
Import Json Value Catalog Reconciler Spec Scenario.

(** The texts of the record that [scoreMatch] compares are the folded
    occupation texts. *)
Lemma origOccEsOf_folded (orig : Suspect) :
  origOccEsOf orig = folded (spanishText orig).
Proof.
  unfold origOccEsOf, spanishText, folded.
  destruct (occupation orig); reflexivity.
Qed.

Lemma origOccEnOf_folded (orig : Suspect) :
  origOccEnOf orig = folded (englishText orig).
Proof.
  unfold origOccEnOf, englishText, folded.
  destruct (occupation orig); reflexivity.
Qed.

Lemma genRoleOf_folded (gen : JSON) (role : string) :
  roleIs gen role -> genRoleOf gen = Ok (folded role).
Proof.
  unfold roleIs, genRoleOf, folded.
  destruct (prop gen "role") as [v|].
  - destruct (truthy v); intros H; [rewrite H|subst role]; reflexivity.
  - intros ->. reflexivity.
Qed.

Lemma sameGender_bonus (gen : JSON) (orig : Suspect) :
  (if sameGender gen orig then 2 else 0)
  = genderBonus (prop gen "gender") (gender orig).
Proof.
  unfold sameGender, genderBonus, nonEmpty.
  destruct (prop gen "gender") as [[| | |g| |]|]; try reflexivity.
  destruct (String.eqb g (gender orig)) eqn:E.
  - apply String.eqb_eq in E. rewrite <- E.
    destruct (String.eqb g ""); reflexivity.
  - rewrite !andb_false_r. reflexivity.
Qed.

Lemma score_sum (gen : JSON) (orig : Suspect) (role : string) :
  roleIs gen role ->
  score gen orig
  = Ok (roleBonus (folded role) (folded (spanishText orig)) (folded (englishText orig))
        + genderBonus (prop gen "gender") (gender orig)
        + ageBonus (prop gen "age") (approx_age orig)).
Proof.
  intros Hrole. unfold score.
  rewrite (genRoleOf_folded gen role Hrole).
  rewrite origOccEsOf_folded, origOccEnOf_folded.
  rewrite <- sameGender_bonus.
  unfold roleBonus, ageBonus, ageWithin, nonEmpty. f_equal.
  destruct (String.eqb (folded role) ""); cbn [negb andb];
    repeat match goal with
      | |- context [if ?b then _ else _] => destruct b
      | |- context [match ?x with _ => _ end] => destruct x
      end; reflexivity.
Qed.

(** C7, amended: for every generated player that is not [null] and
    whose role is absent, falsy or converts to a text [role], and for
    every catalog record, [scoreMatch] returns the sum of three bonuses.
    With the texts lower-cased and trimmed: 5 when the role is not empty
    and equals the Spanish or the English occupation text of the record,
    otherwise 3 when it is not empty and it and the Spanish occupation
    text contain one another.  2 when the gender of the player is a
    string that is not empty and is the record's.  When both ages are
    numbers, 2 when the difference of the two doubles is at most 1,
    otherwise 1 when it is at most 3. *)
Theorem scoreMatch_sum (gen : JSON) (orig : Suspect) (role : string) :
  gen <> JNull ->
  roleIs gen role ->
  scoreMatch gen orig
  = Ok (roleBonus (folded role) (folded (spanishText orig)) (folded (englishText orig))
        + genderBonus (prop gen "gender") (gender orig)
        + ageBonus (prop gen "age") (approx_age orig)).
Proof.
  intros Hgen Hrole. unfold scoreMatch.
  destruct gen; try (elim Hgen; reflexivity); cbn [isNull];
    apply score_sum; assumption.
Qed.

Lemma scoreMatch_sum_witness :
  JObject [("role", JString " Cook"); ("gender", JString "male"); ("age", JNumber 425 (-1))]
  <> JNull
  /\ roleIs
       (JObject [("role", JString " Cook"); ("gender", JString "male");
                 ("age", JNumber 425 (-1))])
       " Cook"
  /\ scoreMatch
       (JObject [("role", JString " Cook"); ("gender", JString "male");
                 ("age", JNumber 425 (-1))])
       chef
     = Ok (5 + 2 + 1).
Proof.
  split; [discriminate|].
  split; [reflexivity|].
  apply (scoreMatch_sum
           (JObject [("role", JString " Cook"); ("gender", JString "male");
                     ("age", JNumber 425 (-1))]) chef " Cook").
  - discriminate.
  - reflexivity.
Defined.

(** C7 as stated fails: a role equal to the occupation earns 5, not
    10. *)
Lemma exact_occupation_scores_five :
  scoreMatch cook chef = Ok 5 /\ claimedScore cook chef = 10.
Proof. split; reflexivity. Qed.

(** A score lies between 0 and 9. *)
Lemma score_bounds (gen : JSON) (orig : Suspect) (s : Z) :
  score gen orig = Ok s -> 0 <= s <= 9.
Proof.
  unfold score. destruct (genRoleOf gen) as [genRole|]; [|discriminate].
  intros H. injection H as <-.
  repeat match goal with
    | |- context [if ?b then _ else _] => destruct b
    | |- context [match ?x with _ => _ end] => destruct x
    end; lia.
Qed.

(** The age is the double that [JSON.parse] read: 41.00000000000000001
    is 41, one year from 40. *)
Example rounded_age_is_within_a_year :
  scoreMatch (JObject [("age", JNumber 4100000000000000001 (-17))]) chef = Ok 2.
Proof. vm_compute. reflexivity. Qed.

(** A role that underflows to zero is falsy, and a large one prints
    with an exponent. *)
Example underflowing_role_is_no_role :
  genRoleOf (JObject [("role", JNumber 1 (-400))]) = Ok ""
  /\ genRoleOf (JObject [("role", JNumber 1 21)]) = Ok "1e+21"
  /\ genRoleOf (JObject [("role", JArray [JNumber 15 (-1); JNull; JBool true])])
     = Ok "1.5,,true".
Proof. vm_compute. repeat split. Qed.

(** A role that holds a [toString] member of its own has no text:
    [scoreMatch] throws. *)
Lemma unprintable_role_throws (ms members : list (string * JSON)) (x : JSON)
      (orig : Suspect) :
  lookup "role" ms = Some (JObject members) ->
  lookup "toString" members = Some x ->
  scoreMatch (JObject ms) orig = Throw TypeError.
Proof.
  intros Hrole Hts. unfold scoreMatch, score, genRoleOf. cbn [isNull prop].
  rewrite Hrole. cbn [truthy toText]. rewrite Hts. reflexivity.
Qed.

End ScoreFacts.

(* ================================================================== *)
(** ** Properties of property reads and writes *)

Module ValueFacts.
Import Json Value.

Lemma lookup_absent (key : string) (ms : list (string * JSON)) :
  existsb (fun kv => String.eqb (fst kv) key) ms = false ->
  lookup key ms = None.
Proof.
  induction ms as [|[k x] ms IH]; cbn; [reflexivity|].
  destruct (String.eqb k key) eqn:E; cbn; [discriminate|].
  intros H. rewrite (IH H). reflexivity.
Qed.

(** A write is read back. *)
Lemma lookup_assign_same (key : string) (v : JSON) (ms : list (string * JSON)) :
  lookup key (assign key v ms) = Some v.
Proof.
  induction ms as [|[k x] ms IH]; cbn.
  - rewrite String.eqb_refl. reflexivity.
  - destruct (existsb (fun kv => String.eqb (fst kv) key) ms) eqn:E.
    + cbn. rewrite IH. reflexivity.
    + destruct (String.eqb k key) eqn:Ek; cbn.
      * rewrite (lookup_absent _ _ E), Ek. reflexivity.
      * rewrite IH. reflexivity.
Qed.

(** A write leaves the other properties as they are. *)
Lemma lookup_assign_other (key key' : string) (v : JSON)
      (ms : list (string * JSON)) :
  key <> key' -> lookup key (assign key' v ms) = lookup key ms.
Proof.
  intros Hneq.
  assert (Hk : String.eqb key' key = false)
    by (apply String.eqb_neq; congruence).
  induction ms as [|[k x] ms IH]; cbn.
  - rewrite Hk. reflexivity.
  - destruct (existsb (fun kv => String.eqb (fst kv) key') ms) eqn:E.
    + cbn. rewrite IH. reflexivity.
    + destruct (String.eqb_spec k key'); cbn.
      * subst k. rewrite Hk.
        destruct (lookup key ms); reflexivity.
      * rewrite IH. reflexivity.
Qed.

Lemma lookup_last (key : string) (v : JSON) (ms : list (string * JSON)) :
  lookup key (ms ++ [(key, v)]) = Some v.
Proof.
  induction ms as [|[k x] ms IH]; cbn.
  - rewrite String.eqb_refl. reflexivity.
  - rewrite IH. reflexivity.
Qed.

Lemma prop_set_other (p p' : JSON) (key key' : string) (v : JSON) :
  key <> key' -> set p key' v = Ok p' -> prop p' key = prop p key.
Proof.
  intros Hneq. destruct p; cbn; try discriminate.
  - intros H. injection H as <-. reflexivity.
  - intros H. injection H as <-. cbn. apply lookup_assign_other, Hneq.
Qed.

End ValueFacts.

(* ================================================================== *)
(** ** Properties of the photo matching *)

Module ReconcilerFacts.
Import Json Value Catalog Reconciler Spec.

(** *** The matching writes the photo and nothing else *)

Lemma matchOne_other (remaining : list Suspect) (gen gen' : JSON)
      (usedIds usedIds' : list string) (key : string) :
  key <> "photo" ->
  matchOne remaining gen usedIds = Ok (gen', usedIds') ->
  prop gen' key = prop gen key.
Proof.
  intros Hkey. unfold matchOne.
  destruct (pickBest gen usedIds remaining None (-1)) as [best0|]; [|discriminate].
  destruct (match best0 with
            | Some b => Some b
            | None => find (fun o => negb (has usedIds (id o))) remaining
            end) as [b|].
  - destruct (nonEmpty (image_url b)).
    + destruct (get gen "name") as [name|]; [|discriminate].
      destruct (textOf name); [|discriminate].
      destruct (set gen "photo" (JString (image_url b))) as [g|] eqn:E; [|discriminate].
      intros H. injection H as <- _.
      eapply ValueFacts.prop_set_other; eassumption.
    + intros H. injection H as <- _. reflexivity.
  - intros H. injection H as <- _. reflexivity.
Qed.

Lemma matchAll_other (remaining : list Suspect) (key : string) :
  key <> "photo" ->
  forall (allPlayers result : list JSON) (usedIds : list string),
    matchAll remaining allPlayers usedIds = Ok result ->
    map (fun p => prop p key) result = map (fun p => prop p key) allPlayers.
Proof.
  intros Hkey allPlayers.
  induction allPlayers as [|gen rest IH]; cbn; intros result usedIds.
  - intros H. injection H as <-. reflexivity.
  - destruct (matchOne remaining gen usedIds) as [[gen' usedIds']|] eqn:E1; [|discriminate].
    destruct (matchAll remaining rest usedIds') as [rest'|] eqn:E2; [|discriminate].
    intros H. injection H as <-. cbn.
    rewrite (matchOne_other _ _ _ _ _ _ Hkey E1), (IH _ _ E2). reflexivity.
Qed.

Lemma matchAll_length (remaining : list Suspect) :
  forall (allPlayers result : list JSON) (usedIds : list string),
    matchAll remaining allPlayers usedIds = Ok result ->
    List.length result = List.length allPlayers.
Proof.
  intros allPlayers.
  induction allPlayers as [|gen rest IH]; cbn; intros result usedIds.
  - intros H. injection H as <-. reflexivity.
  - destruct (matchOne remaining gen usedIds) as [[gen' usedIds']|]; [|discriminate].
    destruct (matchAll remaining rest usedIds') as [rest'|] eqn:E2; [|discriminate].
    intros H. injection H as <-. cbn. rewrite (IH _ _ E2). reflexivity.
Qed.

(** *** The matching does not read the name *)

Lemma sameButName_refl (p : JSON) : sameButName p p.
Proof. destruct p; cbn; auto. Qed.

Lemma sameButName_prop (p q : JSON) (key : string) :
  sameButName p q -> key <> "name" -> prop p key = prop q key.
Proof.
  destruct p, q; cbn; intros H Hk; try (inversion H; reflexivity); try discriminate H.
  apply H, Hk.
Qed.

Lemma sameButName_isNull (p q : JSON) :
  sameButName p q -> isNull p = isNull q.
Proof.
  destruct p, q; cbn; intros H; try reflexivity; discriminate H.
Qed.

Lemma score_sameButName (p q : JSON) (orig : Suspect) :
  sameButName p q -> score p orig = score q orig.
Proof.
  intros H. unfold score, genRoleOf, sameGender.
  rewrite (sameButName_prop p q "role" H) by discriminate.
  rewrite (sameButName_prop p q "gender" H) by discriminate.
  rewrite (sameButName_prop p q "age" H) by discriminate.
  reflexivity.
Qed.

Lemma scoreMatch_sameButName (p q : JSON) (orig : Suspect) :
  sameButName p q -> scoreMatch p orig = scoreMatch q orig.
Proof.
  intros H. unfold scoreMatch.
  rewrite (sameButName_isNull p q H), (score_sameButName p q orig H).
  reflexivity.
Qed.

Lemma pickBest_sameButName (p q : JSON) (usedIds : list string) :
  sameButName p q ->
  forall (remaining : list Suspect) (best : option Suspect) (bestScore : Z),
    pickBest p usedIds remaining best bestScore
    = pickBest q usedIds remaining best bestScore.
Proof.
  intros H remaining.
  induction remaining as [|orig rest IH]; cbn; intros best bestScore; [reflexivity|].
  rewrite (scoreMatch_sameButName p q orig H).
  destruct (has usedIds (id orig)); [apply IH|].
  destruct (scoreMatch q orig) as [s|]; [|reflexivity].
  destruct (s >? bestScore); apply IH.
Qed.

(** Writing the photo on two players that differ by their name gives
    the same outcome and the same photo. *)
Lemma set_photo_sameButName (p q : JSON) (v : JSON) :
  sameButName p q ->
  match set p "photo" v, set q "photo" v with
  | Ok p', Ok q' => sameButName p' q' /\ photoOf p' = photoOf q'
  | Throw e, Throw e' => e = e'
  | _, _ => False
  end.
Proof.
  destruct p, q; cbn; intros H; try discriminate H; try reflexivity;
    try (injection H as ->; split; [intros; reflexivity | reflexivity]).
  split.
  - intros key Hk.
    destruct (String.eqb_spec key "photo") as [->|Hne].
    + rewrite !ValueFacts.lookup_assign_same. reflexivity.
    + rewrite !ValueFacts.lookup_assign_other by assumption. apply H, Hk.
  - unfold photoOf. cbn. rewrite !ValueFacts.lookup_assign_same. reflexivity.
Qed.

(** Two players that differ by their name only, when the matching
    serves both, leave it with the same photo and the same ids used. *)
Lemma matchOne_sameButName (remaining : list Suspect) (p q p' q' : JSON)
      (usedIds u u' : list string) :
  sameButName p q ->
  matchOne remaining p usedIds = Ok (p', u) ->
  matchOne remaining q usedIds = Ok (q', u') ->
  u = u' /\ sameButName p' q' /\ photoOf p' = photoOf q'.
Proof.
  intros H. unfold matchOne.
  rewrite (pickBest_sameButName p q usedIds H).
  destruct (pickBest q usedIds remaining None (-1)) as [best0|]; [|discriminate].
  destruct (match best0 with
            | Some b => Some b
            | None => find (fun o => negb (has usedIds (id o))) remaining
            end) as [b|].
  - destruct (nonEmpty (image_url b)).
    + destruct (get p "name") as [name|]; [|discriminate].
      destruct (textOf name); [|discriminate].
      destruct (get q "name") as [name'|]; [|discriminate].
      destruct (textOf name'); [|discriminate].
      pose proof (set_photo_sameButName p q (JString (image_url b)) H) as Hset.
      destruct (set p "photo" (JString (image_url b))); [|discriminate].
      destruct (set q "photo" (JString (image_url b))); [|discriminate].
      intros E1 E2. injection E1 as <- <-. injection E2 as <- <-.
      destruct Hset. auto.
    + intros E1 E2. injection E1 as <- <-. injection E2 as <- <-.
      split; [reflexivity|]. split; [assumption|].
      apply (sameButName_prop p q "photo" H). discriminate.
  - intros E1 E2. injection E1 as <- <-. injection E2 as <- <-.
    split; [reflexivity|]. split; [assumption|].
    apply (sameButName_prop p q "photo" H). discriminate.
Qed.

Lemma matchAll_sameButName (remaining : list Suspect) :
  forall (ps qs ps' qs' : list JSON) (usedIds : list string),
    Forall2 sameButName ps qs ->
    matchAll remaining ps usedIds = Ok ps' ->
    matchAll remaining qs usedIds = Ok qs' ->
    map photoOf ps' = map photoOf qs'.
Proof.
  intros ps qs ps' qs' usedIds H. revert usedIds ps' qs'.
  induction H as [|p q ps qs Hpq Hrest IH]; intros usedIds ps' qs'; cbn.
  - intros E1 E2. injection E1 as <-. injection E2 as <-. reflexivity.
  - destruct (matchOne remaining p usedIds) as [[p' u]|] eqn:Ep; [|discriminate].
    destruct (matchOne remaining q usedIds) as [[q' u']|] eqn:Eq; [|discriminate].
    destruct (matchOne_sameButName _ _ _ _ _ _ _ _ Hpq Ep Eq) as (<- & _ & Hphoto).
    destruct (matchAll remaining ps u) as [rs|] eqn:Er; [|discriminate].
    destruct (matchAll remaining qs u) as [rs'|] eqn:Er'; [|discriminate].
    intros E1 E2. injection E1 as <-. injection E2 as <-.
    cbn. rewrite Hphoto, (IH _ _ _ Er Er'). reflexivity.
Qed.

(** *** Applying the provided names *)

Lemma set_name_sameButName (p p' : JSON) (v : JSON) :
  set p "name" v = Ok p' -> sameButName p p'.
Proof.
  destruct p; cbn; try discriminate; intros H; injection H as <-; cbn.
  - reflexivity.
  - intros key Hk. symmetry. apply ValueFacts.lookup_assign_other, Hk.
Qed.

Lemma applyNames_sameButName :
  forall (players named : list JSON) (names : list string),
    Pipeline.applyNames players names = Ok named ->
    Forall2 sameButName players named.
Proof.
  induction players as [|p rest IH]; cbn; intros named names.
  - intros H. injection H as <-. constructor.
  - destruct (nonEmpty (hd "" names)).
    + destruct (set p "name" (JString (hd "" names))) as [p'|] eqn:E; [|discriminate].
      destruct (Pipeline.applyNames rest (tl names)) as [rest'|] eqn:E2; [|discriminate].
      intros H. injection H as <-. constructor.
      * eapply set_name_sameButName, E.
      * eapply IH, E2.
    + destruct (Pipeline.applyNames rest (tl names)) as [rest'|] eqn:E2; [|discriminate].
      intros H. injection H as <-. constructor.
      * apply sameButName_refl.
      * eapply IH, E2.
Qed.

Lemma sameButName_sym (p q : JSON) : sameButName p q -> sameButName q p.
Proof.
  destruct p, q; cbn; intros H; try (symmetry; assumption).
  intros key Hk. symmetry. apply H, Hk.
Qed.

Lemma sameButName_trans (p q r : JSON) :
  sameButName p q -> sameButName q r -> sameButName p r.
Proof.
  destruct p, q, r; cbn; intros H1 H2; try congruence; try discriminate.
  intros key Hk. rewrite (H1 key Hk). apply H2, Hk.
Qed.

Lemma Forall2_sameButName_join (ps qs rs : list JSON) :
  Forall2 sameButName ps qs -> Forall2 sameButName ps rs ->
  Forall2 sameButName qs rs.
Proof.
  intros H. revert rs.
  induction H as [|p q ps qs Hpq _ IH]; intros rs Hr; inversion Hr; subst.
  - constructor.
  - constructor; [|apply IH; assumption].
    eapply sameButName_trans; [apply sameButName_sym|]; eassumption.
Qed.

(** The photos that the matching gives do not depend on the names
    applied before it. *)
Lemma photos_independent_of_names
      (generated named named' result result' : list JSON)
      (names names' : list string) (selectedSuspects : list Suspect) :
  Pipeline.applyNames generated names = Ok named ->
  Pipeline.applyNames generated names' = Ok named' ->
  matchPhotos named selectedSuspects = Ok result ->
  matchPhotos named' selectedSuspects = Ok result' ->
  map photoOf result = map photoOf result'.
Proof.
  intros Hn Hn' Hr Hr'.
  pose proof (Forall2_sameButName_join _ _ _
                (applyNames_sameButName _ _ _ Hn)
                (applyNames_sameButName _ _ _ Hn')) as Hsim.
  exact (matchAll_sameButName selectedSuspects named named' _ _ [] Hsim Hr Hr').
Qed.

Lemma applyNames_other (key : string) :
  key <> "name" ->
  forall (players named : list JSON) (names : list string),
    Pipeline.applyNames players names = Ok named ->
    map (fun p => prop p key) named = map (fun p => prop p key) players.
Proof.
  intros Hkey players named names H.
  apply applyNames_sameButName in H.
  induction H as [|p q ps qs Hpq _ IH]; cbn; [reflexivity|].
  rewrite IH, (sameButName_prop p q key Hpq Hkey). reflexivity.
Qed.

Lemma applyNames_length :
  forall (players named : list JSON) (names : list string),
    Pipeline.applyNames players names = Ok named ->
    List.length named = List.length players.
Proof.
  intros players named names H.
  apply applyNames_sameButName in H.
  symmetry. eapply Forall2_length, H.
Qed.

End ReconcilerFacts.

(* ================================================================== *)
(** ** The batch discipline of the handler *)

Module DisciplineFacts.
Import Json Value Catalog Pipeline Spec.

#[local] Open Scope pipeline_scope.

Lemma orderly_nil {A} (r : Result A) : orderly r [].
Proof. intros [|p] ev e H; discriminate H. Qed.

Lemma orderly_quiet {A} (r : Result A) (ev : Event) :
  mismatchOf ev = None -> orderly r [ev].
Proof.
  intros Hq [|[|p]] ev' e H; try discriminate H.
  injection H as <-. congruence.
Qed.

Lemma disciplined_silent {A} (m : M A) :
  (forall st, trace (snd (m st)) = trace st) -> Disciplined m.
Proof.
  intros H st r st' E. exists [].
  specialize (H st). rewrite E in H. cbn in H.
  rewrite H, app_nil_r. split; [reflexivity | apply orderly_nil].
Qed.

Lemma disciplined_ret {A} (a : A) : Disciplined (ret a).
Proof. apply disciplined_silent. reflexivity. Qed.

Lemma disciplined_throw {A} (e : Exception) : Disciplined (@throw A e).
Proof. apply disciplined_silent. reflexivity. Qed.

Lemma disciplined_lift {A} (r : Result A) : Disciplined (lift r).
Proof. apply disciplined_silent. reflexivity. Qed.

Lemma disciplined_mathRandom (w : World) : Disciplined (mathRandom w).
Proof. apply disciplined_silent. reflexivity. Qed.

Lemma disciplined_getOpenAIClient (w : World) : Disciplined (getOpenAIClient w).
Proof.
  apply disciplined_silent. intros st. unfold getOpenAIClient.
  destruct (hasApiKey w); reflexivity.
Qed.

Lemma disciplined_readable (keys : list string) (players : list JSON) :
  Disciplined (readable keys players).
Proof.
  apply disciplined_silent. intros st. unfold readable.
  destruct (forallb (prints keys) players); reflexivity.
Qed.

Lemma disciplined_usable {A} (field : option (list A)) : Disciplined (usable field).
Proof. apply disciplined_silent. destruct field; reflexivity. Qed.

Lemma disciplined_emit (ev : Event) :
  mismatchOf ev = None -> Disciplined (emit ev).
Proof.
  intros Hq st r st' E. exists [ev].
  unfold emit in E. injection E as <- <-. cbn.
  split; [reflexivity | apply orderly_quiet, Hq].
Qed.

Lemma disciplined_bind {A B} (m : M A) (k : A -> M B) :
  Disciplined m -> (forall a, Disciplined (k a)) -> Disciplined (bind m k).
Proof.
  intros Hm Hk st r st' E. unfold bind in E.
  destruct (m st) as [[a|e] st1] eqn:Em.
  - destruct (Hm _ _ _ Em) as (evs1 & Ht1 & Ho1).
    destruct (Hk a _ _ _ E) as (evs2 & Ht2 & Ho2).
    exists (evs1 ++ evs2). split.
    + rewrite Ht2, Ht1, app_assoc. reflexivity.
    + intros p ev e' Hnth Hmis.
      destruct (Nat.lt_ge_cases p (List.length evs1)) as [Hlt|Hge].
      * rewrite nth_error_app1 in Hnth by assumption.
        destruct (Ho1 _ _ _ Hnth Hmis) as [_ Habs]. discriminate Habs.
      * rewrite nth_error_app2 in Hnth by assumption.
        destruct (Ho2 _ _ _ Hnth Hmis) as [Hlen Hr].
        split; [|assumption].
        rewrite length_app. lia.
  - injection E as <- <-.
    destruct (Hm _ _ _ Em) as (evs1 & Ht1 & Ho1).
    exists evs1. split; [assumption|].
    intros p ev e' Hnth Hmis.
    destruct (Ho1 _ _ _ Hnth Hmis) as [Hlen Hr].
    split; [assumption|]. injection Hr as ->. reflexivity.
Qed.

(** A generation call outside the batches is never a mismatch. *)
Lemma disciplined_complete (w : World) (stage : Stage) :
  (forall answer, mismatchOf (Generate stage answer) = None) ->
  Disciplined (complete w stage).
Proof.
  intros Hq st r st' E.
  exists [Generate stage (completion w (nextCompletion st))].
  split.
  - unfold complete in E.
    destruct (completion w (nextCompletion st)) as [s| |reason];
      [destruct (String.eqb s "")| |]; injection E as <- <-; reflexivity.
  - apply orderly_quiet, Hq.
Qed.

Create HintDb discipline.

#[local] Hint Resolve disciplined_ret disciplined_throw disciplined_lift
  disciplined_mathRandom disciplined_getOpenAIClient disciplined_readable
  disciplined_usable : discipline.

(** Splits a sequence of binds, closing each step with the hints. *)
Ltac discipline :=
  repeat (apply disciplined_bind; [auto with discipline | intros ?]);
  auto with discipline.

Lemma disciplined_assignRoles (w : World) (n : Z) : Disciplined (assignRoles w n).
Proof.
  unfold assignRoles.
  apply disciplined_bind; [auto with discipline|intros r1].
  apply disciplined_bind; [auto with discipline|intros r2].
  destruct (below03 r2); discipline.
Qed.

Lemma disciplined_core (w : World) (d : Z) :
  Disciplined (generateImpostorCaseCore w d).
Proof.
  unfold generateImpostorCaseCore.
  apply disciplined_bind; [auto with discipline|intros _].
  apply disciplined_bind; [apply disciplined_complete; reflexivity|intros response].
  auto with discipline.
Qed.

Lemma disciplined_hiddenContext (w : World) (k : Z) (allPlayers : list JSON) :
  Disciplined (generateImpostorHiddenContext w k allPlayers).
Proof.
  unfold generateImpostorHiddenContext.
  apply disciplined_bind; [auto with discipline|intros _].
  apply disciplined_bind; [auto with discipline|intros _].
  apply disciplined_bind; [apply disciplined_complete; reflexivity|intros response].
  discipline.
Qed.

(** What a batch call does, case by case. *)
Lemma generatePlayersBatch_cases (w : World) (n k d : Z)
      (existing : list JSON) (batchStart batchSize : Z) (st : State) :
  let stage := Players batchSize
                 (batchIndicesOf batchStart (Z.min (batchStart + batchSize) n)) k d in
  let answer := completion w (nextCompletion st) in
  let called := mkState (nextRandom st) (S (nextCompletion st))
                        (trace st ++ [Generate stage answer]) in
  match generatePlayersBatch w n k d existing batchStart batchSize st with
  | (Ok players, st') =>
      st' = called
      /\ playersOfAnswer answer = players
      /\ Z.of_nat (List.length players) = batchSize
      /\ mismatchOf (Generate stage answer) = None
  | (Throw e, st') =>
      st' = st
      \/ (st' = called
          /\ forall e', mismatchOf (Generate stage answer) = Some e' -> e = e')
  end.
Proof.
  cbn zeta.
  unfold generatePlayersBatch, bind, getOpenAIClient, readable, complete,
    lift, ret, throw.
  destruct (hasApiKey w); [|left; reflexivity].
  destruct (forallb (prints ["name"; "role"; "description"]) existing);
    [|left; reflexivity].
  destruct (completion w (nextCompletion st)) as [s| |reason] eqn:Eanswer;
    try (right; split; [reflexivity | cbn; discriminate]).
  destruct (String.eqb_spec s "") as [->|Hs].
  - right; split; [reflexivity | cbn; discriminate].
  - unfold playersOfAnswer, mismatchOf.
    destruct (Repair.parseAndRepairJSON s) as [parsed|e0];
      [|right; split; [reflexivity | discriminate]].
    destruct (playersArray parsed) as [players|];
      [|right; split; [reflexivity | discriminate]].
    destruct (Z.of_nat (List.length players) =? batchSize) eqn:Elen; cbn.
    + repeat split. apply Z.eqb_eq, Elen.
    + right; split; [reflexivity|]. intros e' H. injection H as <-. reflexivity.
Qed.

Lemma disciplined_generatePlayersBatch (w : World) (n k d : Z)
      (existing : list JSON) (batchStart batchSize : Z) :
  Disciplined (generatePlayersBatch w n k d existing batchStart batchSize).
Proof.
  intros st r st' E.
  pose proof (generatePlayersBatch_cases w n k d existing batchStart batchSize st) as H.
  cbn zeta in H. rewrite E in H.
  destruct r as [players|e].
  - destruct H as (-> & _ & _ & Hq). eexists. split; [reflexivity|].
    apply orderly_quiet, Hq.
  - destruct H as [->|[-> Hmis]].
    + exists []. rewrite app_nil_r. split; [reflexivity|apply orderly_nil].
    + eexists. split; [reflexivity|].
      intros [|[|p]] ev e' Hnth Hm; try discriminate Hnth.
      injection Hnth as <-. split; [reflexivity|].
      rewrite (Hmis _ Hm). reflexivity.
Qed.

Lemma disciplined_generateAllPlayers (w : World) (n k d : Z) (starts : list Z) :
  forall allPlayers, Disciplined (generateAllPlayers w n k d starts allPlayers).
Proof.
  induction starts as [|batchStart rest IH]; intros allPlayers; cbn.
  - apply disciplined_ret.
  - apply disciplined_bind; [apply disciplined_generatePlayersBatch|].
    intros batch. apply IH.
Qed.

#[local] Hint Resolve disciplined_assignRoles disciplined_core
  disciplined_hiddenContext disciplined_generateAllPlayers : discipline.

Lemma disciplined_generateCase (w : World) (req : Request) :
  Disciplined (generateCase w req).
Proof.
  unfold generateCase.
  apply disciplined_bind; [auto with discipline|intros _].
  apply disciplined_bind; [auto with discipline|intros _].
  apply disciplined_bind; [apply disciplined_emit; reflexivity|intros _].
  apply disciplined_bind; [auto with discipline|intros selectedSuspects].
  apply disciplined_bind.
  { destruct (String.eqb (caseType req) "asesinato"); [|auto with discipline].
    apply disciplined_bind; [apply disciplined_emit; reflexivity|intros _].
    auto with discipline. }
  intros weapon.
  apply disciplined_bind; [auto with discipline|intros [k d]].
  apply disciplined_bind; [auto with discipline|intros caseCore].
  apply disciplined_bind; [auto with discipline|intros generated].
  apply disciplined_bind.
  { destruct (negb (Z.of_nat (List.length generated) =? suspects req));
      auto with discipline. }
  intros _. discipline.
Qed.

(** The three rejections of the request, and what the handler does
    otherwise. *)
Lemma handler_cases (w : World) (req : Request) :
  (exists error, handler w req = (badRequest error, initial))
  \/ handler w req
     = (match fst (generateCase w req initial) with
        | Ok doc => mkResponse 200 (CaseBody doc)
        | Throw e => failure e
        end, snd (generateCase w req initial)).
Proof.
  unfold handler.
  destruct (String.eqb (caseType req) "" || (suspects req =? 0) || (clues req =? 0)
            || String.eqb (difficulty req) ""); [left; eauto|].
  destruct (Reconciler.nonEmpty (scenario req)
            && match customScenario req with Some _ => true | None => false end);
    [left; eauto|].
  destruct (String.eqb (scenario req) ""
            && match customScenario req with Some _ => false | None => true end);
    [left; eauto|].
  right. destruct (generateCase w req initial) as [[doc|e] st]; reflexivity.
Qed.

(** C8: whenever a batch call that asked for exactly [k] players gets
    an answer whose players array has another length, the run ends
    there: that call is the last event of the trace (no later stage runs
    and no other collaborator is called), and the response is the error
    envelope of status 500 that carries the count mismatch; it holds no
    document and no player of the batch. *)
Theorem count_mismatch_is_terminal
        (w : World) (req : Request) (p : nat) (k : Z) (batchIndices : list Z)
        (killer discoveredBy : Z) (s : string) (parsed : JSON) (l : list JSON) :
  nth_error (trace (snd (handler w req))) p
  = Some (Generate (Players k batchIndices killer discoveredBy) (Content s)) ->
  Repair.parseAndRepairJSON s = Ok parsed ->
  playersArray parsed = Some l ->
  Z.of_nat (List.length l) <> k ->
  fst (handler w req) = failure (BatchCountMismatch (Z.of_nat (List.length l)) k)
  /\ List.length (trace (snd (handler w req))) = S p
  /\ playersOfResponse (fst (handler w req)) = [].
Proof.
  intros Hnth Hparse Hplayers Hlen.
  assert (Hmis : mismatchOf (Generate (Players k batchIndices killer discoveredBy)
                                      (Content s))
                 = Some (BatchCountMismatch (Z.of_nat (List.length l)) k)).
  { cbn. rewrite Hparse, Hplayers.
    destruct (Z.eqb_spec (Z.of_nat (List.length l)) k); [contradiction|reflexivity]. }
  destruct (handler_cases w req) as [[error E]|E]; rewrite E in *; cbn [fst snd] in *.
  - destruct p; discriminate Hnth.
  - destruct (generateCase w req initial) as [r st] eqn:Erun.
    destruct (disciplined_generateCase w req _ _ _ Erun) as (evs & Htrace & Hord).
    cbn [fst snd] in *. cbn in Htrace. rewrite Htrace in *.
    destruct (Hord _ _ _ Hnth Hmis) as [Hlast ->].
    repeat split. symmetry. exact Hlast.
Qed.

End DisciplineFacts.

(* ================================================================== *)
(** ** Successful runs of the handler *)

Module RunFacts.
Import Json Value Catalog Pipeline Spec.

#[local] Open Scope pipeline_scope.

Lemma bind_ok {A B} (m : M A) (k : A -> M B) (st st' : State) (b : B) :
  bind m k st = (Ok b, st') ->
  exists a st1, m st = (Ok a, st1) /\ k a st1 = (Ok b, st').
Proof.
  unfold bind. destruct (m st) as [[a|e] st1]; [eauto|discriminate].
Qed.

Lemma lift_ok {A} (r : Result A) (st st' : State) (a : A) :
  lift r st = (Ok a, st') -> r = Ok a /\ st' = st.
Proof. unfold lift. intros H. injection H as -> ->. auto. Qed.

Lemma usable_ok {A} (field : option (list A)) (st st' : State) (u : unit) :
  usable field st = (Ok u, st') -> st' = st /\ field <> None.
Proof.
  unfold usable. destruct field; [|discriminate].
  unfold ret. intros H. injection H as _ <-. split; [reflexivity|discriminate].
Qed.

(** *** The indices that the batches list *)

Lemma indicesFrom_S (a : Z) (n : nat) :
  indicesFrom a (S n) = a :: indicesFrom (a + 1) n.
Proof.
  unfold indicesFrom. cbn [seq map].
  change (Z.of_nat 0) with 0. rewrite Z.add_0_r. f_equal.
  rewrite <- seq_shift, map_map. apply map_ext. intros i. lia.
Qed.

Lemma indicesFrom_app (a : Z) (x y : nat) :
  indicesFrom a (x + y) = indicesFrom a x ++ indicesFrom (a + Z.of_nat x) y.
Proof.
  revert a. induction x as [|x IH]; intros a.
  - change (Z.of_nat 0) with 0. rewrite Z.add_0_r. reflexivity.
  - cbn [Nat.add]. rewrite !indicesFrom_S, IH. cbn [app].
    replace (a + 1 + Z.of_nat x) with (a + Z.of_nat (S x)) by lia. reflexivity.
Qed.

Lemma batchIndicesOf_indicesFrom (batchStart batchEnd : Z) :
  batchIndicesOf batchStart batchEnd
  = indicesFrom (batchStart + 1) (Z.to_nat (batchEnd - batchStart)).
Proof.
  unfold batchIndicesOf, indicesFrom. apply map_ext. intros i. lia.
Qed.

Lemma indices_indicesFrom (n : Z) : indices n = indicesFrom 1 (Z.to_nat n).
Proof.
  unfold indices, indicesFrom. rewrite <- seq_shift, map_map.
  apply map_ext. intros i. lia.
Qed.

Lemma listed_from (n : Z) (count j : nat) :
  n <= 3 * Z.of_nat (j + count) ->
  (count <> 0%nat -> 3 * Z.of_nat (j + count - 1) < n) ->
  flat_map (listed n) (map (fun k => BATCH_SIZE * Z.of_nat k) (seq j count))
  = indicesFrom (3 * Z.of_nat j + 1) (Z.to_nat (n - 3 * Z.of_nat j)).
Proof.
  revert j. induction count as [|count IH]; intros j Hup Hlow.
  - cbn [seq map flat_map].
    replace (Z.to_nat (n - 3 * Z.of_nat j)) with 0%nat by lia. reflexivity.
  - cbn [seq map flat_map].
    rewrite (IH (S j)) by lia.
    unfold listed, BATCH_SIZE. rewrite batchIndicesOf_indicesFrom.
    assert (Hj : 3 * Z.of_nat j < n) by lia.
    destruct (Z_lt_le_dec (3 * Z.of_nat j + 3) n) as [Hbig|Hsmall].
    + replace (Z.min (3 * Z.of_nat j + Z.min 3 (n - 3 * Z.of_nat j)) n
               - 3 * Z.of_nat j) with 3 by lia.
      replace (Z.to_nat (n - 3 * Z.of_nat j))
        with (Z.to_nat 3 + Z.to_nat (n - 3 * Z.of_nat (S j)))%nat by lia.
      rewrite indicesFrom_app. do 2 f_equal. lia.
    + replace (Z.min (3 * Z.of_nat j + Z.min 3 (n - 3 * Z.of_nat j)) n
               - 3 * Z.of_nat j) with (n - 3 * Z.of_nat j) by lia.
      replace (Z.to_nat (n - 3 * Z.of_nat (S j))) with 0%nat by lia.
      cbn [indicesFrom seq map]. rewrite app_nil_r. reflexivity.
Qed.

(** The batches list the indices 1 to [n], each once and in order. *)
Lemma listed_all (n : Z) :
  flat_map (listed n) (batchStarts n) = indices n.
Proof.
  unfold batchStarts, BATCH_SIZE.
  rewrite indices_indicesFrom.
  destruct (Z_le_gt_dec n 0) as [Hn|Hn].
  - replace (Z.to_nat ((n + 3 - 1) / 3)) with 0%nat
      by (assert ((n + 3 - 1) / 3 < 1) by (apply Z.div_lt_upper_bound; lia); lia).
    replace (Z.to_nat n) with 0%nat by lia. reflexivity.
  - pose proof (Z.div_mod (n + 3 - 1) 3 ltac:(lia)) as Hdiv.
    pose proof (Z.mod_pos_bound (n + 3 - 1) 3 ltac:(lia)) as Hmod.
    assert (Hq : 0 < (n + 3 - 1) / 3) by (apply Z.div_str_pos; lia).
    change (fun k : nat => 3 * Z.of_nat k) with (fun k : nat => BATCH_SIZE * Z.of_nat k).
    rewrite listed_from.
    + change (Z.of_nat 0) with 0. rewrite Z.mul_0_r, Z.sub_0_r. reflexivity.
    + rewrite Nat.add_0_l, Z2Nat.id by lia. lia.
    + intros _. rewrite Nat.add_0_l.
      rewrite Nat2Z.inj_sub by lia. rewrite Z2Nat.id by lia.
      change (Z.of_nat 1) with 1. lia.
Qed.

(** *** The batch loop *)

Lemma generatedPlayers_app (a b : list Event) :
  generatedPlayers (a ++ b) = generatedPlayers a ++ generatedPlayers b.
Proof. apply flat_map_app. Qed.

Lemma announcedIndices_app (a b : list Event) :
  announcedIndices (a ++ b) = announcedIndices a ++ announcedIndices b.
Proof. apply flat_map_app. Qed.

Lemma generateAllPlayers_ok (w : World) (n k d : Z) (starts : list Z) :
  forall (allPlayers result : list JSON) (st st' : State),
    generateAllPlayers w n k d starts allPlayers st = (Ok result, st') ->
    exists evs,
      trace st' = trace st ++ evs
      /\ result = allPlayers ++ generatedPlayers evs
      /\ announcedIndices evs = flat_map (listed n) starts
      /\ Forall (fun ev => killerTold ev = Some k) evs.
Proof.
  induction starts as [|batchStart rest IH]; intros allPlayers result st st'; cbn.
  - unfold ret. intros H. injection H as <- <-. exists [].
    rewrite !app_nil_r. repeat split. constructor.
  - intros H. apply bind_ok in H as (batch & st1 & Hbatch & Hrest).
    pose proof (DisciplineFacts.generatePlayersBatch_cases
                  w n k d allPlayers batchStart
                  (Z.min BATCH_SIZE (n - batchStart)) st) as Hcases.
    cbn zeta in Hcases. rewrite Hbatch in Hcases.
    destruct Hcases as (-> & Hplayers & _ & _).
    destruct (IH _ _ _ _ Hrest) as (evs & Htrace & Hresult & Hidx & Hkiller).
    eexists (_ :: evs). split; [|split; [|split]].
    + rewrite Htrace. cbn [trace]. rewrite <- app_assoc. reflexivity.
    + rewrite Hresult, <- app_assoc. cbn [generatedPlayers flat_map generatedBy].
      rewrite Hplayers. reflexivity.
    + cbn [announcedIndices flat_map announcedBy]. fold (announcedIndices evs).
      rewrite Hidx. reflexivity.
    + constructor; [reflexivity|assumption].
Qed.

(** *** The whole run *)

Lemma assignRoles_ok (w : World) (n : Z) (st st' : State) (k d : Z) :
  assignRoles w n st = (Ok (k, d), st') ->
  k = floorTimes (random w (nextRandom st)) n + 1 /\ trace st' = trace st.
Proof.
  unfold assignRoles, bind, mathRandom, ret. cbn.
  destruct (below03 (random w (S (nextRandom st))));
    intros H; injection H as <- _ <-; auto.
Qed.

Lemma core_ok (w : World) (d : Z) (st st' : State) (caseCore : JSON) :
  generateImpostorCaseCore w d st = (Ok caseCore, st') ->
  exists answer, trace st' = trace st ++ [Generate (Core d) answer].
Proof.
  unfold generateImpostorCaseCore, bind, getOpenAIClient, complete, lift, ret, throw.
  destruct (hasApiKey w); [|discriminate].
  destruct (completion w (nextCompletion st)) as [s| |reason]; try discriminate.
  destruct (String.eqb s ""); [discriminate|].
  destruct (Repair.parseAndRepairJSON s); [|discriminate].
  intros H. injection H as _ <-. eexists. reflexivity.
Qed.

Lemma hiddenContext_ok (w : World) (k : Z) (allPlayers : list JSON)
      (st st' : State) (hidden : option JSON) :
  generateImpostorHiddenContext w k allPlayers st = (Ok hidden, st') ->
  exists answer, trace st' = trace st ++ [Generate (HiddenContext k) answer].
Proof.
  unfold generateImpostorHiddenContext, bind, getOpenAIClient, readable,
    complete, lift, ret, throw.
  destruct (hasApiKey w); [|discriminate].
  destruct (forallb (prints ["name"; "id"; "role"]) allPlayers); [|discriminate].
  destruct (completion w (nextCompletion st)) as [s| |reason]; try discriminate.
  destruct (String.eqb s ""); [discriminate|].
  destruct (Repair.parseAndRepairJSON s) as [parsed|]; [|discriminate].
  destruct (get parsed "hiddenContext"); [|discriminate].
  intros H. injection H as _ <-. eexists. reflexivity.
Qed.

Lemma stampKillerId_ok (hidden : option JSON) (id : string)
      (members : list (string * JSON)) :
  stampKillerId hidden id = Ok members ->
  lookup "killerId" members = Some (JString id).
Proof.
  unfold stampKillerId.
  destruct hidden as [[| | | | l | ms]|]; try discriminate;
    intros H; injection H as <-.
  - apply ValueFacts.lookup_last.
  - apply ValueFacts.lookup_assign_same.
Qed.

Lemma generateCase_ok (w : World) (req : Request) (doc : CaseDocument) (st : State) :
  generateCase w req initial = (Ok doc, st) -> Successful w req doc st.
Proof.
  unfold generateCase. intros H.
  apply bind_ok in H as (u1 & s0 & H0 & H). apply usable_ok in H0 as [-> _].
  apply bind_ok in H as (u2 & s0 & H0 & H). apply usable_ok in H0 as [-> _].
  apply bind_ok in H as ([] & s1 & H1 & H).
  unfold emit in H1. injection H1 as <-. cbn [nextRandom nextCompletion trace app] in H.
  apply bind_ok in H as (selectedSuspects & s2 & H2 & H).
  apply lift_ok in H2 as [Hcat ->].
  apply bind_ok in H as (weapon & s3 & H3 & H).
  assert (Hpre : nextRandom s3 = 0%nat
                 /\ exists pre, trace s3 = pre
                                /\ generatedPlayers pre = []
                                /\ announcedIndices pre = []
                                /\ Forall (fun ev => killerTold ev = None) pre).
  { destruct (String.eqb (caseType req) "asesinato").
    - apply bind_ok in H3 as ([] & s3' & H3a & H3b).
      unfold emit in H3a. injection H3a as <-.
      apply lift_ok in H3b as [_ ->]. cbn.
      split; [reflexivity|]. eexists. split; [reflexivity|].
      repeat split. repeat constructor.
    - unfold ret in H3. injection H3 as _ <-. cbn.
      split; [reflexivity|]. eexists. split; [reflexivity|].
      repeat split. repeat constructor. }
  destruct Hpre as (Hrand & pre & Hpre & Hpre_gen & Hpre_ann & Hpre_killer).
  clear H3.
  apply bind_ok in H as ([k d] & s4 & H4 & H).
  apply assignRoles_ok in H4 as [Hk Htrace4]. rewrite Hrand in Hk.
  fold (culpritIndex w req) in Hk. subst k.
  apply bind_ok in H as (caseCore & s5 & H5 & H).
  apply core_ok in H5 as (coreAnswer & Htrace5).
  apply bind_ok in H as (generated & s6 & H6 & H).
  apply generateAllPlayers_ok in H6 as (evs & Htrace6 & Hgen & Hann & Hkiller).
  cbn [app] in Hgen.
  apply bind_ok in H as ([] & s7 & H7 & H).
  destruct (Z.eqb_spec (Z.of_nat (List.length generated)) (suspects req)) as [Hcount|];
    [|discriminate H7].
  unfold ret in H7. cbn in H7. injection H7 as <-.
  apply bind_ok in H as (named0 & s8 & H8 & H). apply lift_ok in H8 as [Hnames ->].
  apply bind_ok in H as (allPlayers & s9 & H9 & H). apply lift_ok in H9 as [Hphotos ->].
  apply bind_ok in H as (hidden & s10 & H10 & H).
  apply hiddenContext_ok in H10 as (hiddenAnswer0 & Htrace10).
  apply bind_ok in H as (members & s11 & H11 & H). apply lift_ok in H11 as [Hstamp ->].
  apply bind_ok in H as (coreWeapon & s12 & H12 & H). apply lift_ok in H12 as [_ ->].
  apply bind_ok in H as (title & s13 & H13 & H). apply lift_ok in H13 as [_ ->].
  apply bind_ok in H as (description & s14 & H14 & H). apply lift_ok in H14 as [_ ->].
  apply bind_ok in H as (vict & s15 & H15 & H). apply lift_ok in H15 as [_ ->].
  unfold ret in H. injection H as <- <-.
  subst generated.
  exists selectedSuspects, named0, (pre ++ [Generate (Core d) coreAnswer]), evs,
    hiddenAnswer0.
  repeat match goal with |- _ /\ _ => split end.
  - exact Hcat.
  - rewrite Htrace10, Htrace6, Htrace5, Htrace4, Hpre.
    rewrite <- !app_assoc. reflexivity.
  - rewrite generatedPlayers_app, Hpre_gen. reflexivity.
  - rewrite announcedIndices_app, Hpre_ann. reflexivity.
  - apply Forall_app. split; [assumption|repeat constructor].
  - rewrite Hann. apply listed_all.
  - exact Hkiller.
  - exact Hcount.
  - exact Hnames.
  - exact Hphotos.
  - cbn [hiddenContext]. eapply stampKillerId_ok, Hstamp.
Qed.

Lemma handler_ok (w : World) (req : Request) (doc : CaseDocument) (st : State) :
  handler w req = (mkResponse 200 (CaseBody doc), st) -> Successful w req doc st.
Proof.
  intros H. apply generateCase_ok.
  destruct (DisciplineFacts.handler_cases w req) as [[error E]|E];
    rewrite E in H; [discriminate H|].
  destruct (generateCase w req initial) as [[doc'|e] st'];
    cbn [fst snd] in H; [|discriminate H].
  injection H as -> ->. reflexivity.
Qed.

(** What the trace of a successful run says. *)
Lemma successful_generated (w : World) (req : Request) (doc : CaseDocument)
      (st : State) :
  Successful w req doc st ->
  exists named selected,
    applyNames (generatedPlayers (trace st)) (map normaliseName (playerNames req))
    = Ok named
    /\ suspectsForScene w = Ok selected
    /\ Reconciler.matchPhotos named selected = Ok (players doc)
    /\ Z.of_nat (List.length (generatedPlayers (trace st))) = suspects req.
Proof.
  intros (selected & named & before & batches & hiddenAnswer & Hcat & Htrace
          & Hgen & _ & _ & _ & _ & Hcount & Hnames & Hphotos & _).
  assert (E : generatedPlayers (trace st) = generatedPlayers batches).
  { rewrite Htrace, !generatedPlayers_app, Hgen. cbn. rewrite app_nil_r. reflexivity. }
  rewrite E. eauto 6.
Qed.

Lemma successful_announced (w : World) (req : Request) (doc : CaseDocument)
      (st : State) :
  Successful w req doc st ->
  announcedIndices (trace st) = indices (suspects req).
Proof.
  intros (selected & named & before & batches & hiddenAnswer & _ & Htrace
          & _ & Hann & _ & Hbatches & _).
  rewrite Htrace, !announcedIndices_app, Hann, Hbatches.
  cbn. rewrite app_nil_r. reflexivity.
Qed.

Lemma successful_killer (w : World) (req : Request) (doc : CaseDocument)
      (st : State) (ev : Event) (k : Z) :
  Successful w req doc st ->
  In ev (trace st) -> killerTold ev = Some k -> k = culpritIndex w req.
Proof.
  intros (selected & named & before & batches & hiddenAnswer & _ & Htrace
          & _ & _ & Hbefore & _ & Hbatches & _).
  rewrite Htrace. intros Hin Hk.
  apply in_app_or in Hin as [Hin|Hin].
  - pose proof (proj1 (Forall_forall _ _) Hbefore _ Hin) as H.
    cbv beta in H. congruence.
  - apply in_app_or in Hin as [Hin|[<-|[]]].
    + pose proof (proj1 (Forall_forall _ _) Hbatches _ Hin) as H.
      cbv beta in H. congruence.
    + cbn in Hk. congruence.
Qed.

Lemma successful_killerId (w : World) (req : Request) (doc : CaseDocument)
      (st : State) :
  Successful w req doc st ->
  killerIdOf doc = Some (JString (playerId (culpritIndex w req))).
Proof.
  intros (selected & named & before & batches & hiddenAnswer & H).
  unfold killerIdOf. apply H.
Qed.

Lemma successful_untouched (w : World) (req : Request) (doc : CaseDocument)
      (st : State) (key : string) :
  Successful w req doc st ->
  key <> "name" -> key <> "photo" ->
  map (fun p => prop p key) (players doc)
  = map (fun p => prop p key) (generatedPlayers (trace st)).
Proof.
  intros S Hname Hphoto.
  destruct (successful_generated _ _ _ _ S) as (named & selected & Hnames & _ & Hphotos & _).
  rewrite (ReconcilerFacts.matchAll_other _ key Hphoto _ _ _ Hphotos).
  apply (ReconcilerFacts.applyNames_other key Hname _ _ _ Hnames).
Qed.

Lemma successful_length (w : World) (req : Request) (doc : CaseDocument)
      (st : State) :
  Successful w req doc st ->
  Z.of_nat (List.length (players doc)) = suspects req.
Proof.
  intros S.
  destruct (successful_generated _ _ _ _ S) as (named & selected & Hnames & _ & Hphotos & Hcount).
  rewrite (ReconcilerFacts.matchAll_length _ _ _ _ Hphotos).
  rewrite (ReconcilerFacts.applyNames_length _ _ _ Hnames). exact Hcount.
Qed.

(** A successful run asked for at least one player. *)
Lemma handler_ok_positive (w : World) (req : Request) (doc : CaseDocument)
      (st : State) :
  handler w req = (mkResponse 200 (CaseBody doc), st) -> 0 < suspects req.
Proof.
  intros H.
  pose proof (successful_length _ _ _ _ (handler_ok _ _ _ _ H)) as Hlen.
  assert (Hnz : suspects req <> 0).
  { intros Hz. unfold handler in H. rewrite Hz in H.
    rewrite Z.eqb_refl, orb_true_r in H. cbn in H. discriminate H. }
  lia.
Qed.

End RunFacts.

(* ================================================================== *)
(** ** The invariants of a finished document *)

Module DocumentFacts.
Import Json Value Catalog Pipeline Spec Scenario.

(** C1 as stated fails: a generation service that marks nobody as the
    killer gets its players into a finished document. *)
Lemma no_culprit_document :
  exists doc st,
    handler driftingWorld twoPlayers = (mkResponse 200 (CaseBody doc), st)
    /\ ~ singleCulprit doc.
Proof.
  do 2 eexists. split; [vm_compute; reflexivity|].
  intros (p & H & _). vm_compute in H. discriminate H.
Qed.

(** C1, amended: in every finished document [hiddenContext.killerId] is
    the identifier of the culprit index that the handler draws, between 1
    and the number of players, before any generation call, and every
    generation call that is told a killer is told that index; the
    [isKiller] flags of the players are the ones the generation service
    returned, which the handler neither checks nor rewrites.  (The first
    value of [Math.random] lies in [0, 1).) *)
Theorem killer_id_is_preselected
        (w : World) (req : Request) (doc : CaseDocument) (st : State) :
  0 <= random w 0 < 2 ^ 53 ->
  handler w req = (mkResponse 200 (CaseBody doc), st) ->
  1 <= culpritIndex w req <= suspects req
  /\ killerIdOf doc = Some (JString (playerId (culpritIndex w req)))
  /\ (forall ev k, In ev (trace st) -> killerTold ev = Some k ->
                   k = culpritIndex w req)
  /\ map isKillerOf (players doc) = map isKillerOf (generatedPlayers (trace st)).
Proof.
  intros Hrandom H.
  pose proof (RunFacts.handler_ok_positive _ _ _ _ H) as Hpos.
  apply RunFacts.handler_ok in H.
  split; [|split; [|split]].
  - pose proof (FloatFacts.floorTimes_range _ _ Hrandom Hpos).
    unfold culpritIndex. lia.
  - eapply RunFacts.successful_killerId, H.
  - intros ev k. eapply RunFacts.successful_killer, H.
  - apply (RunFacts.successful_untouched _ _ _ _ "isKiller" H); discriminate.
Qed.

Lemma killer_id_is_preselected_witness :
  exists doc st,
    0 <= random driftingWorld 0 < 2 ^ 53
    /\ handler driftingWorld twoPlayers = (mkResponse 200 (CaseBody doc), st)
    /\ (1 <= culpritIndex driftingWorld twoPlayers <= suspects twoPlayers
        /\ killerIdOf doc
           = Some (JString (playerId (culpritIndex driftingWorld twoPlayers)))
        /\ (forall ev k, In ev (trace st) -> killerTold ev = Some k ->
                         k = culpritIndex driftingWorld twoPlayers)
        /\ map isKillerOf (players doc)
           = map isKillerOf (generatedPlayers (trace st))).
Proof.
  do 2 eexists.
  split; [vm_compute; split; [discriminate|reflexivity]|].
  split; [vm_compute; reflexivity|].
  apply (killer_id_is_preselected driftingWorld twoPlayers).
  - vm_compute. split; [discriminate|reflexivity].
  - vm_compute. reflexivity.
Defined.

(** C2 as stated fails: the identifiers of the returned players are the
    ones the generation service wrote, here [player-7] twice. *)
Lemma duplicate_identifiers_document :
  exists doc st,
    handler driftingWorld twoPlayers = (mkResponse 200 (CaseBody doc), st)
    /\ map idOf (players doc) = [Some (JString "player-7"); Some (JString "player-7")]
    /\ map idOf (players doc) <> expectedIds (suspects twoPlayers).
Proof.
  do 2 eexists. split; [vm_compute; reflexivity|].
  split; [reflexivity|]. vm_compute. discriminate.
Qed.

(** C2, amended: every successful run that asks for N players returns
    exactly N players, and the indices that the orchestrator computes
    and lists to the generation service, batch after batch, are exactly
    1, ..., N in order, without duplicate and without gap; the [id] of
    each returned player is the one the generation service wrote, which
    the handler neither checks nor rewrites. *)
Theorem identifiers_listed_not_enforced
        (w : World) (req : Request) (doc : CaseDocument) (st : State) :
  handler w req = (mkResponse 200 (CaseBody doc), st) ->
  Z.of_nat (List.length (players doc)) = suspects req
  /\ announcedIndices (trace st) = indices (suspects req)
  /\ map idOf (players doc) = map idOf (generatedPlayers (trace st)).
Proof.
  intros H. apply RunFacts.handler_ok in H.
  split; [|split].
  - eapply RunFacts.successful_length, H.
  - eapply RunFacts.successful_announced, H.
  - apply (RunFacts.successful_untouched _ _ _ _ "id" H); discriminate.
Qed.

Lemma identifiers_listed_not_enforced_witness :
  exists doc st,
    handler driftingWorld twoPlayers = (mkResponse 200 (CaseBody doc), st)
    /\ (Z.of_nat (List.length (players doc)) = suspects twoPlayers
        /\ announcedIndices (trace st) = indices (suspects twoPlayers)
        /\ map idOf (players doc) = map idOf (generatedPlayers (trace st))).
Proof.
  do 2 eexists. split; [vm_compute; reflexivity|].
  apply (identifiers_listed_not_enforced driftingWorld twoPlayers).
  vm_compute. reflexivity.
Defined.

(** C9: two runs of the handler that get the same generated players
    and the same catalog records, in the same order, give every player
    the same photo, whatever their random draws, their names and the
    other answers of the generation service are. *)
Theorem photo_matching_is_deterministic
        (w1 w2 : World) (req1 req2 : Request)
        (doc1 doc2 : CaseDocument) (st1 st2 : State) :
  handler w1 req1 = (mkResponse 200 (CaseBody doc1), st1) ->
  handler w2 req2 = (mkResponse 200 (CaseBody doc2), st2) ->
  generatedPlayers (trace st1) = generatedPlayers (trace st2) ->
  suspectsForScene w1 = suspectsForScene w2 ->
  map photoOf (players doc1) = map photoOf (players doc2).
Proof.
  intros H1 H2 Hgen Hcat.
  apply RunFacts.handler_ok, RunFacts.successful_generated in H1, H2.
  destruct H1 as (named1 & selected1 & Hn1 & Hc1 & Hp1 & _).
  destruct H2 as (named2 & selected2 & Hn2 & Hc2 & Hp2 & _).
  rewrite Hgen in Hn1.
  assert (selected1 = selected2) as -> by congruence.
  exact (ReconcilerFacts.photos_independent_of_names _ _ _ _ _ _ _ _ Hn1 Hn2 Hp1 Hp2).
Qed.

Lemma photo_matching_is_deterministic_witness :
  exists doc1 doc2 st1 st2,
    handler driftingWorld twoPlayers = (mkResponse 200 (CaseBody doc1), st1)
    /\ handler otherWorld twoPlayers = (mkResponse 200 (CaseBody doc2), st2)
    /\ generatedPlayers (trace st1) = generatedPlayers (trace st2)
    /\ suspectsForScene driftingWorld = suspectsForScene otherWorld
    /\ map photoOf (players doc1) = map photoOf (players doc2).
Proof.
  do 4 eexists.
  split; [vm_compute; reflexivity|].
  split; [vm_compute; reflexivity|].
  split; [vm_compute; reflexivity|].
  split; [reflexivity|].
  eapply (photo_matching_is_deterministic driftingWorld otherWorld twoPlayers twoPlayers).
  - vm_compute. reflexivity.
  - vm_compute. reflexivity.
  - vm_compute. reflexivity.
  - reflexivity.
Defined.

End DocumentFacts.

(* ================================================================== *)
(** ** The failures of the handler *)

Module FailureFacts.
Import Json Value Catalog Pipeline Spec Scenario.

(** What the caller reads in the envelope of a count mismatch. *)
Example count_mismatch_message :
  message (BatchCountMismatch 1 2)
  = Some "AI generated 1 players but 2 were requested for this batch".
Proof. reflexivity. Qed.

Lemma count_mismatch_is_terminal_witness :
  nth_error (trace (snd (handler shortWorld twoPlayers))) 2
  = Some (Generate (Players 2 [1; 2] 1 1) (Content shortAnswer))
  /\ Repair.parseAndRepairJSON shortAnswer
     = Ok (JObject [("players",
                     JArray [JObject [("id", JString "player-1");
                                      ("isKiller", JBool true)]])])
  /\ Z.of_nat (List.length [JObject [("id", JString "player-1"); ("isKiller", JBool true)]])
     <> 2
  /\ fst (handler shortWorld twoPlayers) = failure (BatchCountMismatch 1 2)
  /\ List.length (trace (snd (handler shortWorld twoPlayers))) = 3%nat
  /\ playersOfResponse (fst (handler shortWorld twoPlayers)) = [].
Proof.
  split; [vm_compute; reflexivity|].
  split; [vm_compute; reflexivity|].
  split; [vm_compute; discriminate|].
  apply (DisciplineFacts.count_mismatch_is_terminal
           shortWorld twoPlayers 2 2 [1; 2] 1 1 shortAnswer
           (JObject [("players",
                      JArray [JObject [("id", JString "player-1");
                                       ("isKiller", JBool true)]])])
           [JObject [("id", JString "player-1"); ("isKiller", JBool true)]]).
  - vm_compute. reflexivity.
  - vm_compute. reflexivity.
  - reflexivity.
  - vm_compute. discriminate.
Defined.

(** C10, amended: a request that provides both a scenario that is not
    the empty string and a custom scenario, or neither of them, is
    answered with status 400 and an error message, and the run makes no
    call at all: no catalog query, no generation call, no random draw;
    the response carries no document.  The handler tests the scenario
    for truthiness, so that an empty string is no scenario. *)
Theorem scenario_conflict_rejected (w : World) (req : Request) :
  (scenario req <> "" /\ customScenario req <> None)
  \/ (scenario req = "" /\ customScenario req = None) ->
  (exists error,
      fst (handler w req) = mkResponse 400 (ErrorBody error None) /\ error <> "")
  /\ snd (handler w req) = initial
  /\ trace (snd (handler w req)) = []
  /\ playersOfResponse (fst (handler w req)) = [].
Proof.
  intros H. unfold handler, badRequest.
  destruct (String.eqb (caseType req) "" || (suspects req =? 0) || (clues req =? 0)
            || String.eqb (difficulty req) "").
  { cbn. repeat split. eexists. split; [reflexivity|discriminate]. }
  destruct H as [[Hs Hc]|[Hs Hc]].
  - unfold Reconciler.nonEmpty.
    destruct (String.eqb_spec (scenario req) ""); [contradiction|].
    destruct (customScenario req); [|contradiction]. cbn.
    repeat split. eexists. split; [reflexivity|discriminate].
  - rewrite Hs, Hc. cbn.
    repeat split. eexists. split; [reflexivity|discriminate].
Qed.

Lemma scenario_conflict_rejected_witness :
  ((scenario bothScenarios <> "" /\ customScenario bothScenarios <> None)
   \/ (scenario bothScenarios = "" /\ customScenario bothScenarios = None))
  /\ (exists error,
         fst (handler driftingWorld bothScenarios)
         = mkResponse 400 (ErrorBody error None) /\ error <> "")
  /\ snd (handler driftingWorld bothScenarios) = initial
  /\ trace (snd (handler driftingWorld bothScenarios)) = []
  /\ playersOfResponse (fst (handler driftingWorld bothScenarios)) = [].
Proof.
  assert (H : (scenario bothScenarios <> "" /\ customScenario bothScenarios <> None)
              \/ (scenario bothScenarios = "" /\ customScenario bothScenarios = None))
    by (left; split; discriminate).
  split; [exact H|].
  apply (scenario_conflict_rejected driftingWorld bothScenarios H).
Defined.

(** C10 as stated fails: a body that holds both fields, the scenario
    being the empty string, passes both tests and is served. *)
Lemma empty_scenario_is_served :
  scenario emptyScenario = ""
  /\ customScenario emptyScenario = Some (mkCustomScenario "jet privado" "")
  /\ status (fst (handler driftingWorld emptyScenario)) = 200
  /\ List.length (trace (snd (handler driftingWorld emptyScenario))) = 4%nat.
Proof.
  split; [reflexivity|]. split; [reflexivity|].
  split; vm_compute; reflexivity.
Qed.

End FailureFacts.

(* ================================================================== *)
(** ** More about the repair engine *)

Module TextFacts.

Lemma chars_append (a b : string) :
  JS.chars (a ++ b)%string = JS.chars a ++ JS.chars b.
Proof.
  induction a as [|x a IH]; cbn; [reflexivity|].
  unfold JS.chars in IH. rewrite IH. reflexivity.
Qed.

Lemma chars_inj (a b : string) : JS.chars a = JS.chars b -> a = b.
Proof.
  intros H. rewrite <- (JsonFacts.text_chars a), <- (JsonFacts.text_chars b), H.
  reflexivity.
Qed.

Lemma length_chars (s : string) : List.length (JS.chars s) = String.length s.
Proof. induction s as [|x s IH]; cbn; [reflexivity|]. unfold JS.chars in IH. rewrite IH. reflexivity. Qed.

Lemma chars_substring_firstn (s : string) (n : nat) :
  JS.chars (String.substring 0 n s) = firstn n (JS.chars s).
Proof.
  revert n. induction s as [|x s IH]; intros [|n]; cbn; try reflexivity.
  unfold JS.chars in IH. rewrite IH. reflexivity.
Qed.

Lemma chars_substring_skipn (s : string) (n : nat) :
  JS.chars (String.substring n (String.length s - n) s) = skipn n (JS.chars s).
Proof.
  revert n. induction s as [|x s IH]; intros [|n]; cbn [String.length Nat.sub skipn].
  - reflexivity.
  - reflexivity.
  - rewrite (chars_substring_firstn (String x s) (S (String.length s))).
    apply firstn_all2. rewrite length_chars. cbn. lia.
  - cbn [String.substring]. apply IH.
Qed.

Lemma chars_prefix (s : string) (n : Z) :
  JS.chars (JS.prefix s n) = firstn (Z.to_nat n) (JS.chars s).
Proof. apply chars_substring_firstn. Qed.

Lemma chars_suffix (s : string) (n : Z) :
  JS.chars (JS.suffix s n) = skipn (Z.to_nat n) (JS.chars s).
Proof. apply chars_substring_skipn. Qed.

Lemma chars_insertQuote (s : string) (pos : Z) :
  JS.chars (Repair.insertQuote s pos)
  = firstn (Z.to_nat pos) (JS.chars s) ++ JS.DQUOTE :: skipn (Z.to_nat pos) (JS.chars s).
Proof.
  unfold Repair.insertQuote. rewrite chars_append, chars_prefix.
  change (JS.chars (String JS.DQUOTE (JS.suffix s pos)))
    with (JS.DQUOTE :: JS.chars (JS.suffix s pos)).
  rewrite chars_suffix. reflexivity.
Qed.

Lemma prefix_suffix (s : string) (n : Z) :
  (JS.prefix s n ++ JS.suffix s n)%string = s.
Proof.
  apply chars_inj. rewrite chars_append, chars_prefix, chars_suffix.
  apply firstn_skipn.
Qed.

Lemma endsWith_chars (s : string) (c : ascii) :
  JS.endsWith s c = true <-> exists front, JS.chars s = front ++ [c].
Proof.
  unfold JS.endsWith. split.
  - destruct (rev (JS.chars s)) as [|x l] eqn:E; [discriminate|].
    intros H. apply Ascii.eqb_eq in H. subst x.
    exists (rev l). rewrite <- (rev_involutive (JS.chars s)), E. reflexivity.
  - intros [front ->]. rewrite rev_app_distr. cbn. apply Ascii.eqb_refl.
Qed.

End TextFacts.

Module RepairShape.
Import Json Repair TextFacts.

(** A text that parses and ends with a closing brace is an object. *)
Lemma finish_step_brace (st : PState) (v : JSON) :
  finish (step st "}") = Some v -> exists ms, v = JObject ms.
Proof.
  destruct st as [m stk]. destruct m; cbn.
  - discriminate.
  - discriminate.
  - destruct stk as [|[el|ms k] stk']; try discriminate.
    destruct stk'; [|discriminate]. intros H. injection H as <-. eauto.
  - discriminate.
  - discriminate.
  - unfold afterValue. cbn. unfold closeValue.
    destruct stk as [|[el|ms k] stk']; cbn; try discriminate.
    destruct stk'; [|discriminate]. intros H. injection H as <-. eauto.
  - unfold stringStep. destruct e as [| |ds]; cbn; discriminate.
  - destruct (numberOfLexeme (rev acc)) as [v0|]; [|discriminate].
    unfold afterValue. cbn. unfold closeValue.
    destruct stk as [|[el|ms k] stk']; cbn; try discriminate.
    destruct stk'; [|discriminate]. intros H. injection H as <-. eauto.
  - destruct which; do 6 (try destruct pos as [|pos]); cbn; discriminate.
  - discriminate.
Qed.

Lemma parse_closing_brace (t : string) (v : JSON) :
  JS.endsWith t "}" = true -> parse t = Some v -> exists ms, v = JObject ms.
Proof.
  intros He Hp. apply endsWith_chars in He as [front E].
  unfold parse in Hp. rewrite E, JsonFacts.run_app in Hp.
  cbn [run fold_left] in Hp. eapply finish_step_brace, Hp.
Qed.

(** *** Where the scan leaves [stringStart] *)

Lemma scanFrom_stringStart (s : string) :
  forall (i : Z) (st : Scan),
    inString (scanFrom s i st) = true ->
    (inString st = true /\ stringStart (scanFrom s i st) = stringStart st)
    \/ exists k, stringStart (scanFrom s i st) = i + Z.of_nat k
                 /\ nth_error (JS.chars s) k = Some JS.DQUOTE.
Proof.
  induction s as [|c s IH]; intros i st H; cbn in *.
  - left. split; [assumption|reflexivity].
  - destruct (IH _ _ H) as [[Hin Hss]|[k [Hss Hk]]].
    + rewrite Hss. clear Hss IH H. unfold scanStep in *.
      destruct (escapeNext st); [left; split; [exact Hin|reflexivity]|].
      destruct (Ascii.eqb c JS.BACKSLASH); [left; split; [exact Hin|reflexivity]|].
      destruct (Ascii.eqb_spec c JS.DQUOTE) as [->|];
        [|left; split; [exact Hin|reflexivity]].
      destruct (inString st); [discriminate Hin|].
      right. exists 0%nat. split; [cbn; lia|reflexivity].
    + right. exists (S k). split; [lia|exact Hk].
Qed.

(** *** [lastIndexOf] *)

Lemma lastIndexFrom_append (a b : string) (c : ascii) :
  forall i found,
    JS.lastIndexFrom (a ++ b)%string c i found
    = JS.lastIndexFrom b c (i + JS.len a) (JS.lastIndexFrom a c i found).
Proof.
  induction a as [|x a IH]; intros i found; cbn.
  - f_equal. unfold JS.len. cbn. lia.
  - rewrite IH. f_equal. unfold JS.len. cbn [String.length]. lia.
Qed.

Lemma lastIndexFrom_bound (s : string) (c : ascii) :
  forall i found,
    found < i -> JS.lastIndexFrom s c i found < i + JS.len s.
Proof.
  unfold JS.len.
  induction s as [|x s IH]; intros i found H; cbn [JS.lastIndexFrom String.length].
  - lia.
  - destruct (Ascii.eqb x c).
    + specialize (IH (i + 1) i ltac:(lia)). lia.
    + specialize (IH (i + 1) found ltac:(lia)). lia.
Qed.

Lemma string_of_chars (s : string) (l : list ascii) :
  JS.chars s = l -> s = JS.text l.
Proof. intros <-. symmetry. apply JsonFacts.text_chars. Qed.

Lemma text_app (a b : list ascii) :
  JS.text (a ++ b) = (JS.text a ++ JS.text b)%string.
Proof. induction a as [|x a IH]; cbn; [reflexivity|]. unfold JS.text in IH. rewrite IH. reflexivity. Qed.

Lemma len_text (l : list ascii) : JS.len (JS.text l) = Z.of_nat (List.length l).
Proof.
  unfold JS.len. rewrite <- length_chars, JsonFacts.chars_text. reflexivity.
Qed.

Lemma lastIndexOf_last (front : list ascii) (c : ascii) :
  JS.lastIndexOf (JS.text (front ++ [c])) c = Z.of_nat (List.length front).
Proof.
  unfold JS.lastIndexOf. rewrite text_app, lastIndexFrom_append. cbn.
  rewrite Ascii.eqb_refl, len_text. lia.
Qed.

(** *** The string repair keeps the closing brace *)

Lemma endsWith_insert (front : list ascii) (c : ascii) (s : string) (pos : Z) :
  JS.chars s = front ++ [c] ->
  pos <= Z.of_nat (List.length front) ->
  JS.endsWith (insertQuote s pos) c = true.
Proof.
  intros E Hpos. apply endsWith_chars.
  rewrite chars_insertQuote, E.
  rewrite skipn_app.
  replace (Z.to_nat pos - List.length front)%nat with 0%nat by lia.
  cbn [skipn].
  exists (firstn (Z.to_nat pos) (front ++ [c]) ++ JS.DQUOTE :: skipn (Z.to_nat pos) front).
  rewrite <- app_assoc. reflexivity.
Qed.

Lemma searchInsertPos_bound (result : string) (stringStart lastValidPos : Z) :
  forall (rest : string) (insertPos p : Z),
    searchInsertPos result stringStart lastValidPos rest insertPos = Some p ->
    p <= lastValidPos.
Proof.
  induction rest as [|char rest IH]; intros insertPos p; cbn; [discriminate|].
  destruct (Z.leb_spec insertPos lastValidPos); [|discriminate].
  destruct (isStructural char && negb (isEscapedAt result stringStart insertPos)).
  - intros Hp. injection Hp as <-. assumption.
  - apply IH.
Qed.

Lemma fixUnterminatedStrings_keeps_brace (t : string) :
  JS.endsWith t "}" = true -> JS.endsWith (fixUnterminatedStrings t) "}" = true.
Proof.
  intros He. pose proof He as He'. apply endsWith_chars in He' as [front E].
  unfold fixUnterminatedStrings.
  destruct (inString (scanFrom t 0 scanInit)) eqn:Ein; [|exact He].
  destruct (Z.leb_spec 0 (stringStart (scanFrom t 0 scanInit))) as [H0|]; [|exact He].
  cbn [andb].
  destruct (scanFrom_stringStart t 0 scanInit Ein) as [[Habs _]|[k [Hss Hk]]];
    [discriminate Habs|].
  assert (Hlast : JS.lastIndexOf t "}" = Z.of_nat (List.length front)).
  { rewrite (string_of_chars t _ E). apply lastIndexOf_last. }
  assert (Hlen : JS.len t = Z.of_nat (List.length front) + 1).
  { unfold JS.len. rewrite <- length_chars, E, length_app. cbn. lia. }
  pose proof (lastIndexFrom_bound t "]" 0 (-1) ltac:(lia)) as Hbr.
  fold (JS.lastIndexOf t "]") in Hbr.
  set (lastValidPos := Z.max (Z.max (JS.lastIndexOf t "}") (JS.lastIndexOf t "]")) 0).
  assert (Hlvp : lastValidPos = Z.of_nat (List.length front)) by (subst lastValidPos; lia).
  assert (Hk' : (k < List.length front)%nat).
  { assert (Hlt : (k < List.length (JS.chars t))%nat)
      by (apply nth_error_Some; rewrite Hk; discriminate).
    rewrite E, length_app in Hlt. cbn in Hlt.
    destruct (Nat.eq_dec k (List.length front)) as [->|]; [|lia].
    rewrite E, nth_error_app2, Nat.sub_diag in Hk by lia. discriminate Hk. }
  rewrite Hss in *. cbn [Z.add] in *.
  destruct (Z.ltb_spec (Z.of_nat k) lastValidPos); [|lia].
  destruct (searchInsertPos t (Z.of_nat k) lastValidPos
              (JS.suffix t (Z.of_nat k + 1)) (Z.of_nat k + 1)) as [p|] eqn:Es.
  - apply searchInsertPos_bound in Es.
    apply (endsWith_insert front); [exact E|lia].
  - destruct (Z.gtb_spec lastValidPos (Z.of_nat k)); [|exact He].
    apply (endsWith_insert front); [exact E|lia].
Qed.

Lemma closeObject_brace (t t' : string) :
  closeObject t = Ok t' -> JS.endsWith t' "}" = true.
Proof.
  unfold closeObject.
  destruct (JS.endsWith t "}") eqn:E.
  - intros H. injection H as <-. exact E.
  - match goal with |- (if JS.endsWith ?x _ then _ else _) = _ -> _ =>
      destruct (JS.endsWith x "}") eqn:E2 end; [|discriminate].
    intros H. injection H as <-. exact E2.
Qed.

Lemma balanceQuotes_brace (t t' : string) :
  JS.endsWith t "}" = true -> balanceQuotes t = Ok t' -> JS.endsWith t' "}" = true.
Proof.
  intros He. unfold balanceQuotes.
  destruct (evenQuotes t).
  - intros H. injection H as <-. exact He.
  - destruct (evenQuotes (fixUnterminatedStrings t)); [|discriminate].
    intros H. injection H as <-. apply fixUnterminatedStrings_keeps_brace, He.
Qed.

(** X1: whatever the engine returns is a JSON object: a text that it
    accepts never yields an array, a string, a number, a boolean or
    [null], so that the property reads of its callers ([parsed.players],
    [parsed.hiddenContext], [caseCore.weapon]) never meet a primitive. *)
Theorem repaired_value_is_object (response : string) (v : JSON) :
  parseAndRepairJSON response = Ok v -> exists ms, v = JObject ms.
Proof.
  unfold parseAndRepairJSON.
  destruct (closeObject (JS.trim response)) as [t1|] eqn:E1; [|discriminate].
  apply closeObject_brace in E1.
  destruct (balanceQuotes t1) as [t2|] eqn:E2; [|discriminate].
  apply (balanceQuotes_brace _ _ E1) in E2.
  unfold parseWithRetry.
  destruct (parse t2) as [v1|] eqn:P1.
  - intros H. injection H as <-. eapply parse_closing_brace; eassumption.
  - destruct (parse (fixUnterminatedStrings t2)) as [v2|] eqn:P2; [|discriminate].
    intros H. injection H as <-.
    eapply parse_closing_brace; [|exact P2].
    apply fixUnterminatedStrings_keeps_brace, E2.
Qed.

End RepairShape.

Module RepairMore.
Import Json Repair TextFacts RepairShape.

Lemma repaired_value_is_object_witness :
  parseAndRepairJSON (JS.dq "{'players':[]} trailing") = Ok (JObject [("players", JArray [])])
  /\ exists ms, JObject [("players", JArray [])] = JObject ms.
Proof.
  split; [reflexivity|].
  apply (repaired_value_is_object (JS.dq "{'players':[]} trailing")). reflexivity.
Defined.

(** X4: the string repair never deletes or alters a character: its
    result is the text itself, or the text with one double quote inserted
    at some position. *)
Theorem string_repair_inserts_one_quote (jsonString : string) :
  fixUnterminatedStrings jsonString = jsonString
  \/ exists a b,
       jsonString = (a ++ b)%string
       /\ fixUnterminatedStrings jsonString = (a ++ String JS.DQUOTE b)%string.
Proof.
  assert (Hins : forall pos,
             exists a b, jsonString = (a ++ b)%string
                         /\ insertQuote jsonString pos = (a ++ String JS.DQUOTE b)%string).
  { intros pos. exists (JS.prefix jsonString pos), (JS.suffix jsonString pos).
    split; [symmetry; apply prefix_suffix|reflexivity]. }
  unfold fixUnterminatedStrings.
  destruct (inString (scanFrom jsonString 0 scanInit)
            && (0 <=? stringStart (scanFrom jsonString 0 scanInit))); [|left; reflexivity].
  match goal with |- context [if ?b then _ else _] => destruct b end.
  - match goal with |- context [match ?x with _ => _ end] => destruct x end.
    + right. apply Hins.
    + match goal with |- context [if ?b then _ else _] => destruct b end.
      * right. apply Hins.
      * left. reflexivity.
  - right. exists jsonString, "". split; [|reflexivity].
    apply chars_inj. rewrite chars_append, app_nil_r. reflexivity.
Qed.

(** X5: the string repair leaves every text that [JSON.parse] accepts as
    it is, be it an object, an array or a scalar. *)
Theorem string_repair_keeps_valid_text (t : string) (v : JSON) :
  parse t = Some v -> fixUnterminatedStrings t = t.
Proof. exact (ScanFacts.fixUnterminatedStrings_valid t v). Qed.

Lemma string_repair_keeps_valid_text_witness :
  parse (JS.dq "[{'a':'x\'y'}, 'z']")
  = Some (JArray [JObject [("a", JString (JS.dq "x'y"))]; JString "z"])
  /\ fixUnterminatedStrings (JS.dq "[{'a':'x\'y'}, 'z']") = JS.dq "[{'a':'x\'y'}, 'z']".
Proof.
  split; [reflexivity|].
  apply (string_repair_keeps_valid_text
           (JS.dq "[{'a':'x\'y'}, 'z']")
           (JArray [JObject [("a", JString (JS.dq "x'y"))]; JString "z"])).
  reflexivity.
Defined.

Lemma countChar_chars (s : string) (c : ascii) :
  JS.countChar s c = 0 <-> Forall (fun x => Ascii.eqb x c = false) (JS.chars s).
Proof.
  split; [apply BalanceFacts.countChar_absent_chars|].
  induction s as [|x s IH]; cbn; [reflexivity|].
  intros H. inversion H as [|? ? Hx Hs]; subst.
  rewrite Hx. cbn. apply IH, Hs.
Qed.

Lemma trimStartChars_suffix (l : list ascii) :
  exists a, l = a ++ JS.trimStartChars l /\ Forall (fun x => JS.isWhiteSpace x = true) a.
Proof.
  induction l as [|x l IH]; cbn.
  - exists []. split; [reflexivity|constructor].
  - destruct (JS.isWhiteSpace x) eqn:E.
    + destruct IH as (a & Ha & Hws). exists (x :: a). split.
      * cbn. f_equal. exact Ha.
      * constructor; assumption.
    + exists []. split; [reflexivity|constructor].
Qed.

Lemma trimEndChars_prefix (l : list ascii) :
  exists b, l = JS.trimEndChars l ++ b /\ Forall (fun x => JS.isWhiteSpace x = true) b.
Proof.
  unfold JS.trimEndChars.
  destruct (trimStartChars_suffix (rev l)) as (a & Ha & Hws).
  exists (rev a). split.
  - rewrite <- rev_app_distr, <- Ha, rev_involutive. reflexivity.
  - apply Forall_rev, Hws.
Qed.

Lemma trim_split (s : string) :
  exists a b,
    JS.chars s = a ++ JS.chars (JS.trim s) ++ b
    /\ Forall (fun x => JS.isWhiteSpace x = true) a
    /\ Forall (fun x => JS.isWhiteSpace x = true) b.
Proof.
  unfold JS.trim. rewrite JsonFacts.chars_text.
  destruct (trimStartChars_suffix (JS.chars s)) as (a & Ha & Hwa).
  destruct (trimEndChars_prefix (JS.trimStartChars (JS.chars s))) as (b & Hb & Hwb).
  exists a, b. split; [|split; assumption].
  rewrite <- Hb. exact Ha.
Qed.

Lemma countChar_trim_absent (s : string) (c : ascii) :
  JS.countChar s c = 0 -> JS.countChar (JS.trim s) c = 0.
Proof.
  rewrite !countChar_chars.
  destruct (trim_split s) as (a & b & E & _ & _). rewrite E.
  intros H. apply Forall_app in H as [_ H]. apply Forall_app in H as [H _]. exact H.
Qed.

(** X2: a response that holds no closing brace at all (a refusal in
    prose, an object cut before its first closer) is rejected as
    incomplete: none of the repairs applies to it. *)
Theorem text_without_closing_brace_is_rejected (response : string) :
  JS.countChar response "}" = 0 ->
  parseAndRepairJSON response = Throw IncompleteJSON.
Proof.
  intros H. apply BalanceFacts.no_closing_brace_throws, countChar_trim_absent, H.
Qed.

Lemma text_without_closing_brace_is_rejected_witness :
  JS.countChar (JS.dq "{'players':[{'id':'player-1'") "}" = 0
  /\ parseAndRepairJSON (JS.dq "{'players':[{'id':'player-1'") = Throw IncompleteJSON.
Proof.
  split; [reflexivity|].
  apply (text_without_closing_brace_is_rejected (JS.dq "{'players':[{'id':'player-1'")).
  reflexivity.
Defined.

End RepairMore.

Module CutFacts.
Import Json Repair TextFacts RepairShape RepairMore.

Lemma trimStartChars_ws (a l : list ascii) :
  Forall (fun x => JS.isWhiteSpace x = true) a ->
  JS.trimStartChars (a ++ l) = JS.trimStartChars l.
Proof.
  induction 1 as [|x a Hx _ IH]; cbn; [reflexivity|]. rewrite Hx. exact IH.
Qed.

Lemma trimStartChars_head (x : ascii) (l : list ascii) :
  JS.isWhiteSpace x = false -> JS.trimStartChars (x :: l) = x :: l.
Proof. intros H. cbn. rewrite H. reflexivity. Qed.

(** The end of a text that is trimmed: after a part that ends with a
    closing brace, only a prefix of what follows is kept. *)
Lemma trimEndChars_after_brace (front rest : list ascii) :
  exists kept dropped,
    rest = kept ++ dropped
    /\ JS.trimEndChars ((front ++ ["}"%char]) ++ rest) = (front ++ ["}"%char]) ++ kept.
Proof.
  destruct (trimEndChars_prefix ((front ++ ["}"%char]) ++ rest)) as (b & Hb & Hws).
  set (P := JS.trimEndChars ((front ++ ["}"%char]) ++ rest)) in *.
  apply app_eq_app in Hb as [l [[HO Hb]|[HP HY]]].
  - exists [], rest. split; [reflexivity|]. rewrite app_nil_r.
    destruct l as [|z l _] using rev_ind; [rewrite app_nil_r in HO; congruence|].
    rewrite app_assoc in HO. apply app_inj_tail in HO as [_ <-].
    subst b. apply Forall_app in Hws as [Hws _]. apply Forall_app in Hws as [_ Hws].
    inversion Hws as [|? ? Habs _]. discriminate Habs.
  - exists l, b. split; [exact HY|exact HP].
Qed.

Lemma ws_not_brace (l : list ascii) :
  Forall (fun x => JS.isWhiteSpace x = true) l ->
  Forall (fun x => Ascii.eqb x "}" = false) l.
Proof.
  apply Forall_impl. intros x Hx.
  destruct (Ascii.eqb_spec x "}") as [->|]; [discriminate Hx|reflexivity].
Qed.

Lemma closeObject_cut (front kept : list ascii) :
  front <> [] ->
  Forall (fun x => Ascii.eqb x "}" = false) kept ->
  evenQuotes (JS.text (front ++ ["}"%char])) = true ->
  closeObject (JS.text ((front ++ ["}"%char]) ++ kept))
  = Ok (JS.text (front ++ ["}"%char])).
Proof.
  intros Hfront Hkept Heven.
  assert (Hends : JS.endsWith (JS.text (front ++ ["}"%char])) "}" = true).
  { apply endsWith_chars. exists front. apply JsonFacts.chars_text. }
  destruct kept as [|z kept _] using rev_ind.
  { rewrite app_nil_r. unfold closeObject. rewrite Hends. reflexivity. }
  unfold closeObject.
  assert (Hno : JS.endsWith (JS.text ((front ++ ["}"%char]) ++ kept ++ [z])) "}" = false).
  { unfold JS.endsWith. rewrite JsonFacts.chars_text, app_assoc, rev_app_distr. cbn.
    apply Forall_app in Hkept as [_ Hz]. inversion Hz. assumption. }
  rewrite Hno.
  assert (Hlast : JS.lastIndexOf (JS.text ((front ++ ["}"%char]) ++ kept ++ [z])) "}"
                  = Z.of_nat (List.length front)).
  { unfold JS.lastIndexOf. rewrite text_app, lastIndexFrom_append.
    rewrite BalanceFacts.lastIndexFrom_absent.
    - apply lastIndexOf_last.
    - apply countChar_chars. rewrite JsonFacts.chars_text. exact Hkept. }
  rewrite Hlast.
  destruct (Z.gtb_spec (Z.of_nat (List.length front)) 0) as [_|Habs].
  2:{ destruct front; [congruence|cbn in Habs; lia]. }
  assert (Hcut : JS.prefix (JS.text ((front ++ ["}"%char]) ++ kept ++ [z]))
                           (Z.of_nat (List.length front) + 1)
                 = JS.text (front ++ ["}"%char])).
  { apply chars_inj. rewrite chars_prefix, !JsonFacts.chars_text.
    replace (Z.to_nat (Z.of_nat (List.length front) + 1))
      with (List.length (front ++ ["}"%char]) + 0)%nat
      by (rewrite length_app; cbn; lia).
    rewrite firstn_app_2. cbn. apply app_nil_r. }
  rewrite Hcut, Heven, Hends. reflexivity.
Qed.

(** X3: text that follows the object is cut off.  When a response is a
    valid JSON object with an even number of quote characters, followed by
    any text that holds no closing brace, the engine returns the value of
    the object. *)
Theorem trailing_text_is_cut (object trailing : string) (ms : list (string * JSON)) :
  parse object = Some (JObject ms) ->
  evenQuotes object = true ->
  JS.countChar trailing "}" = 0 ->
  parseAndRepairJSON (object ++ trailing)%string = Ok (JObject ms).
Proof.
  intros Hparse Heven Htrail.
  pose proof (JsonFacts.parse_trim _ _ Hparse) as Hparse'.
  pose proof (JsonFacts.parse_object_endsWith _ _ Hparse) as Hends.
  apply endsWith_chars in Hends as [front Efront].
  destruct (trim_split object) as (a & b & Esplit & Hwa & Hwb).
  rewrite Efront in Esplit.
  assert (Hfront : front <> []).
  { intros ->. rewrite (string_of_chars _ _ Efront) in Hparse'. discriminate Hparse'. }
  assert (Etrim : JS.trim object = JS.text (front ++ ["}"%char]))
    by (apply string_of_chars, Efront).
  assert (Hhead : exists x tl, front = x :: tl /\ JS.isWhiteSpace x = false).
  { destruct front as [|x tl]; [congruence|]. exists x, tl. split; [reflexivity|].
    unfold JS.trim in Efront. rewrite JsonFacts.chars_text in Efront.
    destruct (trimEndChars_prefix (JS.trimStartChars (JS.chars object))) as (b' & Hb' & _).
    rewrite Efront in Hb'. cbn in Hb'.
    eapply JsonFacts.trimStart_head. exact Hb'. }
  destruct Hhead as (x & tl & -> & Hx).
  destruct (trimEndChars_after_brace (x :: tl) (b ++ JS.chars trailing))
    as (kept & dropped & Hrest & Hkeep).
  assert (Hkept : Forall (fun y => Ascii.eqb y "}" = false) kept).
  { assert (H : Forall (fun y => Ascii.eqb y "}" = false) (b ++ JS.chars trailing)).
    { apply Forall_app. split; [apply ws_not_brace, Hwb|apply countChar_chars, Htrail]. }
    rewrite Hrest in H. apply Forall_app in H as [H _]. exact H. }
  assert (Ewhole : JS.trim (object ++ trailing)
                   = JS.text (((x :: tl) ++ ["}"%char]) ++ kept)).
  { unfold JS.trim. f_equal. rewrite <- Hkeep, chars_append, Esplit. f_equal.
    rewrite <- !app_assoc, trimStartChars_ws by assumption.
    cbn [app]. apply trimStartChars_head, Hx. }
  assert (Heven' : evenQuotes (JS.text ((x :: tl) ++ ["}"%char])) = true).
  { rewrite <- Etrim. unfold evenQuotes in *. rewrite JsonFacts.countChar_trim. exact Heven. }
  unfold parseAndRepairJSON.
  rewrite Ewhole, (closeObject_cut _ _ Hfront Hkept Heven').
  unfold balanceQuotes. rewrite Heven'.
  unfold parseWithRetry. rewrite <- Etrim, Hparse'. reflexivity.
Qed.

Lemma trailing_text_is_cut_witness :
  parse (JS.dq "{'caseTitle':'T'}") = Some (JObject [("caseTitle", JString "T")])
  /\ evenQuotes (JS.dq "{'caseTitle':'T'}") = true
  /\ JS.countChar (JS.dq " I hope you like 'it!") "}" = 0
  /\ parseAndRepairJSON (JS.dq "{'caseTitle':'T'}" ++ JS.dq " I hope you like 'it!")
     = Ok (JObject [("caseTitle", JString "T")]).
Proof.
  split; [reflexivity|]. split; [reflexivity|]. split; [reflexivity|].
  apply (trailing_text_is_cut (JS.dq "{'caseTitle':'T'}") (JS.dq " I hope you like 'it!")
                              [("caseTitle", JString "T")]);
    reflexivity.
Defined.

(** An object with one escaped quote inside a string. *)
Lemma valid_object_odd_quotes_throws_witness :
  parse (JS.dq "{'a':'x\'y'}") = Some (JObject [("a", JString (JS.dq "x'y"))])
  /\ evenQuotes (JS.dq "{'a':'x\'y'}") = false
  /\ parseAndRepairJSON (JS.dq "{'a':'x\'y'}") = Throw UnbalancedQuotes.
Proof.
  split; [reflexivity|]. split; [reflexivity|].
  apply (RepairFacts.valid_object_odd_quotes_throws
           (JS.dq "{'a':'x\'y'}") [("a", JString (JS.dq "x'y"))]); reflexivity.
Defined.

End CutFacts.

(* ================================================================== *)
(** ** The matching loop *)

Module MatchingFacts.
Import Json Value Catalog Reconciler Spec Scenario.

Lemma has_In (usedIds : list string) (x : string) :
  has usedIds x = true <-> In x usedIds.
Proof.
  unfold has. rewrite existsb_exists. split.
  - intros (y & Hy & E). apply String.eqb_eq in E. subst. exact Hy.
  - intros H. exists x. split; [exact H|apply String.eqb_refl].
Qed.

Lemma has_not_In (usedIds : list string) (x : string) :
  has usedIds x = false <-> ~ In x usedIds.
Proof.
  rewrite <- has_In. destruct (has usedIds x); split; congruence.
Qed.

Lemma scoreMatch_nonneg (gen : JSON) (orig : Suspect) (s : Z) :
  scoreMatch gen orig = Ok s -> 0 <= s.
Proof.
  unfold scoreMatch. destruct (isNull gen); [discriminate|].
  intros H. apply ScoreFacts.score_bounds in H. lia.
Qed.

(** The scoring pass returns no record only when it started with none
    and met no unused record. *)
Lemma pickBest_none (gen : JSON) (usedIds : list string) :
  forall (remaining : list Suspect) (best : option Suspect) (bestScore : Z),
    (best = None -> bestScore = -1) ->
    pickBest gen usedIds remaining best bestScore = Ok None ->
    best = None /\ Forall (fun o => has usedIds (id o) = true) remaining.
Proof.
  induction remaining as [|orig rest IH]; intros best bestScore Hinit; cbn.
  - intros H. injection H as ->. split; [reflexivity|constructor].
  - destruct (has usedIds (id orig)) eqn:Eused.
    + intros H. destruct (IH _ _ Hinit H) as [-> Hall].
      split; [reflexivity|]. constructor; assumption.
    + destruct (scoreMatch gen orig) as [s|e] eqn:Es; [|discriminate].
      apply scoreMatch_nonneg in Es.
      destruct (Z.gtb_spec s bestScore) as [Hgt|Hle].
      * intros H. apply IH in H as [Habs _]; [discriminate Habs|discriminate].
      * intros H. apply IH in H as [-> _]; [|exact Hinit].
        specialize (Hinit eq_refl). lia.
Qed.

(** What the scoring pass returns is the record it started with or an
    unused record of the catalog. *)
Lemma pickBest_result (gen : JSON) (usedIds : list string) :
  forall (remaining : list Suspect) (best r : option Suspect) (bestScore : Z),
    pickBest gen usedIds remaining best bestScore = Ok r ->
    r = best
    \/ exists b, r = Some b /\ In b remaining /\ has usedIds (id b) = false.
Proof.
  induction remaining as [|orig rest IH]; intros best r bestScore; cbn.
  - intros H. injection H as <-. left. reflexivity.
  - destruct (has usedIds (id orig)) eqn:Eused.
    + intros H. destruct (IH _ _ _ H) as [->|(b & -> & Hin & Hb)];
        [left; reflexivity|right; exists b; auto].
    + destruct (scoreMatch gen orig) as [s|]; [|discriminate].
      destruct (s >? bestScore); intros H;
        destruct (IH _ _ _ H) as [->|(b & -> & Hin & Hb)];
        try (right; exists b; auto; fail).
      * right. exists orig. auto.
      * left. reflexivity.
Qed.

(** The scoring pass of a player whose role converts returns. *)
Lemma scoreMatch_legible (ms : list (string * JSON)) (orig : Suspect) :
  printable (lookup "role" ms) = true ->
  exists s, scoreMatch (JObject ms) orig = Ok s.
Proof.
  intros H. unfold scoreMatch, score, genRoleOf. cbn [isNull prop].
  unfold printable, textOf in H.
  destruct (lookup "role" ms) as [v|]; [|eexists; reflexivity].
  destruct (truthy v); [|eexists; reflexivity].
  destruct (toText v); [eexists; reflexivity|discriminate].
Qed.

Lemma pickBest_returns (gen : JSON) (usedIds : list string) :
  (forall orig, exists s, scoreMatch gen orig = Ok s) ->
  forall (remaining : list Suspect) (best : option Suspect) (bestScore : Z),
    exists r, pickBest gen usedIds remaining best bestScore = Ok r.
Proof.
  intros Hscore.
  induction remaining as [|orig rest IH]; intros best bestScore; cbn.
  - eexists. reflexivity.
  - destruct (has usedIds (id orig)); [apply IH|].
    destruct (Hscore orig) as (s & ->).
    destruct (s >? bestScore); apply IH.
Qed.

(** One turn of the matching loop on a legible player returns. *)
Lemma matchOne_returns (selected : list Suspect) (ms : list (string * JSON))
      (usedIds : list string) :
  printable (lookup "role" ms) = true ->
  printable (lookup "name" ms) = true ->
  exists r, matchOne selected (JObject ms) usedIds = Ok r.
Proof.
  intros Hrole Hname. unfold matchOne.
  destruct (pickBest_returns (JObject ms) usedIds
              (fun orig => scoreMatch_legible ms orig Hrole) selected None (-1))
    as (r & ->).
  destruct (match r with
            | Some b => Some b
            | None => find (fun o => negb (has usedIds (id o))) selected
            end) as [b|]; [|eexists; reflexivity].
  destruct (nonEmpty (image_url b)); [|eexists; reflexivity].
  cbn [get prop set]. unfold printable in Hname.
  destruct (textOf (lookup "name" ms)); [|discriminate].
  eexists. reflexivity.
Qed.

(** One turn of the matching loop on a player object, while an unused
    record is left: what it returns. *)
Lemma matchOne_picks (selected : list Suspect) (ms : list (string * JSON))
      (usedIds u : list string) (g : JSON) :
  Forall (fun o => id o <> "" /\ image_url o <> "") selected ->
  (exists o, In o selected /\ has usedIds (id o) = false) ->
  matchOne selected (JObject ms) usedIds = Ok (g, u) ->
  exists b,
    In b selected /\ has usedIds (id b) = false
    /\ g = JObject (assign "photo" (JString (image_url b)) ms)
    /\ u = id b :: usedIds.
Proof.
  intros Hwf (o & Ho & Hfree). unfold matchOne.
  destruct (pickBest (JObject ms) usedIds selected None (-1)) as [r|] eqn:Hr;
    [|discriminate].
  destruct (pickBest_result _ _ _ _ _ _ Hr) as [->|(b & -> & Hin & Hb)].
  - apply pickBest_none in Hr as [_ Hall]; [|reflexivity].
    rewrite Forall_forall in Hall. rewrite (Hall o Ho) in Hfree. discriminate Hfree.
  - rewrite Forall_forall in Hwf. destruct (Hwf b Hin) as [Hid Hurl].
    unfold nonEmpty, add. rewrite Hb.
    destruct (String.eqb_spec (id b) ""); [contradiction|].
    destruct (String.eqb_spec (image_url b) ""); [contradiction|].
    cbn [negb get prop set].
    destruct (textOf (lookup "name" ms)); [|discriminate].
    intros H. injection H as <- <-. exists b. auto.
Qed.

Lemma unused_record (selected : list Suspect) (usedIds : list string) :
  NoDup (map id selected) ->
  (List.length usedIds < List.length selected)%nat ->
  exists o, In o selected /\ has usedIds (id o) = false.
Proof.
  intros Hnd Hlen.
  destruct (find (fun o => negb (has usedIds (id o))) selected) as [o|] eqn:F.
  - apply find_some in F as [Hin Hfree]. exists o. split; [exact Hin|].
    apply negb_true_iff, Hfree.
  - exfalso.
    assert (Hincl : incl (map id selected) usedIds).
    { intros x Hx. apply in_map_iff in Hx as (o & <- & Ho).
      apply has_In. pose proof (find_none _ _ F o Ho) as H.
      apply negb_false_iff, H. }
    pose proof (NoDup_incl_length Hnd Hincl) as H.
    rewrite length_map in H. lia.
Qed.

(** The matching loop on player objects, while the catalog has records
    enough: every player gets the image of a record that was not used
    before, and no record is taken twice. *)
Lemma matchAll_chooses (selected : list Suspect) :
  NoDup (map id selected) ->
  Forall (fun o => id o <> "" /\ image_url o <> "") selected ->
  forall (allPlayers result : list JSON) (usedIds : list string),
    Forall (fun p => exists ms, p = JObject ms) allPlayers ->
    NoDup usedIds ->
    (List.length usedIds + List.length allPlayers <= List.length selected)%nat ->
    matchAll selected allPlayers usedIds = Ok result ->
    exists chosen,
      Forall2 (fun p b => photoOf p = Some (JString (image_url b))) result chosen
      /\ NoDup (map id chosen)
      /\ Forall (fun b => In b selected /\ ~ In (id b) usedIds) chosen.
Proof.
  intros Hnd Hwf.
  induction allPlayers as [|gen rest IH]; intros result usedIds Hobj Hused Hlen; cbn.
  - intros H. injection H as <-. exists []. repeat split; constructor.
  - inversion Hobj as [|? ? [ms ->] Hrest]; subst. cbn [List.length] in Hlen.
    destruct (unused_record selected usedIds Hnd ltac:(lia)) as (o & Ho & Hfree).
    destruct (matchOne selected (JObject ms) usedIds) as [[g u]|] eqn:Hone;
      [|discriminate].
    destruct (matchOne_picks selected ms usedIds u g Hwf
                             (ex_intro _ o (conj Ho Hfree)) Hone)
      as (b & Hb & Hbfree & -> & ->).
    apply has_not_In in Hbfree.
    destruct (matchAll selected rest (id b :: usedIds)) as [rest'|] eqn:Hall;
      [|discriminate].
    intros H. injection H as <-.
    destruct (IH rest' (id b :: usedIds) Hrest) as (chosen & Hphotos & Hids & Hin).
    { constructor; assumption. }
    { cbn [List.length]. lia. }
    { exact Hall. }
    exists (b :: chosen). split; [|split].
    + constructor; [|exact Hphotos].
      unfold photoOf. cbn [prop]. apply ValueFacts.lookup_assign_same.
    + cbn [map]. constructor; [|exact Hids].
      intros Habs. apply in_map_iff in Habs as (c & Hc & Hcin).
      rewrite Forall_forall in Hin. destruct (Hin c Hcin) as [_ Hnot].
      apply Hnot. left. symmetry. exact Hc.
    + constructor; [split; assumption|].
      eapply Forall_impl; [|exact Hin]. cbn. intros c [Hc Hnot].
      split; [exact Hc|]. intros Hused'. apply Hnot. right. exact Hused'.
Qed.

(** The matching loop returns on legible players, while the catalog has
    records enough. *)
Lemma matchAll_returns (selected : list Suspect) :
  NoDup (map id selected) ->
  Forall (fun o => id o <> "" /\ image_url o <> "") selected ->
  forall (allPlayers : list JSON) (usedIds : list string),
    Forall legible allPlayers ->
    (List.length usedIds + List.length allPlayers <= List.length selected)%nat ->
    exists result, matchAll selected allPlayers usedIds = Ok result.
Proof.
  intros Hnd Hwf.
  induction allPlayers as [|gen rest IH]; intros usedIds Hobj Hlen; cbn.
  - eexists. reflexivity.
  - inversion Hobj as [|? ? (ms & -> & Hrole & Hname) Hrest]; subst.
    cbn [List.length] in Hlen.
    destruct (unused_record selected usedIds Hnd ltac:(lia)) as (o & Ho & Hfree).
    destruct (matchOne_returns selected ms usedIds Hrole Hname) as ([g u] & Hone).
    rewrite Hone.
    destruct (matchOne_picks selected ms usedIds u g Hwf
                             (ex_intro _ o (conj Ho Hfree)) Hone)
      as (b & _ & _ & _ & ->).
    destruct (IH (id b :: usedIds) Hrest) as (rest' & ->).
    { cbn [List.length]. lia. }
    eexists. reflexivity.
Qed.

Lemma legible_object (allPlayers : list JSON) :
  Forall legible allPlayers -> Forall (fun p => exists ms, p = JObject ms) allPlayers.
Proof.
  apply Forall_impl. intros p (ms & -> & _). exists ms. reflexivity.
Qed.

Lemma same_image_same_record (selected : list Suspect) (a b : Suspect) :
  NoDup (map image_url selected) ->
  In a selected -> In b selected -> image_url a = image_url b -> a = b.
Proof.
  induction selected as [|x l IH]; cbn; [contradiction|].
  intros Hnd Ha Hb E. inversion Hnd as [|? ? Hx Hl]; subst.
  destruct Ha as [<-|Ha], Hb as [<-|Hb].
  - reflexivity.
  - exfalso. apply Hx. rewrite E. apply in_map, Hb.
  - exfalso. apply Hx. rewrite <- E. apply in_map, Ha.
  - apply IH; assumption.
Qed.

Lemma Forall2_chosen {A B} (R : A -> B -> Prop) (l : list A) (l' : list B) (x : A) :
  Forall2 R l l' -> In x l -> exists y, In y l' /\ R x y.
Proof.
  induction 1 as [|a b l l' Hab _ IH]; cbn; [contradiction|].
  intros [<-|Hx].
  - exists b. auto.
  - destruct (IH Hx) as (y & Hy & Hxy). exists y. auto.
Qed.

(** X20: every legible player gets a catalog image.  When the records
    of the catalog have distinct identifiers, none of them empty, and
    non-empty image URLs, when there are at least as many records as
    players, and when every player is an object whose role and name
    convert to text, the matching succeeds and the photo of every player
    is the image URL of a catalog record, whatever photo the generated
    player carried. *)
Theorem every_player_gets_a_catalog_photo
        (allPlayers : list JSON) (selectedSuspects : list Suspect) :
  NoDup (map id selectedSuspects) ->
  Forall (fun o => id o <> "" /\ image_url o <> "") selectedSuspects ->
  Forall legible allPlayers ->
  (List.length allPlayers <= List.length selectedSuspects)%nat ->
  exists result,
    matchPhotos allPlayers selectedSuspects = Ok result
    /\ Forall (fun p => exists o, In o selectedSuspects
                                  /\ photoOf p = Some (JString (image_url o))) result.
Proof.
  intros Hnd Hwf Hobj Hlen.
  destruct (matchAll_returns selectedSuspects Hnd Hwf allPlayers [] Hobj Hlen)
    as (result & Hall).
  destruct (matchAll_chooses selectedSuspects Hnd Hwf allPlayers result []
                             (legible_object _ Hobj) (NoDup_nil _) Hlen Hall)
    as (chosen & Hphotos & _ & Hin).
  exists result. split; [exact Hall|].
  clear Hall. induction Hphotos as [|p b result chosen Hp _ IH]; constructor.
  - inversion Hin as [|? ? [Hb _] _]; subst. exists b. split; assumption.
  - apply IH. inversion Hin. assumption.
Qed.

(** A player whose role, or whose name, holds a [toString] member
    stops the matching. *)
Example illegible_role_stops_the_matching :
  matchPhotos [JObject [("role", JObject [("toString", JNull)])]] [chef; doctor]
  = Throw TypeError.
Proof. reflexivity. Qed.

Example illegible_name_stops_the_matching :
  matchPhotos [JObject [("name", JObject [("toString", JNumber 1 0)])]] [chef; doctor]
  = Throw TypeError.
Proof. reflexivity. Qed.

(** X21: no two players share a photo.  When, besides, the image URLs of
    the catalog are distinct, the photos that the matching writes are
    pairwise distinct. *)
Theorem photos_are_distinct
        (allPlayers result : list JSON) (selectedSuspects : list Suspect) :
  NoDup (map id selectedSuspects) ->
  NoDup (map image_url selectedSuspects) ->
  Forall (fun o => id o <> "" /\ image_url o <> "") selectedSuspects ->
  Forall (fun p => exists ms, p = JObject ms) allPlayers ->
  (List.length allPlayers <= List.length selectedSuspects)%nat ->
  matchPhotos allPlayers selectedSuspects = Ok result ->
  NoDup (map photoOf result).
Proof.
  intros Hnd Hurls Hwf Hobj Hlen Hrun.
  destruct (matchAll_chooses selectedSuspects Hnd Hwf allPlayers result [] Hobj
                             (NoDup_nil _) Hlen Hrun)
    as (chosen & Hphotos & Hids & Hin).
  clear Hrun. induction Hphotos as [|p b result chosen Hp Hrest IH]; cbn; [constructor|].
  inversion Hids as [|? ? Hb Hids']; subst.
  inversion Hin as [|? ? [Hbin _] Hin']; subst.
  constructor; [|apply IH; assumption].
  intros Habs. apply in_map_iff in Habs as (q & Hq & Hqin).
  destruct (Forall2_chosen _ _ _ _ Hrest Hqin) as (c & Hc & Hqc).
  rewrite Forall_forall in Hin'. destruct (Hin' c Hc) as [Hcin _].
  rewrite Hqc, Hp in Hq. injection Hq as Hq.
  rewrite (same_image_same_record selectedSuspects c b Hurls Hcin Hbin Hq) in Hc.
  apply Hb, in_map, Hc.
Qed.

Lemma every_player_gets_a_catalog_photo_witness :
  NoDup (map id [chef; doctor])
  /\ Forall (fun o => id o <> "" /\ image_url o <> "") [chef; doctor]
  /\ Forall legible
            [JObject [("role", JString "doctora"); ("photo", JString "made-up.png")];
             JObject [("role", JString "chef")]]
  /\ exists result,
       matchPhotos [JObject [("role", JString "doctora"); ("photo", JString "made-up.png")];
                    JObject [("role", JString "chef")]]
                   [chef; doctor]
       = Ok result
       /\ Forall (fun p => exists o, In o [chef; doctor]
                                     /\ photoOf p = Some (JString (image_url o))) result.
Proof.
  assert (Hids : NoDup (map id [chef; doctor]))
    by (repeat constructor; cbn; intuition discriminate).
  assert (Hwf : Forall (fun o => id o <> "" /\ image_url o <> "") [chef; doctor])
    by (repeat constructor; discriminate).
  assert (Hleg : Forall legible
                   [JObject [("role", JString "doctora");
                             ("photo", JString "made-up.png")];
                    JObject [("role", JString "chef")]])
    by (repeat constructor; eexists; (split; [reflexivity|split; reflexivity])).
  split; [exact Hids|]. split; [exact Hwf|]. split; [exact Hleg|].
  apply (every_player_gets_a_catalog_photo
           [JObject [("role", JString "doctora"); ("photo", JString "made-up.png")];
            JObject [("role", JString "chef")]]
           [chef; doctor] Hids Hwf Hleg).
  cbn. lia.
Defined.

Lemma photos_are_distinct_witness :
  NoDup (map id [chef; doctor])
  /\ NoDup (map image_url [chef; doctor])
  /\ matchPhotos
       [JObject [("role", JString "doctora"); ("photo", JString "https://img/chef.png")];
        JObject [("role", JString "chef"); ("photo", JString "https://img/chef.png")]]
       [chef; doctor]
     = Ok [JObject [("role", JString "doctora"); ("photo", JString "https://img/doctor.png")];
           JObject [("role", JString "chef"); ("photo", JString "https://img/chef.png")]]
  /\ NoDup (map photoOf
                [JObject [("role", JString "doctora");
                          ("photo", JString "https://img/doctor.png")];
                 JObject [("role", JString "chef");
                          ("photo", JString "https://img/chef.png")]]).
Proof.
  assert (Hids : NoDup (map id [chef; doctor]))
    by (repeat constructor; cbn; intuition discriminate).
  assert (Hurls : NoDup (map image_url [chef; doctor]))
    by (repeat constructor; cbn; intuition discriminate).
  split; [exact Hids|]. split; [exact Hurls|]. split; [reflexivity|].
  apply (photos_are_distinct
           [JObject [("role", JString "doctora"); ("photo", JString "https://img/chef.png")];
            JObject [("role", JString "chef"); ("photo", JString "https://img/chef.png")]]
           _ [chef; doctor] Hids Hurls).
  - repeat constructor; discriminate.
  - repeat constructor; eexists; reflexivity.
  - cbn. lia.
  - reflexivity.
Defined.

(** X22: the fallback of the matching loop is dead code.  Whenever the
    scoring pass ends with no record chosen, every record of the catalog
    is already used, so that [remaining.find] finds nothing either: a
    score is never below 0, and the pass starts from -1. *)
Theorem fallback_finds_nothing
        (gen : JSON) (usedIds : list string) (remaining : list Suspect) :
  pickBest gen usedIds remaining None (-1) = Ok None ->
  find (fun o => negb (has usedIds (id o))) remaining = None.
Proof.
  intros H. apply pickBest_none in H as [_ Hall]; [|reflexivity].
  induction Hall as [|o rest Ho _ IH]; cbn; [reflexivity|].
  rewrite Ho. exact IH.
Qed.

Lemma fallback_finds_nothing_witness :
  pickBest cook ["s-2"; "s-1"] [chef; doctor] None (-1) = Ok None
  /\ find (fun o => negb (has ["s-2"; "s-1"] (id o))) [chef; doctor] = None.
Proof.
  split; [reflexivity|].
  apply (fallback_finds_nothing cook ["s-2"; "s-1"] [chef; doctor]). reflexivity.
Defined.

(** X23: the matching changes nothing but the photo.  It returns as many
    players as it was given, in the same order, and every property of a
    player other than [photo] reads as before. *)
Theorem matching_changes_photo_only
        (allPlayers result : list JSON) (selectedSuspects : list Suspect) :
  matchPhotos allPlayers selectedSuspects = Ok result ->
  List.length result = List.length allPlayers
  /\ forall key, key <> "photo" ->
                 map (fun p => prop p key) result = map (fun p => prop p key) allPlayers.
Proof.
  intros H. split.
  - eapply ReconcilerFacts.matchAll_length, H.
  - intros key Hkey. eapply ReconcilerFacts.matchAll_other; eassumption.
Qed.

Lemma matching_changes_photo_only_witness :
  matchPhotos [JObject [("id", JString "player-1"); ("role", JString "chef")]] [chef; doctor]
  = Ok [JObject [("id", JString "player-1"); ("role", JString "chef");
                 ("photo", JString "https://img/chef.png")]]
  /\ List.length [JObject [("id", JString "player-1"); ("role", JString "chef");
                           ("photo", JString "https://img/chef.png")]]
     = List.length [JObject [("id", JString "player-1"); ("role", JString "chef")]]
  /\ forall key, key <> "photo" ->
       map (fun p => prop p key)
           [JObject [("id", JString "player-1"); ("role", JString "chef");
                     ("photo", JString "https://img/chef.png")]]
       = map (fun p => prop p key)
             [JObject [("id", JString "player-1"); ("role", JString "chef")]].
Proof.
  split; [reflexivity|].
  apply (matching_changes_photo_only
           [JObject [("id", JString "player-1"); ("role", JString "chef")]]
           _ [chef; doctor]).
  reflexivity.
Defined.

End MatchingFacts.

(* ================================================================== *)
(** ** The protocol of a run, failed or not *)

Module ProtocolFacts.
Import Json Value Catalog Pipeline Spec Protocol.

#[local] Open Scope pipeline_scope.

Lemma bind_inv {A B} (m : M A) (k : A -> M B) (st st' : State) (r : Result B) :
  bind m k st = (r, st') ->
  (exists e, m st = (Throw e, st') /\ r = Throw e)
  \/ exists a st1, m st = (Ok a, st1) /\ k a st1 = (r, st').
Proof.
  unfold bind. destruct (m st) as [[a|e] st1].
  - intros H. right. exists a, st1. auto.
  - intros H. injection H as <- <-. left. exists e. auto.
Qed.

(** *** The catalog queries *)

Lemma queries_phase (req : Request) :
  Forall (fun ev => 0 <= phase ev <= 1) (queries req).
Proof.
  unfold queries. destruct (String.eqb (caseType req) "asesinato");
    repeat constructor; cbn; lia.
Qed.

Lemma queries_sorted (req : Request) : StronglySorted before (queries req).
Proof.
  unfold queries. destruct (String.eqb (caseType req) "asesinato");
    repeat constructor.
Qed.

Lemma queries_asked (req : Request) : Forall (catalogAsked req) (queries req).
Proof.
  unfold queries. destruct (String.eqb_spec (caseType req) "asesinato");
    repeat constructor; cbn; auto.
Qed.

Lemma assignRoles_run (w : World) (n : Z) (st : State) :
  exists nr,
    assignRoles w n st
    = (Ok (floorTimes (random w (nextRandom st)) n + 1,
           if below03 (random w (S (nextRandom st)))
           then floorTimes (random w (nextRandom st)) n + 1
           else floorTimes (random w (S (S (nextRandom st)))) n + 1),
       mkState nr (nextCompletion st) (trace st)).
Proof.
  unfold assignRoles, bind, mathRandom, ret. cbn.
  destruct (below03 (random w (S (nextRandom st)))); eexists; reflexivity.
Qed.

Lemma usable_run {A} (field : option (list A)) (st : State) :
  (field = None /\ usable field st = (Throw TypeError, st))
  \/ (field <> None /\ usable field st = (Ok tt, st)).
Proof.
  destruct field; [right|left]; split; try reflexivity; discriminate.
Qed.

(** A run of [generateCase] stops on the names or the genders of the
    request, or ends in one of the catalog queries, or goes through the
    stages with the roles drawn. *)
Lemma generateCase_split (w : World) (req : Request) (r : Result CaseDocument)
      (st : State) :
  generateCase w req initial = (r, st) ->
  (r = Throw TypeError /\ st = initial
   /\ (rawPlayerNames req = None \/ rawPlayerGenders req = None))
  \/ (rawPlayerNames req <> None /\ rawPlayerGenders req <> None
      /\ ((exists e, r = Throw e /\ nextCompletion st = 0%nat
                     /\ (trace st = firstn 1 (queries req) \/ trace st = queries req))
          \/ exists selected weapon nr,
               suspectsForScene w = Ok selected
               /\ (if String.eqb (caseType req) "asesinato"
                   then selectedWeapon w = Ok weapon else weapon = None)
               /\ stages w req selected weapon (culpritIndex w req)
                         (discovererIndex w req) (mkState nr 0 (queries req))
                  = (r, st))).
Proof.
  unfold generateCase. intros H.
  unfold bind at 1 in H.
  destruct (usable_run (rawPlayerNames req) initial) as [[Hn E]|[Hn E]]; rewrite E in H.
  { injection H as <- <-. left. auto. }
  unfold bind at 1 in H.
  destruct (usable_run (rawPlayerGenders req) initial) as [[Hg E']|[Hg E']];
    rewrite E' in H.
  { injection H as <- <-. left. auto. }
  right. split; [exact Hn|]. split; [exact Hg|].
  apply bind_inv in H as [(e & H & _)|([] & s1 & H1 & H)]; [discriminate H|].
  unfold emit in H1. injection H1 as <-. cbn [nextRandom nextCompletion trace app] in H.
  apply bind_inv in H as [(e & H & ->)|(selected & s2 & H2 & H)].
  { unfold lift in H. injection H as _ <-. left. exists e. cbn. auto. }
  unfold lift in H2. injection H2 as Hcat <-.
  apply bind_inv in H as [(e & H & ->)|(weapon & s3 & H3 & H)].
  { left. exists e. unfold queries.
    destruct (String.eqb (caseType req) "asesinato"); [|discriminate H].
    apply bind_inv in H as [(e' & H & _)|([] & s3 & H3 & H)]; [discriminate H|].
    unfold emit in H3. injection H3 as <-. unfold lift in H. injection H as _ <-.
    cbn. auto. }
  assert (Hs3 : s3 = mkState 0 0 (queries req)
                /\ (if String.eqb (caseType req) "asesinato"
                    then selectedWeapon w = Ok weapon else weapon = None)).
  { unfold queries. destruct (String.eqb (caseType req) "asesinato").
    - apply bind_inv in H3 as [(e' & H3 & Habs)|([] & s3' & H3a & H3b)];
        [discriminate Habs|].
      unfold emit in H3a. injection H3a as <-. unfold lift in H3b.
      injection H3b as -> <-. split; reflexivity.
    - unfold ret in H3. injection H3 as <- <-. split; reflexivity. }
  destruct Hs3 as [-> Hweapon].
  apply bind_inv in H as [(e & H & _)|([k d] & s4 & H4 & H)].
  { destruct (assignRoles_run w (suspects req) (mkState 0 0 (queries req))) as [nr E0].
    rewrite E0 in H. discriminate H. }
  destruct (assignRoles_run w (suspects req) (mkState 0 0 (queries req))) as [nr E0].
  rewrite E0 in H4. cbn [nextRandom nextCompletion trace] in H4.
  injection H4 as <- <- <-.
  right. exists selected, weapon, nr. split; [exact Hcat|]. split; [exact Hweapon|].
  exact H.
Qed.


(** *** Computations that call nobody *)

Lemma quiet_ret {A} (a : A) : Quiet (ret a).
Proof. intros st. reflexivity. Qed.

Lemma quiet_throw {A} (e : Exception) : Quiet (@throw A e).
Proof. intros st. reflexivity. Qed.

Lemma quiet_lift {A} (r : Result A) : Quiet (lift r).
Proof. intros st. reflexivity. Qed.

Lemma quiet_getOpenAIClient (w : World) : Quiet (getOpenAIClient w).
Proof. intros st. unfold getOpenAIClient. destruct (hasApiKey w); reflexivity. Qed.

Lemma quiet_readable (keys : list string) (players : list JSON) :
  Quiet (readable keys players).
Proof.
  intros st. unfold readable. destruct (forallb (prints keys) players); reflexivity.
Qed.

Lemma quiet_usable {A} (field : option (list A)) : Quiet (usable field).
Proof. intros st. destruct field; reflexivity. Qed.

Lemma quiet_assignRoles (w : World) (n : Z) : Quiet (assignRoles w n).
Proof. intros st. destruct (assignRoles_run w n st) as [nr ->]. reflexivity. Qed.

Lemma quiet_bind {A B} (m : M A) (k : A -> M B) :
  Quiet m -> (forall a, Quiet (k a)) -> Quiet (bind m k).
Proof.
  intros Hm Hk st. unfold bind. specialize (Hm st).
  destruct (m st) as [[a|e] st1]; cbn in *; [|exact Hm].
  rewrite Hk. exact Hm.
Qed.

Create HintDb quiet.

#[local] Hint Resolve quiet_ret quiet_throw quiet_lift quiet_getOpenAIClient
  quiet_readable quiet_usable quiet_assignRoles : quiet.

(** Closes a goal [Quiet m] for a chain of binds of quiet steps. *)
Ltac quiet :=
  repeat (apply quiet_bind; [auto with quiet | intros ?]);
  repeat match goal with
    | |- Quiet (if ?b then _ else _) => destruct b
    | |- Quiet (match ?x with _ => _ end) => destruct x
    end;
  auto with quiet.


(** *** Faults are terminal *)

Lemma terminal_nil {A} (r : Result A) : terminal r [].
Proof. intros [|p] ev e H; discriminate H. Qed.

Lemma terminal_single {A} (r : Result A) (ev : Event) :
  (forall e, faultOf ev = Some e -> r = Throw e) -> terminal r [ev].
Proof.
  intros Hr [|[|p]] ev' e H; try discriminate H.
  injection H as <-. intros Hf. split; [reflexivity|apply Hr, Hf].
Qed.

Lemma halting_silent {A} (m : M A) : Quiet m -> Halting m.
Proof.
  intros H st r st' E. exists [].
  specialize (H st). rewrite E in H. cbn in H.
  rewrite H, app_nil_r. split; [reflexivity|apply terminal_nil].
Qed.

Lemma halting_ret {A} (a : A) : Halting (ret a).
Proof. apply halting_silent, quiet_ret. Qed.

Lemma halting_throw {A} (e : Exception) : Halting (@throw A e).
Proof. apply halting_silent, quiet_throw. Qed.

Lemma halting_lift {A} (r : Result A) : Halting (lift r).
Proof. apply halting_silent, quiet_lift. Qed.

Lemma halting_assignRoles (w : World) (n : Z) : Halting (assignRoles w n).
Proof. apply halting_silent, quiet_assignRoles. Qed.

Lemma halting_emit (ev : Event) : faultOf ev = None -> Halting (emit ev).
Proof.
  intros Hq st r st' E. exists [ev].
  unfold emit in E. injection E as <- <-. cbn.
  split; [reflexivity|]. apply terminal_single. congruence.
Qed.

Lemma halting_bind {A B} (m : M A) (k : A -> M B) :
  Halting m -> (forall a, Halting (k a)) -> Halting (bind m k).
Proof.
  intros Hm Hk st r st' E.
  apply bind_inv in E as [(e & Em & ->)|(a & st1 & Em & Ek)].
  - destruct (Hm _ _ _ Em) as (evs1 & Ht1 & Ho1).
    exists evs1. split; [assumption|].
    intros p ev e' Hnth Hf.
    destruct (Ho1 _ _ _ Hnth Hf) as [Hlen Hr].
    split; [assumption|]. injection Hr as ->. reflexivity.
  - destruct (Hm _ _ _ Em) as (evs1 & Ht1 & Ho1).
    destruct (Hk a _ _ _ Ek) as (evs2 & Ht2 & Ho2).
    exists (evs1 ++ evs2). split.
    + rewrite Ht2, Ht1, app_assoc. reflexivity.
    + intros p ev e' Hnth Hf.
      destruct (Nat.lt_ge_cases p (List.length evs1)) as [Hlt|Hge].
      * rewrite nth_error_app1 in Hnth by assumption.
        destruct (Ho1 _ _ _ Hnth Hf) as [_ Habs]. discriminate Habs.
      * rewrite nth_error_app2 in Hnth by assumption.
        destruct (Ho2 _ _ _ Hnth Hf) as [Hlen Hr].
        split; [|assumption].
        rewrite length_app. lia.
Qed.

(** A stage that makes one call and throws exactly the fault of its
    answer. *)
Ltac one_call :=
  eexists [_]; split; [reflexivity|];
  apply terminal_single; cbn;
  repeat match goal with
    | H : ?x = _ |- context [?x] => rewrite H
    end;
  cbn; congruence.

Lemma halting_core (w : World) (d : Z) : Halting (generateImpostorCaseCore w d).
Proof.
  intros st r st'.
  unfold generateImpostorCaseCore, bind, getOpenAIClient, complete, lift, ret, throw.
  destruct (hasApiKey w).
  2:{ intros E. injection E as <- <-. exists []. rewrite app_nil_r.
      split; [reflexivity|apply terminal_nil]. }
  destruct (completion w (nextCompletion st)) as [s| |reason] eqn:Eanswer.
  - destruct (String.eqb s "") eqn:Es.
    + intros E. injection E as <- <-. one_call.
    + destruct (Repair.parseAndRepairJSON s) as [parsed|e0] eqn:Ep;
        intros E; injection E as <- <-; one_call.
  - intros E. injection E as <- <-. one_call.
  - intros E. injection E as <- <-. one_call.
Qed.

Lemma halting_generatePlayersBatch (w : World) (n k d : Z)
      (existing : list JSON) (batchStart batchSize : Z) :
  Halting (generatePlayersBatch w n k d existing batchStart batchSize).
Proof.
  intros st r st'.
  unfold generatePlayersBatch, bind, getOpenAIClient, readable, complete,
    lift, ret, throw.
  destruct (hasApiKey w).
  2:{ intros E. injection E as <- <-. exists []. rewrite app_nil_r.
      split; [reflexivity|apply terminal_nil]. }
  destruct (forallb (prints ["name"; "role"; "description"]) existing).
  2:{ intros E. injection E as <- <-. exists []. rewrite app_nil_r.
      split; [reflexivity|apply terminal_nil]. }
  destruct (completion w (nextCompletion st)) as [s| |reason] eqn:Eanswer.
  - destruct (String.eqb s "") eqn:Es.
    + intros E. injection E as <- <-. one_call.
    + destruct (Repair.parseAndRepairJSON s) as [parsed|e0] eqn:Ep.
      * destruct (playersArray parsed) as [players|] eqn:Epl.
        -- destruct (Z.of_nat (List.length players) =? batchSize) eqn:Elen;
             intros E; injection E as <- <-; one_call.
        -- intros E. injection E as <- <-. one_call.
      * intros E. injection E as <- <-. one_call.
  - intros E. injection E as <- <-. one_call.
  - intros E. injection E as <- <-. one_call.
Qed.

Lemma halting_hiddenContext (w : World) (k : Z) (allPlayers : list JSON) :
  Halting (generateImpostorHiddenContext w k allPlayers).
Proof.
  intros st r st'.
  unfold generateImpostorHiddenContext, bind, getOpenAIClient, readable,
    complete, lift, ret, throw.
  destruct (hasApiKey w).
  2:{ intros E. injection E as <- <-. exists []. rewrite app_nil_r.
      split; [reflexivity|apply terminal_nil]. }
  destruct (forallb (prints ["name"; "id"; "role"]) allPlayers).
  2:{ intros E. injection E as <- <-. exists []. rewrite app_nil_r.
      split; [reflexivity|apply terminal_nil]. }
  destruct (completion w (nextCompletion st)) as [s| |reason] eqn:Eanswer.
  - destruct (String.eqb s "") eqn:Es.
    + intros E. injection E as <- <-. one_call.
    + destruct (Repair.parseAndRepairJSON s) as [parsed|e0] eqn:Ep.
      * destruct (get parsed "hiddenContext") as [h|e1] eqn:Eh;
          intros E; injection E as <- <-; one_call.
      * intros E. injection E as <- <-. one_call.
  - intros E. injection E as <- <-. one_call.
  - intros E. injection E as <- <-. one_call.
Qed.

Lemma halting_generateAllPlayers (w : World) (n k d : Z) (starts : list Z) :
  forall allPlayers, Halting (generateAllPlayers w n k d starts allPlayers).
Proof.
  induction starts as [|batchStart rest IH]; intros allPlayers; cbn.
  - apply halting_ret.
  - apply halting_bind; [apply halting_generatePlayersBatch|].
    intros batch. apply IH.
Qed.

Create HintDb halting.

#[local] Hint Resolve halting_ret halting_throw halting_lift halting_assignRoles
  halting_core halting_hiddenContext halting_generateAllPlayers : halting.

Ltac halting :=
  repeat (apply halting_bind; [auto with halting | intros ?]);
  auto with halting.

Lemma halting_generateCase (w : World) (req : Request) :
  Halting (generateCase w req).
Proof.
  unfold generateCase.
  apply halting_bind; [apply halting_silent, quiet_usable|intros _].
  apply halting_bind; [apply halting_silent, quiet_usable|intros _].
  apply halting_bind; [apply halting_emit; reflexivity|intros _].
  apply halting_bind; [auto with halting|intros selectedSuspects].
  apply halting_bind.
  { destruct (String.eqb (caseType req) "asesinato"); [|auto with halting].
    apply halting_bind; [apply halting_emit; reflexivity|intros _].
    auto with halting. }
  intros weapon.
  apply halting_bind; [auto with halting|intros [k d]].
  apply halting_bind; [auto with halting|intros caseCore].
  apply halting_bind; [auto with halting|intros generated].
  apply halting_bind.
  { destruct (negb (Z.of_nat (List.length generated) =? suspects req));
      auto with halting. }
  intros _. halting.
Qed.


(** *** The calls come in order *)

Lemma sorted_app (a b : list Event) :
  StronglySorted before a -> StronglySorted before b ->
  (forall x y, In x a -> In y b -> before x y) ->
  StronglySorted before (a ++ b).
Proof.
  induction 1 as [|x a Ha IH Hx]; intros Hb Hab; cbn; [exact Hb|].
  constructor.
  - apply IH; [exact Hb|]. intros u v Hu Hv. apply Hab; [right; exact Hu|exact Hv].
  - apply Forall_app. split; [exact Hx|].
    apply Forall_forall. intros y Hy. apply Hab; [left; reflexivity|exact Hy].
Qed.

Lemma ordered_quiet {A} (lo hi : Z) (m : M A) : Quiet m -> Ordered lo hi m.
Proof.
  intros H st r st' E. exists [].
  specialize (H st). rewrite E in H. cbn in H.
  rewrite H, app_nil_r. repeat split; constructor.
Qed.

Lemma ordered_emit (ev : Event) : Ordered (phase ev) (phase ev) (emit ev).
Proof.
  intros st r st' E. exists [ev].
  unfold emit in E. injection E as <- <-. cbn.
  split; [reflexivity|]. split; repeat constructor; lia.
Qed.

Lemma ordered_complete (w : World) (stage : Stage) :
  Ordered (phase (Generate stage NoContent)) (phase (Generate stage NoContent))
          (complete w stage).
Proof.
  intros st r st' E.
  exists [Generate stage (completion w (nextCompletion st))].
  split.
  - unfold complete in E.
    destruct (completion w (nextCompletion st)) as [s| |reason];
      [destruct (String.eqb s "")| |]; injection E as <- <-; reflexivity.
  - split; repeat constructor; destruct stage; cbn; lia.
Qed.

(** Two computations in a row: the phases of the second come after
    those of the first, or both make batch calls only. *)
Lemma ordered_bind {A B} (lo1 hi1 lo2 hi2 : Z) (m : M A) (k : A -> M B) :
  Ordered lo1 hi1 m -> (forall a, Ordered lo2 hi2 (k a)) ->
  lo1 <= lo2 -> hi1 <= hi2 ->
  hi1 < lo2 \/ (lo1 = 3 /\ hi2 = 3) ->
  Ordered lo1 hi2 (bind m k).
Proof.
  intros Hm Hk Hlo Hhi Hwin st r st' E.
  apply bind_inv in E as [(e & Em & ->)|(a & st1 & Em & Ek)].
  - destruct (Hm _ _ _ Em) as (evs1 & Ht1 & Hs1 & Hp1).
    exists evs1. split; [assumption|]. split; [assumption|].
    eapply Forall_impl; [|exact Hp1]. cbn. intros; lia.
  - destruct (Hm _ _ _ Em) as (evs1 & Ht1 & Hs1 & Hp1).
    destruct (Hk a _ _ _ Ek) as (evs2 & Ht2 & Hs2 & Hp2).
    exists (evs1 ++ evs2). split; [|split].
    + rewrite Ht2, Ht1, app_assoc. reflexivity.
    + apply sorted_app; [assumption|assumption|].
      intros x y Hx Hy. rewrite Forall_forall in Hp1, Hp2.
      specialize (Hp1 x Hx). specialize (Hp2 y Hy). unfold before.
      destruct Hwin as [Hlt|[-> ->]]; [left; lia|right; lia].
    + apply Forall_app. split.
      * eapply Forall_impl; [|exact Hp1]. cbn. intros; lia.
      * eapply Forall_impl; [|exact Hp2]. cbn. intros; lia.
Qed.

Lemma ordered_after_quiet {A B} (lo hi : Z) (m : M A) (k : A -> M B) :
  Quiet m -> (forall a, Ordered lo hi (k a)) -> Ordered lo hi (bind m k).
Proof.
  intros Hm Hk st r st' E. specialize (Hm st).
  apply bind_inv in E as [(e & Em & ->)|(a & st1 & Em & Ek)]; rewrite Em in Hm; cbn in Hm.
  - exists []. rewrite Hm, app_nil_r. repeat split; constructor.
  - destruct (Hk a _ _ _ Ek) as (evs & Ht & Hs & Hp).
    exists evs. rewrite Ht, Hm. auto.
Qed.

Lemma ordered_then_quiet {A B} (lo hi : Z) (m : M A) (k : A -> M B) :
  Ordered lo hi m -> (forall a, Quiet (k a)) -> Ordered lo hi (bind m k).
Proof.
  intros Hm Hk st r st' E.
  apply bind_inv in E as [(e & Em & ->)|(a & st1 & Em & Ek)].
  - destruct (Hm _ _ _ Em) as (evs & Ht & Hs & Hp). exists evs. auto.
  - destruct (Hm _ _ _ Em) as (evs & Ht & Hs & Hp). exists evs.
    specialize (Hk a st1). rewrite Ek in Hk. cbn in Hk. rewrite Hk. auto.
Qed.

Lemma ordered_core (w : World) (d : Z) : Ordered 2 2 (generateImpostorCaseCore w d).
Proof.
  unfold generateImpostorCaseCore.
  apply ordered_after_quiet; [auto with quiet|intros _].
  apply ordered_then_quiet; [apply (ordered_complete w (Core d))|intros; quiet].
Qed.

Lemma ordered_generatePlayersBatch (w : World) (n k d : Z)
      (existing : list JSON) (batchStart batchSize : Z) :
  Ordered 3 3 (generatePlayersBatch w n k d existing batchStart batchSize).
Proof.
  unfold generatePlayersBatch.
  apply ordered_after_quiet; [auto with quiet|intros _].
  apply ordered_after_quiet; [auto with quiet|intros _].
  apply ordered_then_quiet;
    [apply (ordered_complete w (Players _ _ _ _))|intros; quiet].
Qed.

Lemma ordered_hiddenContext (w : World) (k : Z) (allPlayers : list JSON) :
  Ordered 4 4 (generateImpostorHiddenContext w k allPlayers).
Proof.
  unfold generateImpostorHiddenContext.
  apply ordered_after_quiet; [auto with quiet|intros _].
  apply ordered_after_quiet; [auto with quiet|intros _].
  apply ordered_then_quiet;
    [apply (ordered_complete w (HiddenContext k))|intros; quiet].
Qed.

Lemma ordered_generateAllPlayers (w : World) (n k d : Z) (starts : list Z) :
  forall allPlayers, Ordered 3 3 (generateAllPlayers w n k d starts allPlayers).
Proof.
  induction starts as [|batchStart rest IH]; intros allPlayers; cbn.
  - apply ordered_quiet, quiet_ret.
  - apply (ordered_bind 3 3 3 3); [apply ordered_generatePlayersBatch| |lia|lia|auto].
    intros batch. apply IH.
Qed.

Lemma ordered_stages (w : World) (req : Request) (selected : list Suspect)
      (weapon : option Weapon) (k d : Z) :
  Ordered 2 4 (stages w req selected weapon k d).
Proof.
  unfold stages.
  apply (ordered_bind 2 2 3 4); [apply ordered_core|intros caseCore|lia|lia|lia].
  apply (ordered_bind 3 3 4 4);
    [apply ordered_generateAllPlayers|intros generated|lia|lia|lia].
  apply ordered_after_quiet; [quiet|intros _].
  apply ordered_after_quiet; [quiet|intros named].
  apply ordered_after_quiet; [quiet|intros allPlayers].
  apply ordered_then_quiet; [apply ordered_hiddenContext|intros; quiet].
Qed.


(** *** What every call is told *)

Lemma emits_quiet {A} (P : Event -> Prop) (m : M A) : Quiet m -> Emits P m.
Proof.
  intros H st r st' E. exists [].
  specialize (H st). rewrite E in H. cbn in H.
  rewrite H, app_nil_r. split; constructor.
Qed.

Lemma emits_complete (P : Event -> Prop) (w : World) (stage : Stage) :
  (forall answer, P (Generate stage answer)) -> Emits P (complete w stage).
Proof.
  intros HP st r st' E.
  exists [Generate stage (completion w (nextCompletion st))].
  split.
  - unfold complete in E.
    destruct (completion w (nextCompletion st)) as [s| |reason];
      [destruct (String.eqb s "")| |]; injection E as <- <-; reflexivity.
  - repeat constructor. apply HP.
Qed.

Lemma emits_bind {A B} (P : Event -> Prop) (m : M A) (k : A -> M B) :
  Emits P m -> (forall a, Emits P (k a)) -> Emits P (bind m k).
Proof.
  intros Hm Hk st r st' E.
  apply bind_inv in E as [(e & Em & ->)|(a & st1 & Em & Ek)].
  - exact (Hm _ _ _ Em).
  - destruct (Hm _ _ _ Em) as (evs1 & Ht1 & Hp1).
    destruct (Hk a _ _ _ Ek) as (evs2 & Ht2 & Hp2).
    exists (evs1 ++ evs2). split.
    + rewrite Ht2, Ht1, app_assoc. reflexivity.
    + apply Forall_app. split; assumption.
Qed.

(** Splits a chain of binds whose steps are quiet or already known to
    emit calls that satisfy the predicate. *)
Ltac emits :=
  repeat (apply emits_bind; [first [assumption | apply emits_quiet; quiet] | intros ?]);
  first [assumption | apply emits_quiet; quiet].

Lemma batchStarts_range (n : Z) : Forall (fun b => 0 <= b < n) (batchStarts n).
Proof.
  unfold batchStarts, BATCH_SIZE. apply Forall_forall. intros b Hb.
  apply in_map_iff in Hb as (k & <- & Hk). apply in_seq in Hk.
  pose proof (Z.mul_div_le (n + 3 - 1) 3 ltac:(lia)). lia.
Qed.

Lemma batch_informed (w : World) (req : Request) (batchStart : Z) (answer : Completion) :
  0 <= batchStart < suspects req ->
  informed w req
    (Generate
       (Players (Z.min BATCH_SIZE (suspects req - batchStart))
                (batchIndicesOf batchStart
                   (Z.min (batchStart + Z.min BATCH_SIZE (suspects req - batchStart))
                          (suspects req)))
                (culpritIndex w req) (discovererIndex w req))
       answer).
Proof.
  intros Hb. unfold informed, BATCH_SIZE. cbn.
  split; [split; reflexivity|]. split; [|exact I].
  set (size := Z.min 3 (suspects req - batchStart)).
  assert (Hsize : 1 <= size <= 3) by (subst size; lia).
  replace (Z.min (batchStart + size) (suspects req)) with (batchStart + size)
    by (subst size; lia).
  unfold batchIndicesOf.
  replace (batchStart + size - batchStart) with size by lia.
  split; [exact Hsize|]. split.
  - rewrite length_map, length_seq. lia.
  - apply Forall_forall. intros i Hi.
    apply in_map_iff in Hi as (j & <- & Hj). apply in_seq in Hj.
    subst size. lia.
Qed.

Lemma informed_generateAllPlayers (w : World) (req : Request) (starts : list Z) :
  Forall (fun b => 0 <= b < suspects req) starts ->
  forall allPlayers,
    Emits (informed w req)
          (generateAllPlayers w (suspects req) (culpritIndex w req)
                              (discovererIndex w req) starts allPlayers).
Proof.
  induction 1 as [|batchStart rest Hb _ IH]; intros allPlayers; cbn.
  - apply emits_quiet, quiet_ret.
  - apply emits_bind; [|intros batch; apply IH].
    unfold generatePlayersBatch.
    pose proof (emits_complete (informed w req) w _
                  (fun answer => batch_informed w req batchStart answer Hb)) as Hcall.
    emits.
Qed.

Lemma informed_stages (w : World) (req : Request) (selected : list Suspect)
      (weapon : option Weapon) :
  Emits (informed w req)
        (stages w req selected weapon (culpritIndex w req) (discovererIndex w req)).
Proof.
  unfold stages.
  pose proof (informed_generateAllPlayers w req _ (batchStarts_range (suspects req)) [])
    as Hall.
  assert (Hcore : Emits (informed w req)
                        (complete w (Core (discovererIndex w req)))).
  { apply emits_complete. intros answer. repeat split. }
  assert (Hhidden : Emits (informed w req)
                          (complete w (HiddenContext (culpritIndex w req)))).
  { apply emits_complete. intros answer. repeat split. }
  unfold generateImpostorCaseCore, generateImpostorHiddenContext.
  apply emits_bind; [emits|intros caseCore].
  apply emits_bind; [exact Hall|intros generated].
  apply emits_bind; [apply emits_quiet; quiet|intros _].
  apply emits_bind; [apply emits_quiet; quiet|intros named].
  apply emits_bind; [apply emits_quiet; quiet|intros allPlayers].
  apply emits_bind; [emits|intros hidden].
  apply emits_quiet. quiet.
Qed.

Lemma queries_informed (w : World) (req : Request) :
  Forall (informed w req) (queries req).
Proof.
  pose proof (queries_asked req) as Hasked. pose proof (queries_phase req) as Hphase.
  rewrite Forall_forall in *. intros ev Hev.
  specialize (Hasked ev Hev). specialize (Hphase ev Hev).
  destruct ev as [| |[]]; cbn in Hphase; try lia;
    (split; [exact I|split; [exact I|exact Hasked]]).
Qed.

(** *** The runs of the handler *)

Lemma handler_runs (w : World) (req : Request) :
  (exists error, handler w req = (badRequest error, initial))
  \/ exists r st,
       generateCase w req initial = (r, st)
       /\ handler w req
          = (match r with
             | Ok doc => mkResponse 200 (CaseBody doc)
             | Throw e => failure e
             end, st).
Proof.
  destruct (DisciplineFacts.handler_cases w req) as [H|H]; [left; exact H|].
  right. destruct (generateCase w req initial) as [r st] eqn:E.
  exists r, st. split; [reflexivity|exact H].
Qed.

(** The trace of a run that passed the validation: nothing when the
    names or the genders of the request stop it; otherwise the catalog
    queries, or the first of them, followed by the calls of the
    stages. *)
Lemma generateCase_trace (w : World) (req : Request) (r : Result CaseDocument)
      (st : State) :
  generateCase w req initial = (r, st) ->
  exists pre evs,
    trace st = pre ++ evs
    /\ (pre = [] \/ pre = firstn 1 (queries req) \/ pre = queries req)
    /\ StronglySorted before evs
    /\ Forall (fun ev => 2 <= phase ev <= 4) evs
    /\ Forall (informed w req) evs.
Proof.
  intros H. apply generateCase_split in H
    as [(-> & -> & _)
       |(_ & _ & [(e & -> & _ & Hpre)|(selected & weapon & nr & _ & _ & Hrun)])].
  - exists [], []. repeat split; auto; constructor.
  - exists (trace st), []. rewrite app_nil_r.
    split; [reflexivity|]. split; [right; exact Hpre|]. repeat split; constructor.
  - destruct (ordered_stages w req selected weapon _ _ _ _ _ Hrun)
      as (evs & Htrace & Hsorted & Hphase).
    destruct (informed_stages w req selected weapon _ _ _ Hrun)
      as (evs' & Htrace' & Hinformed).
    rewrite Htrace in Htrace'. apply app_inv_head in Htrace'. subst evs'.
    exists (queries req), evs. cbn [trace] in Htrace. auto 10.
Qed.


Lemma handler_trace (w : World) (req : Request) :
  (status (fst (handler w req)) = 400 /\ trace (snd (handler w req)) = [])
  \/ (status (fst (handler w req)) <> 400
      /\ exists pre evs,
           trace (snd (handler w req)) = pre ++ evs
           /\ (pre = [] \/ pre = firstn 1 (queries req) \/ pre = queries req)
           /\ StronglySorted before evs
           /\ Forall (fun ev => 2 <= phase ev <= 4) evs
           /\ Forall (informed w req) evs).
Proof.
  destruct (handler_runs w req) as [[error ->]|(r & st & Hrun & ->)].
  - left. split; reflexivity.
  - right. split; [destruct r; cbn; lia|].
    cbn [snd]. apply (generateCase_trace w req r st Hrun).
Qed.

Lemma prefix_of_queries (w : World) (req : Request) (pre : list Event) :
  pre = [] \/ pre = firstn 1 (queries req) \/ pre = queries req ->
  StronglySorted before pre
  /\ Forall (fun ev => 0 <= phase ev <= 1) pre
  /\ Forall (informed w req) pre.
Proof.
  pose proof (queries_sorted req) as Hs. pose proof (queries_phase req) as Hp.
  pose proof (queries_informed w req) as Hi.
  assert (Eq : exists q rest, queries req = q :: rest) by (unfold queries; eauto).
  destruct Eq as (q & rest & Eq). rewrite Eq in *. cbn [firstn].
  intros [->|[->| ->]].
  - repeat split; constructor.
  - inversion Hp; inversion Hi; subst.
    split; [repeat constructor|].
    split; constructor; auto.
  - auto.
Qed.


Lemma informed_trace (w : World) (req : Request) :
  Forall (informed w req) (trace (snd (handler w req))).
Proof.
  destruct (handler_trace w req)
    as [[_ ->]|(_ & pre & evs & -> & Hpre & _ & _ & Hevs)]; [constructor|].
  apply Forall_app. split; [|exact Hevs].
  apply (prefix_of_queries w req pre Hpre).
Qed.


(** *** What a document is made of *)

Lemma prints_not_null (keys : list string) (players : list JSON) :
  forallb (prints keys) players = true -> existsb isNull players = false.
Proof.
  induction players as [|p rest IH]; cbn; [reflexivity|].
  intros H. apply andb_true_iff in H as [Hp Hrest].
  rewrite (IH Hrest), orb_false_r.
  unfold prints in Hp. apply andb_true_iff in Hp as [Hp _].
  apply negb_true_iff, Hp.
Qed.

Lemma get_ok (v : JSON) (key : string) (x : option JSON) :
  get v key = Ok x -> x = prop v key.
Proof. destruct v; cbn; intros H; try discriminate H; injection H as <-; reflexivity. Qed.

Lemma core_answer (w : World) (d : Z) (st st' : State) (caseCore : JSON) :
  generateImpostorCaseCore w d st = (Ok caseCore, st') ->
  exists s,
    trace st' = trace st ++ [Generate (Core d) (Content s)]
    /\ Repair.parseAndRepairJSON s = Ok caseCore.
Proof.
  unfold generateImpostorCaseCore, bind, getOpenAIClient, complete, lift, ret, throw.
  destruct (hasApiKey w); [|discriminate].
  destruct (completion w (nextCompletion st)) as [s| |reason]; try discriminate.
  destruct (String.eqb s ""); [discriminate|].
  destruct (Repair.parseAndRepairJSON s) as [parsed|] eqn:Ep; [|discriminate].
  intros H. injection H as <- <-. exists s. split; [reflexivity|exact Ep].
Qed.

(** The document of a successful run of the stages. *)
Lemma stages_document (w : World) (req : Request) (selected : list Suspect)
      (weapon : option Weapon) (k d : Z) (st0 st : State) (doc : CaseDocument) :
  stages w req selected weapon k d st0 = (Ok doc, st) ->
  exists s caseCore rest,
    trace st = trace st0 ++ Generate (Core d) (Content s) :: rest
    /\ Repair.parseAndRepairJSON s = Ok caseCore
    /\ caseTitle doc = prop caseCore "caseTitle"
    /\ caseDescription doc = prop caseCore "caseDescription"
    /\ victim doc = prop caseCore "victim"
    /\ keepWeaponPhoto weapon caseCore = Ok (Pipeline.weapon doc)
    /\ config doc = configOf req
    /\ existsb isNull (players doc) = false.
Proof.
  unfold stages. intros H.
  apply RunFacts.bind_ok in H as (caseCore & s5 & H5 & H).
  apply core_answer in H5 as (s & Htrace5 & Hparse).
  apply RunFacts.bind_ok in H as (generated & s6 & H6 & H).
  destruct (ordered_generateAllPlayers _ _ _ _ _ _ _ _ _ H6) as (evs & Htrace6 & _).
  apply RunFacts.bind_ok in H as ([] & s7 & H7 & H).
  assert (Hs7 : s7 = s6).
  { destruct (negb (Z.of_nat (List.length generated) =? suspects req));
      [discriminate H7|]. unfold ret in H7. injection H7 as <-. reflexivity. }
  subst s7.
  apply RunFacts.bind_ok in H as (named & s8 & H8 & H).
  apply RunFacts.lift_ok in H8 as [_ ->].
  apply RunFacts.bind_ok in H as (allPlayers & s9 & H9 & H).
  apply RunFacts.lift_ok in H9 as [_ ->].
  apply RunFacts.bind_ok in H as (hidden & s10 & H10 & H).
  assert (Hread : existsb isNull allPlayers = false).
  { unfold generateImpostorHiddenContext, bind, getOpenAIClient, readable, throw in H10.
    destruct (hasApiKey w); [|discriminate H10].
    destruct (forallb (prints ["name"; "id"; "role"]) allPlayers) eqn:Eall;
      [|discriminate H10].
    apply prints_not_null in Eall. exact Eall. }
  apply RunFacts.hiddenContext_ok in H10 as (hiddenAnswer & Htrace10).
  apply RunFacts.bind_ok in H as (members & s11 & H11 & H).
  apply RunFacts.lift_ok in H11 as [_ ->].
  apply RunFacts.bind_ok in H as (coreWeapon & s12 & H12 & H).
  apply RunFacts.lift_ok in H12 as [Hweapon ->].
  apply RunFacts.bind_ok in H as (title & s13 & H13 & H).
  apply RunFacts.lift_ok in H13 as [Htitle ->].
  apply RunFacts.bind_ok in H as (description & s14 & H14 & H).
  apply RunFacts.lift_ok in H14 as [Hdescription ->].
  apply RunFacts.bind_ok in H as (vict & s15 & H15 & H).
  apply RunFacts.lift_ok in H15 as [Hvict ->].
  unfold ret in H. injection H as <- <-.
  exists s, caseCore, (evs ++ [Generate (HiddenContext k) hiddenAnswer]). cbn.
  rewrite Htrace10, Htrace6, Htrace5, <- !app_assoc.
  repeat split; auto using get_ok.
Qed.

(** What a response of status 200 comes from. *)
Lemma handler_document (w : World) (req : Request) (doc : CaseDocument) (st : State) :
  handler w req = (mkResponse 200 (CaseBody doc), st) ->
  (Reconciler.nonEmpty (scenario req)
   && match customScenario req with Some _ => true | None => false end = false)
  /\ (String.eqb (scenario req) ""
      && match customScenario req with Some _ => false | None => true end = false)
  /\ exists weapon s caseCore rest,
       (if String.eqb (caseType req) "asesinato"
        then selectedWeapon w = Ok weapon else weapon = None)
       /\ trace st = queries req ++ Generate (Core (discovererIndex w req)) (Content s) :: rest
       /\ Repair.parseAndRepairJSON s = Ok caseCore
       /\ caseTitle doc = prop caseCore "caseTitle"
       /\ caseDescription doc = prop caseCore "caseDescription"
       /\ victim doc = prop caseCore "victim"
       /\ keepWeaponPhoto weapon caseCore = Ok (Pipeline.weapon doc)
       /\ config doc = configOf req
       /\ existsb isNull (players doc) = false.
Proof.
  unfold handler.
  destruct (String.eqb (caseType req) "" || (suspects req =? 0) || (clues req =? 0)
            || String.eqb (difficulty req) ""); [discriminate|].
  destruct (Reconciler.nonEmpty (scenario req)
            && match customScenario req with Some _ => true | None => false end);
    [discriminate|].
  destruct (String.eqb (scenario req) ""
            && match customScenario req with Some _ => false | None => true end);
    [discriminate|].
  destruct (generateCase w req initial) as [[doc'|e] st'] eqn:Hrun; [|discriminate].
  intros H. injection H as -> ->.
  split; [reflexivity|]. split; [reflexivity|].
  apply generateCase_split in Hrun
    as [(Habs & _)
       |(_ & _ & [(e & Habs & _)|(selected & weapon & nr & _ & Hweapon & Hrun)])];
    [discriminate Habs|discriminate Habs|].
  apply stages_document in Hrun as (s & caseCore & rest & Hrun).
  exists weapon, s, caseCore, rest. split; [exact Hweapon|exact Hrun].
Qed.


End ProtocolFacts.

(* ================================================================== *)
(** ** Properties of every run of the handler *)

Module RunProperties.
Import Json Value Catalog Pipeline Spec Protocol Scenario Cases ProtocolFacts.

(** X7: a failed stage ends the run.  Whenever the answer to a
    generation call is one that its stage throws on (a rejected call, a
    missing or empty content, a text that the engine cannot repair, a
    value without a [players] array, a batch of the wrong size), that call
    is the last event of the trace, and the response is the error envelope
    of status 500 that carries that exception. *)
Theorem stage_failure_is_terminal
        (w : World) (req : Request) (p : nat) (ev : Event) (e : Exception) :
  nth_error (trace (snd (handler w req))) p = Some ev ->
  faultOf ev = Some e ->
  fst (handler w req) = failure e
  /\ List.length (trace (snd (handler w req))) = S p.
Proof.
  intros Hnth Hfault.
  destruct (handler_runs w req) as [[error E]|(r & st & Hrun & E)];
    rewrite E in *; cbn [fst snd] in *.
  - destruct p; discriminate Hnth.
  - destruct (halting_generateCase w req _ _ _ Hrun) as (evs & Htrace & Hterm).
    cbn in Htrace. rewrite Htrace in *.
    destruct (Hterm _ _ _ Hnth Hfault) as [Hlast ->].
    split; [reflexivity|]. symmetry. exact Hlast.
Qed.

Lemma stage_failure_is_terminal_witness :
  nth_error (trace (snd (handler refusingWorld twoPlayers))) 1
  = Some (Generate (Core 1) (Content "Lo siento, no puedo ayudar con eso."))
  /\ faultOf (Generate (Core 1) (Content "Lo siento, no puedo ayudar con eso."))
     = Some IncompleteJSON
  /\ fst (handler refusingWorld twoPlayers) = failure IncompleteJSON
  /\ List.length (trace (snd (handler refusingWorld twoPlayers))) = 2%nat.
Proof.
  split; [reflexivity|]. split; [reflexivity|].
  apply (stage_failure_is_terminal refusingWorld twoPlayers 1
           (Generate (Core 1) (Content "Lo siento, no puedo ayudar con eso."))
           IncompleteJSON); reflexivity.
Defined.

(** X8: the collaborators are called in a fixed order.  In the trace of
    every run, failed or not, the query for the suspects comes first, then
    the query for the weapon, the core call, the batch calls and the
    hidden-context call: every call other than a batch call occurs at most
    once, and none comes before a call of an earlier phase. *)
Theorem calls_come_in_order (w : World) (req : Request) :
  StronglySorted before (trace (snd (handler w req))).
Proof.
  destruct (handler_trace w req)
    as [[_ ->]|(_ & pre & evs & -> & Hpre & Hsorted & Hphase & _)]; [constructor|].
  destruct (prefix_of_queries w req pre Hpre) as (Hs & Hp & _).
  apply sorted_app; [exact Hs|exact Hsorted|].
  intros x y Hx Hy. rewrite Forall_forall in Hp, Hphase.
  specialize (Hp x Hx). specialize (Hphase y Hy). left. lia.
Qed.

(** X9: every batch call is well formed.  In every run, a batch call
    asks for at least one and at most three players, lists exactly as many
    indices as it asks players for, and every index it lists is between 1
    and the number of players of the request. *)
Theorem batch_calls_are_well_formed (w : World) (req : Request) :
  Forall (batchShape req) (trace (snd (handler w req))).
Proof.
  eapply Forall_impl; [|apply (informed_trace w req)].
  intros ev (_ & H & _). exact H.
Qed.

(** X11: the roles are drawn once, before the first generation call.
    [assignRoles] returns the culprit index (the first draw, scaled) and
    the discoverer index (the culprit when the second draw is below 0.3,
    the third draw otherwise), and in every run each generation call is
    told these two indices: the core the discoverer, every batch both, the
    hidden context the culprit. *)
Theorem roles_told_are_the_drawn_ones (w : World) (req : Request) :
  fst (assignRoles w (suspects req) initial)
  = Ok (culpritIndex w req, discovererIndex w req)
  /\ Forall (rolesTold w req) (trace (snd (handler w req))).
Proof.
  split.
  - destruct (assignRoles_run w (suspects req) initial) as [nr ->]. reflexivity.
  - eapply Forall_impl; [|apply (informed_trace w req)].
    intros ev (H & _ & _). exact H.
Qed.

(** X13: the catalog queries follow the request.  In every run the
    suspects are asked for with the count, style and genders of the
    request; the weapon is asked for in a murder case only; and with a
    custom scenario both queries name no scene and the weapon query does
    not prefer a scene-specific weapon. *)
Theorem catalog_queries_follow_request (w : World) (req : Request) :
  Forall (catalogAsked req) (trace (snd (handler w req))).
Proof.
  eapply Forall_impl; [|apply (informed_trace w req)].
  intros ev (_ & _ & H). exact H.
Qed.


(** A body whose [playerNames] is [null]: the run stops before the
    first query. *)
Example null_names_call_nobody :
  handler driftingWorld
          (mkRequest "robo" 2 3 "mansion" None "facil" "" "" None (Some []))
  = (failure TypeError, initial).
Proof. reflexivity. Qed.

(** Players whose role does not convert to text: the matching throws,
    and the run ends after the batch call. *)
Example illegible_role_fails_the_run :
  fst (handler illegibleWorld twoPlayers) = failure TypeError
  /\ List.length (trace (snd (handler illegibleWorld twoPlayers))) = 3%nat.
Proof. vm_compute. split; reflexivity. Qed.

(** X15: without an API key no generation call is made.  The response
    is never a document, and the trace holds catalog queries only. *)
Theorem no_key_no_generation (w : World) (req : Request) :
  hasApiKey w = false ->
  status (fst (handler w req)) <> 200
  /\ Forall (fun ev => phase ev <= 1) (trace (snd (handler w req))).
Proof.
  intros Hkey.
  destruct (handler_runs w req) as [[error ->]|(r & st & Hrun & ->)].
  - split; [discriminate|constructor].
  - cbn [fst snd].
    assert (Hpre : (exists e, r = Throw e)
                   /\ (trace st = [] \/ trace st = firstn 1 (queries req)
                       \/ trace st = queries req)).
    { apply generateCase_split in Hrun
        as [(-> & -> & _)
           |(_ & _ & [(e & -> & _ & Hpre)|(selected & weapon & nr & _ & _ & Hrun)])].
      - split; [eauto|left; reflexivity].
      - split; [eauto|right; exact Hpre].
      - unfold stages, generateImpostorCaseCore, bind, getOpenAIClient, throw in Hrun.
        rewrite Hkey in Hrun. injection Hrun as <- <-.
        split; [eauto|right; right; reflexivity]. }
    destruct Hpre as [[e ->] Hpre]. split; [discriminate|].
    destruct (prefix_of_queries w req _ Hpre) as (_ & Hp & _).
    eapply Forall_impl; [|exact Hp]. cbn. intros; lia.
Qed.

Lemma no_key_no_generation_witness :
  hasApiKey keylessWorld = false
  /\ status (fst (handler keylessWorld twoPlayers)) <> 200
  /\ Forall (fun ev => phase ev <= 1) (trace (snd (handler keylessWorld twoPlayers))).
Proof.
  split; [reflexivity|].
  apply (no_key_no_generation keylessWorld twoPlayers). reflexivity.
Defined.

(** X12: the roles drawn name players of the case.  When the draws are
    numerators of doubles in [0, 1) and the request asks for at least one
    player, the culprit index and the discoverer index both lie between 1
    and the number of players. *)
Theorem drawn_roles_in_range (w : World) (req : Request) :
  (forall n, 0 <= random w n < 2 ^ 53) ->
  0 < suspects req ->
  1 <= culpritIndex w req <= suspects req
  /\ 1 <= discovererIndex w req <= suspects req.
Proof.
  intros Hdraws Hn.
  pose proof (FloatFacts.floorTimes_range (random w 0) (suspects req) (Hdraws _) Hn).
  pose proof (FloatFacts.floorTimes_range (random w 2) (suspects req) (Hdraws _) Hn).
  unfold discovererIndex, culpritIndex.
  destruct (below03 (random w 1)); lia.
Qed.

Lemma drawn_roles_in_range_witness :
  (forall n, 0 <= random drawsWorld n < 2 ^ 53)
  /\ 0 < suspects twoPlayers
  /\ 1 <= culpritIndex drawsWorld twoPlayers <= suspects twoPlayers
  /\ 1 <= discovererIndex drawsWorld twoPlayers <= suspects twoPlayers.
Proof.
  assert (H : forall n, 0 <= random drawsWorld n < 2 ^ 53).
  { intros [|[|n]]; cbn; lia. }
  split; [exact H|]. split; [reflexivity|].
  apply (drawn_roles_in_range drawsWorld twoPlayers H). reflexivity.
Defined.


Lemma generateAllPlayers_count (w : World) (n k d : Z) (starts : list Z) :
  Forall (fun b => 0 <= b < n) starts ->
  forall (allPlayers result : list JSON) (st st' : State),
    generateAllPlayers w n k d starts allPlayers st = (Ok result, st') ->
    List.length result
    = (List.length allPlayers + List.length (flat_map (listed n) starts))%nat.
Proof.
  induction 1 as [|b rest Hb _ IH]; intros allPlayers result st st'; cbn.
  - unfold ret. intros H. injection H as <- _. lia.
  - intros H. apply RunFacts.bind_ok in H as (batch & st1 & Hbatch & Hrest).
    pose proof (DisciplineFacts.generatePlayersBatch_cases
                  w n k d allPlayers b (Z.min BATCH_SIZE (n - b)) st) as Hcases.
    cbn zeta in Hcases. rewrite Hbatch in Hcases.
    destruct Hcases as (_ & _ & Hlen & _).
    rewrite (IH _ _ _ _ Hrest), !length_app.
    assert (Hlisted : List.length (listed n b) = List.length batch).
    { unfold listed, batchIndicesOf. rewrite length_map, length_seq.
      unfold BATCH_SIZE in *. lia. }
    lia.
Qed.

(** X10: the batches add up.  When the request asks for a number of
    players that is not negative and every batch call succeeds, the batch
    loop returns exactly that many players: each batch is checked against
    its own size and the sizes sum to the count, so that the count check
    which follows the loop in the handler cannot fail. *)
Theorem all_batches_give_the_count
        (w : World) (n k d : Z) (generated : list JSON) (st st' : State) :
  0 <= n ->
  generateAllPlayers w n k d (batchStarts n) [] st = (Ok generated, st') ->
  Z.of_nat (List.length generated) = n.
Proof.
  intros Hn H.
  rewrite (generateAllPlayers_count w n k d _ (batchStarts_range n) _ _ _ _ H).
  rewrite RunFacts.listed_all. unfold indices. rewrite length_map, length_seq.
  cbn. lia.
Qed.

Lemma all_batches_give_the_count_witness :
  exists generated st',
    0 <= 2
    /\ generateAllPlayers driftingWorld 2 1 1 (batchStarts 2) [] (mkState 2 1 [])
       = (Ok generated, st')
    /\ Z.of_nat (List.length generated) = 2.
Proof.
  destruct (generateAllPlayers driftingWorld 2 1 1 (batchStarts 2) [] (mkState 2 1 []))
    as [r st'] eqn:E.
  pose proof E as E'. vm_compute in E'. injection E' as <- <-.
  eexists _, _. split; [lia|]. split; [reflexivity|].
  apply (all_batches_give_the_count driftingWorld 2 1 1 _ _ _ ltac:(lia) E).
Defined.

End RunProperties.

(* ================================================================== *)
(** ** Properties of the documents *)

Module DocumentProperties.
Import Json Value Catalog Pipeline Spec Protocol Scenario Cases ProtocolFacts.

(** X16: the core fields are copied, not checked.  In a response of
    status 200 the title, the description and the victim are the
    properties of those names of the value parsed from the answer to the
    core call, the first generation call of the run; a property that the
    answer lacks is absent from the document too. *)
Theorem core_fields_are_copied
        (w : World) (req : Request) (doc : CaseDocument) (st : State) :
  handler w req = (mkResponse 200 (CaseBody doc), st) ->
  exists s caseCore,
    nth_error (trace st) (List.length (queries req))
    = Some (Generate (Core (discovererIndex w req)) (Content s))
    /\ Repair.parseAndRepairJSON s = Ok caseCore
    /\ caseTitle doc = prop caseCore "caseTitle"
    /\ caseDescription doc = prop caseCore "caseDescription"
    /\ victim doc = prop caseCore "victim".
Proof.
  intros H. apply handler_document in H
    as (_ & _ & weapon & s & caseCore & rest & _ & Htrace & Hparse & Ht & Hd & Hv & _).
  exists s, caseCore. rewrite Htrace, nth_error_app2, Nat.sub_diag by lia. auto.
Qed.

Lemma core_fields_are_copied_witness :
  exists doc st s caseCore,
    handler murderWorld murder = (mkResponse 200 (CaseBody doc), st)
    /\ nth_error (trace st) (List.length (queries murder))
       = Some (Generate (Core (discovererIndex murderWorld murder)) (Content s))
    /\ Repair.parseAndRepairJSON s = Ok caseCore
    /\ caseTitle doc = prop caseCore "caseTitle"
    /\ caseDescription doc = prop caseCore "caseDescription"
    /\ victim doc = prop caseCore "victim".
Proof.
  destruct (handler murderWorld murder) as [resp st] eqn:E.
  pose proof E as E'. vm_compute in E'. injection E' as <- <-.
  eexists _, _.
  destruct (core_fields_are_copied murderWorld murder _ _ E) as (s & caseCore & H).
  exists s, caseCore. split; [reflexivity|exact H].
Defined.


(** X17: the photo of the weapon is the catalog's.  In a response of
    status 200 to a murder case for which the catalog gave a weapon, a
    weapon of the document that is an object has the image URL of the
    catalog weapon as its photo, whatever photo the generated weapon
    carried. *)
Theorem weapon_photo_is_the_catalog_one
        (w : World) (req : Request) (doc : CaseDocument) (st : State)
        (selected : Weapon) (ms : list (string * JSON)) :
  handler w req = (mkResponse 200 (CaseBody doc), st) ->
  caseType req = "asesinato" ->
  selectedWeapon w = Ok (Some selected) ->
  Pipeline.weapon doc = Some (JObject ms) ->
  lookup "photo" ms = Some (JString (weapon_image_url selected)).
Proof.
  intros H Htype Hsel Hdoc. apply handler_document in H
    as (_ & _ & weapon & s & caseCore & rest & Hweapon & _ & _ & _ & _ & _ & Hkeep & _).
  rewrite Htype in Hweapon. cbn in Hweapon. rewrite Hsel in Hweapon.
  injection Hweapon as <-. rewrite Hdoc in Hkeep.
  unfold keepWeaponPhoto in Hkeep.
  destruct (get caseCore "weapon") as [[cw|]|]; try discriminate Hkeep.
  destruct cw as [| b | m e | t | l | ms0]; cbn in Hkeep;
    repeat match type of Hkeep with
      | (if ?b then _ else _) = _ => destruct b
      end;
    try discriminate Hkeep.
  injection Hkeep as <-. apply ValueFacts.lookup_assign_same.
Qed.

Lemma weapon_photo_is_the_catalog_one_witness :
  exists doc st,
    handler murderWorld murder = (mkResponse 200 (CaseBody doc), st)
    /\ caseType murder = "asesinato"
    /\ selectedWeapon murderWorld = Ok (Some knife)
    /\ Pipeline.weapon doc
       = Some (JObject [("name", JString "Cuchillo");
                        ("photo", JString "https://img/knife.png")])
    /\ lookup "photo" [("name", JString "Cuchillo");
                       ("photo", JString "https://img/knife.png")]
       = Some (JString (weapon_image_url knife)).
Proof.
  destruct (handler murderWorld murder) as [resp st] eqn:E.
  pose proof E as E'. vm_compute in E'. injection E' as <- <-.
  eexists _, _. split; [reflexivity|]. split; [reflexivity|].
  split; [reflexivity|]. split; [reflexivity|].
  apply (weapon_photo_is_the_catalog_one murderWorld murder _ _ knife _ E);
    reflexivity.
Defined.

(** X18: the configuration of the document echoes the request, and the
    default scenario is never used: in a response of status 200 without a
    custom scenario, the scenario of the configuration is the scenario of
    the request, which is not empty, so that the fallback to "aleatorio"
    never applies; with a custom scenario it is the place, followed by the
    theme when there is one. *)
Theorem scenario_default_is_never_used
        (w : World) (req : Request) (doc : CaseDocument) (st : State) :
  handler w req = (mkResponse 200 (CaseBody doc), st) ->
  configCaseType (config doc) = caseType req
  /\ totalClues (config doc) = clues req
  /\ configDifficulty (config doc) = difficulty req
  /\ configCustomScenario (config doc) = customScenario req
  /\ match customScenario req with
     | None => scenario req <> "" /\ configScenario (config doc) = scenario req
     | Some c =>
         scenario req = ""
         /\ configScenario (config doc) = buildCustomScenarioText c
     end.
Proof.
  intros H. apply handler_document in H
    as (Hboth & Hnone & weapon & s & caseCore & rest & _ & _ & _ & _ & _ & _ & _ & -> & _).
  cbn. repeat split.
  unfold Reconciler.nonEmpty in Hboth.
  destruct (customScenario req) as [c|];
    destruct (String.eqb_spec (scenario req) ""); cbn in *; try discriminate;
    split; auto.
Qed.

Lemma scenario_default_is_never_used_witness :
  exists doc st,
    handler driftingWorld twoPlayers = (mkResponse 200 (CaseBody doc), st)
    /\ configCaseType (config doc) = caseType twoPlayers
    /\ totalClues (config doc) = clues twoPlayers
    /\ configDifficulty (config doc) = difficulty twoPlayers
    /\ configCustomScenario (config doc) = customScenario twoPlayers
    /\ scenario twoPlayers <> ""
    /\ configScenario (config doc) = scenario twoPlayers.
Proof.
  destruct (handler driftingWorld twoPlayers) as [resp st] eqn:E.
  pose proof E as E'. vm_compute in E'. injection E' as <- <-.
  eexists _, _. split; [reflexivity|].
  apply (scenario_default_is_never_used driftingWorld twoPlayers _ _ E).
Defined.

Lemma applyNames_nth :
  forall (allPlayers named : list JSON) (names : list string) (i : nat)
         (ms : list (string * JSON)) (name : string),
    applyNames allPlayers names = Ok named ->
    nth_error allPlayers i = Some (JObject ms) ->
    nth_error names i = Some name ->
    name <> "" ->
    exists p, nth_error named i = Some p /\ prop p "name" = Some (JString name).
Proof.
  induction allPlayers as [|p0 rest IH]; intros named names i ms name Hrun Hp Hn Hne.
  - destruct i; discriminate Hp.
  - cbn in Hrun.
    destruct (if Reconciler.nonEmpty (hd "" names)
              then set p0 "name" (JString (hd "" names)) else Ok p0)
      as [p'|] eqn:Ehead; [|discriminate Hrun].
    destruct (applyNames rest (tl names)) as [rest'|] eqn:Erest; [|discriminate Hrun].
    injection Hrun as <-.
    destruct i as [|i].
    + cbn in Hp. injection Hp as ->. destruct names as [|n0 names]; [discriminate Hn|].
      cbn in Hn. injection Hn as ->. cbn in Ehead.
      unfold Reconciler.nonEmpty in Ehead.
      destruct (String.eqb_spec name ""); [contradiction|]. cbn in Ehead.
      injection Ehead as <-. exists (JObject (assign "name" (JString name) ms)).
      split; [reflexivity|]. cbn. apply ValueFacts.lookup_assign_same.
    + destruct names as [|n0 names]; [discriminate Hn|].
      cbn in Hp, Hn. cbn [nth_error]. eapply IH; eassumption.
Qed.

(** X19: the names of the request are applied.  In a response of status
    200, when the request gives a non-empty name at a position and the
    generated player at that position is an object, the player of the
    document at that position carries that name, whatever name the
    generation gave it. *)
Theorem provided_names_are_applied
        (w : World) (req : Request) (doc : CaseDocument) (st : State)
        (i : nat) (item : NameItem) (ms : list (string * JSON)) :
  handler w req = (mkResponse 200 (CaseBody doc), st) ->
  nth_error (playerNames req) i = Some item ->
  normaliseName item <> "" ->
  nth_error (generatedPlayers (trace st)) i = Some (JObject ms) ->
  exists p,
    nth_error (players doc) i = Some p
    /\ prop p "name" = Some (JString (normaliseName item)).
Proof.
  intros H Hitem Hne Hgen.
  apply RunFacts.handler_ok, RunFacts.successful_generated in H
    as (named & selected & Hnames & _ & Hphotos & _).
  destruct (applyNames_nth _ _ _ i ms (normaliseName item) Hnames Hgen)
    as (p' & Hp' & Hname); [|exact Hne|].
  { rewrite nth_error_map, Hitem. reflexivity. }
  pose proof (ReconcilerFacts.matchAll_other selected "name" ltac:(discriminate)
                _ _ _ Hphotos) as Hsame.
  apply (f_equal (fun l => nth_error l i)) in Hsame.
  rewrite !nth_error_map, Hp' in Hsame. cbn in Hsame.
  destruct (nth_error (players doc) i) as [p|]; [|discriminate Hsame].
  cbn in Hsame. injection Hsame as Hsame.
  exists p. split; [reflexivity|]. rewrite Hsame. exact Hname.
Qed.

Lemma provided_names_are_applied_witness :
  exists doc st p,
    handler murderWorld murder = (mkResponse 200 (CaseBody doc), st)
    /\ nth_error (playerNames murder) 1 = Some (NamedPlayer "Luis" "male")
    /\ normaliseName (NamedPlayer "Luis" "male") <> ""
    /\ nth_error (generatedPlayers (trace st)) 1
       = Some (JObject [("id", JString "player-2"); ("name", JString "Y")])
    /\ nth_error (players doc) 1 = Some p
    /\ prop p "name" = Some (JString "Luis").
Proof.
  destruct (handler murderWorld murder) as [resp st] eqn:E.
  pose proof E as E'. vm_compute in E'. injection E' as <- <-.
  eexists _, _.
  destruct (provided_names_are_applied murderWorld murder _ _ 1
              (NamedPlayer "Luis" "male")
              [("id", JString "player-2"); ("name", JString "Y")] E)
    as (p & Hp); [reflexivity|discriminate|reflexivity|].
  exists p. split; [reflexivity|]. split; [reflexivity|].
  split; [discriminate|]. split; [reflexivity|exact Hp].
Defined.

(** X26: a document holds no null player.  In a response of status 200
    no element of the players array is [null]: the prompt of the hidden
    context reads a property of every player, which throws on [null], so
    that a run whose players include one ends with status 500. *)
Theorem no_null_player_in_a_document
        (w : World) (req : Request) (doc : CaseDocument) (st : State) :
  handler w req = (mkResponse 200 (CaseBody doc), st) ->
  Forall (fun p => p <> JNull) (players doc).
Proof.
  intros H. apply handler_document in H
    as (_ & _ & weapon & s & caseCore & rest & _ & _ & _ & _ & _ & _ & _ & _ & Hread).
  apply Forall_forall. intros p Hp ->.
  assert (Habs : existsb isNull (players doc) = true)
    by (apply existsb_exists; exists JNull; split; [exact Hp|reflexivity]).
  congruence.
Qed.

Lemma no_null_player_in_a_document_witness :
  exists doc st,
    handler murderWorld murder = (mkResponse 200 (CaseBody doc), st)
    /\ Forall (fun p => p <> JNull) (players doc).
Proof.
  destruct (handler murderWorld murder) as [resp st] eqn:E.
  pose proof E as E'. vm_compute in E'. injection E' as <- <-.
  eexists _, _. split; [reflexivity|].
  apply (no_null_player_in_a_document murderWorld murder _ _ E).
Defined.

End DocumentProperties.

(* ================================================================== *)
(** ** Properties of the catalog service *)

Module SuspectServiceFacts.
Import Catalog SuspectService.

Lemma findIndex_bound {A} (f : A -> bool) (l : list A) :
  -1 <= findIndex f l < Z.of_nat (List.length l).
Proof.
  induction l as [|x l IH]; cbn [findIndex List.length]; [lia|].
  destruct (f x); [lia|]. cbn zeta.
  destruct (Z.ltb_spec (findIndex f l) 0); lia.
Qed.

Lemma findIndex_app {A} (f : A -> bool) (pre rest : list A) :
  findIndex f (pre ++ rest)
  = if existsb f pre then findIndex f pre
    else let i := findIndex f rest in
         if i <? 0 then -1 else Z.of_nat (List.length pre) + i.
Proof.
  induction pre as [|x pre IH]; cbn [app existsb findIndex List.length].
  - cbn zeta. pose proof (findIndex_bound f rest).
    destruct (Z.ltb_spec (findIndex f rest) 0); lia.
  - destruct (f x); [reflexivity|]. cbn [orb]. rewrite IH.
    destruct (existsb f pre); [reflexivity|]. cbn zeta.
    destruct (findIndex f rest <? 0) eqn:E; [reflexivity|].
    apply Z.ltb_ge in E.
    destruct (Z.ltb_spec (Z.of_nat (List.length pre) + findIndex f rest) 0); lia.
Qed.

(** A record passes the filter exactly when no record before it has
    its identifier. *)
Lemma first_occurrence (pre rest : list Suspect) (x : Suspect) :
  (Z.of_nat (List.length pre)
   =? findIndex (fun s => String.eqb (id s) (id x)) (pre ++ x :: rest))
  = negb (existsb (fun s => String.eqb (id s) (id x)) pre).
Proof.
  rewrite findIndex_app.
  destruct (existsb (fun s => String.eqb (id s) (id x)) pre) eqn:E; cbn [negb].
  - pose proof (findIndex_bound (fun s => String.eqb (id s) (id x)) pre).
    apply Z.eqb_neq. lia.
  - cbn [findIndex]. rewrite String.eqb_refl. cbn. apply Z.eqb_eq. lia.
Qed.

Lemma existsb_id (pre : list Suspect) (x : Suspect) :
  existsb (fun s => String.eqb (id s) (id x)) pre = true <-> In (id x) (map id pre).
Proof.
  rewrite existsb_exists, in_map_iff. split.
  - intros (s & Hs & E). apply String.eqb_eq in E. eauto.
  - intros (s & E & Hs). exists s. split; [exact Hs|]. apply String.eqb_eq, E.
Qed.

Lemma filter_from (rest : list Suspect) :
  forall pre : list Suspect,
    let kept :=
      filterFrom
        (fun suspect index =>
           index =? findIndex (fun s => String.eqb (id s) (id suspect)) (pre ++ rest))
        rest (Z.of_nat (List.length pre)) in
    NoDup (map id kept)
    /\ (forall y, In y kept -> In y rest /\ ~ In (id y) (map id pre))
    /\ (forall y, In y rest -> In (id y) (map id pre) \/ In (id y) (map id kept)).
Proof.
  induction rest as [|x rest IH]; intros pre; cbn zeta.
  - cbn. split; [constructor|]. split; intros y [].
  - cbn [filterFrom]. rewrite first_occurrence.
    specialize (IH (pre ++ [x])). cbn zeta in IH.
    rewrite <- app_assoc, length_app, Nat2Z.inj_add in IH.
    cbn [app List.length] in IH. change (Z.of_nat 1) with 1 in IH.
    destruct IH as (Hnd & Hin & Hall).
    set (kept := filterFrom _ rest _) in *.
    destruct (existsb (fun s => String.eqb (id s) (id x)) pre) eqn:E; cbn [negb].
    + apply existsb_id in E. split; [exact Hnd|]. split.
      * intros y Hy. destruct (Hin y Hy) as [Hr Hp]. split; [right; exact Hr|].
        intros Habs. apply Hp. rewrite map_app, in_app_iff. left. exact Habs.
      * intros y [<-|Hy]; [left; exact E|].
        destruct (Hall y Hy) as [Hp|Hk]; [|right; exact Hk].
        rewrite map_app, in_app_iff in Hp. destruct Hp as [Hp|[<-|[]]]; left; assumption.
    + assert (Hx : ~ In (id x) (map id pre)).
      { intros Habs. apply existsb_id in Habs. congruence. }
      split; [|split].
      * cbn [map]. constructor; [|exact Hnd].
        intros Habs. apply in_map_iff in Habs as (y & Ey & Hy).
        destruct (Hin y Hy) as [_ Hp]. apply Hp.
        rewrite map_app, in_app_iff. right. left. symmetry. exact Ey.
      * intros y [<-|Hy]; [split; [left; reflexivity|exact Hx]|].
        destruct (Hin y Hy) as [Hr Hp]. split; [right; exact Hr|].
        intros Habs. apply Hp. rewrite map_app, in_app_iff. left. exact Habs.
      * intros y [<-|Hy]; [right; left; reflexivity|].
        destruct (Hall y Hy) as [Hp|Hk]; [|right; right; exact Hk].
        rewrite map_app, in_app_iff in Hp.
        destruct Hp as [Hp|[<-|[]]]; [left; exact Hp|right; left; reflexivity].
Qed.

(** X24: the list that the service returns holds no identifier twice.
    The last filter of [getSuspectsForScene] keeps records of the list it
    is given only, keeps no two records with the same identifier, and
    loses no identifier. *)
Theorem unique_result_has_distinct_ids (result : list Suspect) :
  NoDup (map id (uniqueResult result))
  /\ incl (uniqueResult result) result
  /\ incl (map id result) (map id (uniqueResult result)).
Proof.
  destruct (filter_from result []) as (Hnd & Hin & Hall).
  split; [exact Hnd|]. split.
  - intros y Hy. apply (Hin y Hy).
  - intros i Hi. apply in_map_iff in Hi as (y & <- & Hy).
    destruct (Hall y Hy) as [[]|Hk]. exact Hk.
Qed.


(** *** The share of the extras *)

(** The double product [n * 0.3] never rounds across an integer: for
    the counts of a request, [Math.floor(n * 0.3)] is the integer part of
    three tenths of [n]. *)
Lemma floorThreeTenths_exact (n : Z) :
  8 <= n < 2 ^ 31 -> floorThreeTenths n = 3 * n / 10.
Proof.
  intros Hn. change (2 ^ 31) with 2147483648 in Hn.
  unfold floorThreeTenths, Pipeline.round53.
  set (x := n * 5404319552844595).
  assert (Hx : 2 ^ 55 <= x < 2 ^ 84).
  { change (2 ^ 55) with 36028797018963968.
    change (2 ^ 84) with 19342813113834066795298816. subst x. lia. }
  assert (Hpos : 0 < x) by (change (2 ^ 55) with 36028797018963968 in Hx; lia).
  pose proof (Z.log2_spec x Hpos) as Hlog.
  assert (Hlo : 55 <= Z.log2 x).
  { replace 55 with (Z.log2 (2 ^ 55)) by reflexivity. apply Z.log2_le_mono. lia. }
  assert (Hhi : Z.log2 x < 84) by (apply Z.log2_lt_pow2; lia).
  destruct (Z.leb_spec (Z.log2 x + 1) 53) as [Hbits|_]; [lia|].
  set (sh := Z.log2 x + 1 - 53) in *.
  assert (Hsh : 3 <= sh <= 31) by (subst sh; lia).
  replace (Z.log2 x) with (52 + sh) in Hlog by (subst sh; lia).
  replace (Z.succ (52 + sh)) with (53 + sh) in Hlog by lia.
  rewrite !Z.pow_add_r in Hlog by lia.
  rewrite Z.shiftr_div_pow2, Z.shiftl_mul_pow2 by lia.
  assert (HPh : 2 ^ sh = 2 * 2 ^ (sh - 1)).
  { replace sh with (1 + (sh - 1)) at 1 by lia. rewrite Z.pow_add_r by lia. reflexivity. }
  assert (HPK : 2 ^ sh * 2 ^ (54 - sh) = 2 ^ 54).
  { rewrite <- Z.pow_add_r by lia. f_equal. lia. }
  assert (HP : 8 <= 2 ^ sh <= 2 ^ 31).
  { split; [change 8 with (2 ^ 3)|]; apply Z.pow_le_mono_r; lia. }
  assert (HK : 0 < 2 ^ (54 - sh)) by (apply Z.pow_pos_nonneg; lia).
  pose proof (Z.div_mod x (2 ^ sh) ltac:(lia)) as Hdiv.
  pose proof (Z.mod_pos_bound x (2 ^ sh) ltac:(lia)) as Hmod.
  set (P := 2 ^ sh) in *. set (h := 2 ^ (sh - 1)) in *. set (K := 2 ^ (54 - sh)) in *.
  set (qx := x / P) in *. set (rx := x mod P) in *.
  change (2 ^ 52) with 4503599627370496 in Hlog.
  change (2 ^ 53) with 9007199254740992 in Hlog.
  change (2 ^ 31) with 2147483648 in HP.
  change (2 ^ 54) with 18014398509481984 in HPK.
  change (2 ^ 54) with 18014398509481984.
  assert (H10 : 10 * x = 3 * n * 18014398509481984 - 2 * n) by (subst x; lia).
  pose proof (Z.div_mod (3 * n) 10 ltac:(lia)) as Hq.
  pose proof (Z.mod_pos_bound (3 * n) 10 ltac:(lia)) as Hrr.
  set (q := 3 * n / 10) in *. set (rr := (3 * n) mod 10) in *.
  assert (Hq0 : 0 <= q) by (subst q; apply Z.div_pos; lia).
  (* the quotient by [2^54] is the quotient by [K] of the rounded mantissa *)
  assert (Hcancel : forall m, m * P / 18014398509481984 = m / K).
  { intros m. rewrite <- HPK, (Z.mul_comm P K). apply Z.div_mul_cancel_r; lia. }
  rewrite Hcancel.
  assert (HqK : P * (q * K) = q * 18014398509481984) by (rewrite <- HPK; ring).
  assert (HqK1 : P * ((q + 1) * K) = (q + 1) * 18014398509481984)
    by (rewrite <- HPK; ring).
  (* above: even rounded up, the mantissa stays below [(q + 1) * K] *)
  assert (Hup : qx + 1 < (q + 1) * K).
  { apply (Z.mul_lt_mono_pos_l P); [lia|]. rewrite HqK1. lia. }
  (* below *)
  assert (Hdown : q * K <= (if (rx >? h) || ((rx =? h) && Z.odd qx) then qx + 1 else qx)).
  { destruct (Z.eq_dec rr 0) as [Hr0|Hr0].
    - (* a multiple of ten: the product is just below [q * 2^54] and
         rounds up to it *)
      assert (Hrx : x = P * (q * K - 1) + (P - (q * 18014398509481984 - x))).
      { rewrite Z.mul_sub_distr_l, HqK. ring. }
      assert (Hgap : 0 < q * 18014398509481984 - x < h) by lia.
      assert (Hqx : qx = q * K - 1).
      { subst qx. symmetry. apply (Z.div_unique_pos x P _ (P - (q * 18014398509481984 - x)));
          [lia|exact Hrx]. }
      assert (Hrx' : rx = P - (q * 18014398509481984 - x)).
      { subst rx. symmetry. apply (Z.mod_unique_pos x P (q * K - 1)); [lia|exact Hrx]. }
      destruct (Z.gtb_spec rx h); [cbn; lia|lia].
    - assert (Hge : q * K <= qx).
      { subst qx. apply Z.div_le_lower_bound; [lia|]. rewrite HqK. lia. }
      destruct ((rx >? h) || ((rx =? h) && Z.odd qx)); lia. }
  symmetry. apply Z.div_unique with
    (r := (if (rx >? h) || ((rx =? h) && Z.odd qx) then qx + 1 else qx) - K * q).
  - left. destruct ((rx >? h) || ((rx =? h) && Z.odd qx)); lia.
  - ring.
Qed.

(** X25: the extras make three tenths of the suspects, rounded down.
    For every count from 0 up to [2^31], [calculateExtrasCount] returns
    the integer part of three tenths of the count, except for 6 suspects,
    who get 2 extras; the double product of the last branch never rounds
    across an integer. *)
Theorem extras_are_three_tenths (totalCount : Z) :
  0 <= totalCount < 2 ^ 31 ->
  calculateExtrasCount totalCount
  = if totalCount =? 6 then 2 else 3 * totalCount / 10.
Proof.
  intros Hn. unfold calculateExtrasCount.
  destruct (Z.leb_spec totalCount 7) as [Hsmall|Hlarge].
  - assert (Hcases : totalCount = 0 \/ totalCount = 1 \/ totalCount = 2
                     \/ totalCount = 3 \/ totalCount = 4 \/ totalCount = 5
                     \/ totalCount = 6 \/ totalCount = 7) by lia.
    repeat destruct Hcases as [->|Hcases]; try subst totalCount; reflexivity.
  - destruct (Z.leb_spec totalCount 3); [lia|].
    destruct (Z.leb_spec totalCount 5); [lia|].
    destruct (Z.eqb_spec totalCount 6); [lia|].
    apply floorThreeTenths_exact. lia.
Qed.

Lemma extras_are_three_tenths_witness :
  0 <= 10 < 2 ^ 31
  /\ calculateExtrasCount 10 = if 10 =? 6 then 2 else 3 * 10 / 10.
Proof.
  split; [split; [lia|reflexivity]|].
  apply (extras_are_three_tenths 10). split; [lia|reflexivity].
Defined.

End SuspectServiceFacts.
